(** * console-tetris: a shallow embedding of [tetris_console.py]

    The game core of [tetris_console.py] (classes [Piece] and [Game], and the
    key dispatch of [main]) as Rocq functions, followed by the properties of
    the game rules.

    Conventions of the embedding:
    - Python [int] is [Z]; results of [len] and loop indices of [range] are
      [nat]; Python [float] is the kernel's binary64 [float].
    - A call that can raise returns a [result]; [Raised e] is the exception
      leaving the call.  The [while] loop of [hard_drop] takes fuel.
    - [random.shuffle] and [time.time] are inputs of the operation that
      calls them. *)

From Stdlib Require Import ZArith Ascii Floats.
From stdpp Require Import base tactics option list strings.

#[local] Set Warnings "-inexact-float".
#[local] Open Scope Z_scope.

(** ** Python runtime: exceptions, sequences, truth values *)

Inductive exn := IndexError | KeyError | OverflowError.

Inductive result (A : Type) : Type :=
  | Done (a : A)
  | Raised (e : exn)
  | OutOfFuel.
Arguments Done {A} a.
Arguments Raised {A} e.
Arguments OutOfFuel {A}.

#[global] Instance result_ret : MRet result := fun A a => Done a.
#[global] Instance result_bind : MBind result := fun A B f m =>
  match m with
  | Done a => f a
  | Raised e => Raised e
  | OutOfFuel => OutOfFuel
  end.
#[global] Instance result_fmap : FMap result := fun A B f m =>
  match m with
  | Done a => Done (f a)
  | Raised e => Raised e
  | OutOfFuel => OutOfFuel
  end.

(** [l[i]]: a negative index counts from the end, an index out of range
    raises [IndexError]. *)
Definition getitem {A} (l : list A) (i : Z) : result A :=
  let j := if i <? 0 then Z.of_nat (length l) + i else i in
  if j <? 0 then Raised IndexError
  else match l !! Z.to_nat j with
       | Some a => Done a
       | None => Raised IndexError
       end.

(** [l[i] = v] *)
Definition setitem {A} (l : list A) (i : Z) (v : A) : result (list A) :=
  let j := if i <? 0 then Z.of_nat (length l) + i else i in
  if (j <? 0) || (Z.of_nat (length l) <=? j) then Raised IndexError
  else Done (<[Z.to_nat j := v]> l).

(** [l.pop()]: removes and returns the last item. *)
Definition pop {A} (l : list A) : result (A * list A) :=
  match reverse l with
  | [] => Raised IndexError
  | a :: r => Done (a, reverse r)
  end.

(** [zip( *m )]: the columns of [m], as many as the shortest row has. *)
Fixpoint zip_star {A} (m : list (list A)) : list (list A) :=
  match m with
  | [] => []
  | r :: m' =>
      match m' with
      | [] => (fun a => [a]) <$> r
      | _ :: _ => zip_with cons r (zip_star m')
      end
  end.

(** A [for] loop whose body may [return]: [Some v] leaves the loop with
    [v], [None] goes on with the next item. *)
Fixpoint for_return {I R} (body : I → result (option R)) (items : list I)
  : result (option R) :=
  match items with
  | [] => Done None
  | i :: items' =>
      o ← body i;
      match o with
      | Some v => Done (Some v)
      | None => for_return body items'
      end
  end.

(** A [for] loop that updates a state. *)
Fixpoint for_each {I S} (body : I → S → result S) (items : list I) (s : S)
  : result S :=
  match items with
  | [] => Done s
  | i :: items' => s' ← body i s; for_each body items' s'
  end.

(** Truth value of an [int] *)
Definition truthy_int (z : Z) : bool := negb (z =? 0).

(** [int(n)] as a [float] operand: correctly rounded, [OverflowError] when
    the rounded value is not finite. *)
Definition int_to_float (n : Z) : result float :=
  match binary_normalize prec emax n 0 false with
  | S754_infinity _ => Raised OverflowError
  | sf => Done (SF2Prim sf)
  end.

(** [max(a, b)]: [b] replaces [a] only when [b > a]. *)
Definition py_max (a b : float) : float := if (a <? b)%float then b else a.

(** [m] has [hh] rows of [ww] items each. *)
Definition rect {A} (hh ww : nat) (m : list (list A)) : Prop :=
  length m = hh ∧ Forall (fun r => length r = ww) m.

(** ** Constants and the shape catalog *)

Definition BOARD_WIDTH : Z := 10.
Definition BOARD_HEIGHT : Z := 20.

Definition TETROMINOES : list (string * list (list Z)) :=
  [ ("I", [[0;0;0;0]; [1;1;1;1]; [0;0;0;0]; [0;0;0;0]]);
    ("J", [[1;0;0]; [1;1;1]; [0;0;0]]);
    ("L", [[0;0;1]; [1;1;1]; [0;0;0]]);
    ("O", [[1;1]; [1;1]]);
    ("S", [[0;1;1]; [1;1;0]; [0;0;0]]);
    ("T", [[0;1;0]; [1;1;1]; [0;0;0]]);
    ("Z", [[1;1;0]; [0;1;1]; [0;0;0]]) ]%string.

(** [list(TETROMINOES.keys())] *)
Definition TETROMINOES_keys : list string := TETROMINOES.*1.

Fixpoint assoc {V} (k : string) (d : list (string * V)) : option V :=
  match d with
  | [] => None
  | (k', v) :: d' => if String.eqb k k' then Some v else assoc k d'
  end.

(** [TETROMINOES[shape]] *)
Definition TETROMINOES_get (shape : string) : result (list (list Z)) :=
  match assoc shape TETROMINOES with
  | Some m => Done m
  | None => Raised KeyError
  end.

(** ** class Piece *)

Module Piece.

Record t := mk {
  shape : string;
  matrix : list (list Z);
  h : nat;
  w : nat;
  x : Z;
  y : Z
}.

Definition with_x (nx : Z) (p : t) : t :=
  mk (shape p) (matrix p) (h p) (w p) nx (y p).
Definition with_y (ny : Z) (p : t) : t :=
  mk (shape p) (matrix p) (h p) (w p) (x p) ny.
Definition with_matrix (m : list (list Z)) (p : t) : t :=
  mk (shape p) m (h p) (w p) (x p) (y p).
Definition with_h (nh : nat) (p : t) : t :=
  mk (shape p) (matrix p) nh (w p) (x p) (y p).
Definition with_w (nw : nat) (p : t) : t :=
  mk (shape p) (matrix p) (h p) nw (x p) (y p).

(** [Piece.__init__] *)
Definition new (shape : string) : result t :=
  m ← TETROMINOES_get shape;
  row0 ← getitem m 0;
  let w := length row0 in
  Done (mk shape m (length m) w ((BOARD_WIDTH - Z.of_nat w) / 2) 0).

(** The tail shared by [rotate] and [rotate_ccw]: store the new matrix,
    then [h = len(matrix)] and [w = len(matrix[0])]. *)
Definition set_matrix (m : list (list Z)) (p : t) : result t :=
  let p1 := with_h (length m) (with_matrix m p) in
  row0 ← getitem (matrix p1) 0;
  Done (with_w (length row0) p1).

Definition rotate (p : t) : result t :=
  set_matrix (zip_star (reverse (matrix p))) p.

Definition rotate_ccw (p : t) : result t :=
  set_matrix (reverse (zip_star (matrix p))) p.

(** The matrix is a non-empty [h] by [w] rectangle. *)
Definition wf (p : t) : Prop :=
  rect (h p) (w p) (matrix p) ∧ (0 < h p)%nat ∧ (0 < w p)%nat.

(** [matrix[r][c]] is set. *)
Definition occupied (p : t) (r c : nat) : Prop :=
  ∃ row z, matrix p !! r = Some row ∧ row !! c = Some z ∧ z ≠ 0.

End Piece.

(** ** class Game *)

(** A board cell: the integer [0], or the shape name of the piece locked
    there. *)
Inductive cell := Zero | Tag (s : string).

(** Truth value of a cell: [0] and the empty string are false. *)
Definition truthy_cell (c : cell) : bool :=
  match c with
  | Zero => false
  | Tag s => negb (String.eqb s "")
  end.

(** [cell == 0] *)
Definition cell_is_zero (c : cell) : bool :=
  match c with
  | Zero => true
  | Tag _ => false
  end.

(** What [random.shuffle] may do to a list. *)
Definition is_shuffle (shuffle : list string → list string) : Prop :=
  ∀ l, shuffle l ≡ₚ l.

Module Game.

Record t := mk {
  board : list (list cell);
  score : Z;
  lines : Z;
  level : Z;
  drop_delay : float;
  bag : list string;
  current : Piece.t;
  next : Piece.t;
  game_over : bool;
  paused : bool;
  last_drop : float
}.

Definition with_board v g := mk v (score g) (lines g) (level g)
  (drop_delay g) (bag g) (current g) (next g) (game_over g) (paused g)
  (last_drop g).
Definition with_score v g := mk (board g) v (lines g) (level g)
  (drop_delay g) (bag g) (current g) (next g) (game_over g) (paused g)
  (last_drop g).
Definition with_lines v g := mk (board g) (score g) v (level g)
  (drop_delay g) (bag g) (current g) (next g) (game_over g) (paused g)
  (last_drop g).
Definition with_level v g := mk (board g) (score g) (lines g) v
  (drop_delay g) (bag g) (current g) (next g) (game_over g) (paused g)
  (last_drop g).
Definition with_drop_delay v g := mk (board g) (score g) (lines g)
  (level g) v (bag g) (current g) (next g) (game_over g) (paused g)
  (last_drop g).
Definition with_bag v g := mk (board g) (score g) (lines g) (level g)
  (drop_delay g) v (current g) (next g) (game_over g) (paused g)
  (last_drop g).
Definition with_current v g := mk (board g) (score g) (lines g) (level g)
  (drop_delay g) (bag g) v (next g) (game_over g) (paused g)
  (last_drop g).
Definition with_next v g := mk (board g) (score g) (lines g) (level g)
  (drop_delay g) (bag g) (current g) v (game_over g) (paused g)
  (last_drop g).
Definition with_game_over v g := mk (board g) (score g) (lines g)
  (level g) (drop_delay g) (bag g) (current g) (next g) v (paused g)
  (last_drop g).
Definition with_paused v g := mk (board g) (score g) (lines g) (level g)
  (drop_delay g) (bag g) (current g) (next g) (game_over g) v
  (last_drop g).
Definition with_last_drop v g := mk (board g) (score g) (lines g)
  (level g) (drop_delay g) (bag g) (current g) (next g) (game_over g)
  (paused g) v.

(** [next_piece]: the only field it reads or writes is [self.bag], which
    is passed in and handed back. *)
Definition next_piece (shuffle : list string → list string)
    (bag : list string) : result (Piece.t * list string) :=
  let bag1 :=
    match bag with
    | [] => shuffle TETROMINOES_keys
    | _ :: _ => bag
    end in
  '(shape, bag2) ← pop bag1;
  p ← Piece.new shape;
  Done (p, bag2).

(** [Game.__init__]; [now] is the value of [time.time()]. *)
Definition init (shuffle : list string → list string) (now : float)
  : result t :=
  let board :=
    replicate (Z.to_nat BOARD_HEIGHT) (replicate (Z.to_nat BOARD_WIDTH) Zero) in
  '(cur, bag1) ← next_piece shuffle [];
  '(nxt, bag2) ← next_piece shuffle bag1;
  Done (mk board 0 0 1 1.0%float bag2 cur nxt false false now).

(** The body of the inner loop of [valid] at row [r], column [c]. *)
Definition valid_cell (board : list (list cell)) (piece : Piece.t)
    (x y : Z) (r c : nat) : result (option bool) :=
  row ← getitem (Piece.matrix piece) (Z.of_nat r);
  m ← getitem row (Z.of_nat c);
  if truthy_int m then
    let bx := x + Z.of_nat c in
    let by_ := y + Z.of_nat r in
    if (bx <? 0) || (BOARD_WIDTH <=? bx) || (by_ <? 0) || (BOARD_HEIGHT <=? by_)
    then Done (Some false)
    else
      brow ← getitem board by_;
      bc ← getitem brow bx;
      if truthy_cell bc then Done (Some false) else Done None
  else Done None.

Definition valid (board : list (list cell)) (piece : Piece.t)
    (nx ny : option Z) : result bool :=
  let x := default (Piece.x piece) nx in
  let y := default (Piece.y piece) ny in
  o ← for_return (fun r =>
         for_return (fun c => valid_cell board piece x y r c)
           (seq 0 (Piece.w piece)))
       (seq 0 (Piece.h piece));
  Done (default true o).

(** [clear_lines]'s new level gives the new delay. *)
Definition delay_of_level (level : Z) : result float :=
  f ← int_to_float (level - 1);
  Done (py_max 0.05 (1.0 - f * 0.05))%float.

Definition clear_lines (g : t) : result t :=
  let new_board := List.filter (existsb cell_is_zero) (board g) in
  let cleared := BOARD_HEIGHT - Z.of_nat (length new_board) in
  if cleared =? 0 then Done g
  else
    let new_board :=
      Nat.iter (Z.to_nat cleared)
        (cons (replicate (Z.to_nat BOARD_WIDTH) Zero)) new_board in
    let g := with_board new_board g in
    let g := with_lines (lines g + cleared) g in
    let g := with_score (score g + (cleared * 100) * level g) g in
    let g := with_level (1 + lines g / 10) g in
    d ← delay_of_level (level g);
    Done (with_drop_delay d g).

(** The body of the inner loop of [lock_piece]. *)
Definition lock_cell (piece : Piece.t) (r c : nat)
    (board : list (list cell)) : result (list (list cell)) :=
  row ← getitem (Piece.matrix piece) (Z.of_nat r);
  m ← getitem row (Z.of_nat c);
  if truthy_int m then
    let bx := Piece.x piece + Z.of_nat c in
    let by_ := Piece.y piece + Z.of_nat r in
    if (0 <=? by_) && (by_ <? BOARD_HEIGHT) && (0 <=? bx) && (bx <? BOARD_WIDTH)
    then
      brow ← getitem board by_;
      brow' ← setitem brow bx (Tag (Piece.shape piece));
      setitem board by_ brow'
    else Done board
  else Done board.

Definition lock_write (piece : Piece.t) (board : list (list cell))
  : result (list (list cell)) :=
  for_each (fun r =>
      for_each (fun c => lock_cell piece r c) (seq 0 (Piece.w piece)))
    (seq 0 (Piece.h piece)) board.

Definition lock_piece (shuffle : list string → list string) (g : t)
    (piece : Piece.t) : result t :=
  b ← lock_write piece (board g);
  g ← clear_lines (with_board b g);
  let g := with_current (next g) g in
  '(nxt, bag') ← next_piece shuffle (bag g);
  let g := with_next nxt (with_bag bag' g) in
  v ← valid (board g) (current g) None None;
  if negb v then Done (with_game_over true g) else Done g.

(** [current.y += 1] *)
Definition descend (g : t) : t :=
  with_current (Piece.with_y (Piece.y (current g) + 1) (current g)) g.

(** The [while] loop of [hard_drop]; each test of the condition costs
    one unit of fuel. *)
Fixpoint hard_drop_loop (fuel : nat) (g : t) : result t :=
  match fuel with
  | O => OutOfFuel
  | S fuel' =>
      v ← valid (board g) (current g) None (Some (Piece.y (current g) + 1));
      if (v : bool) then
        let g := descend g in
        hard_drop_loop fuel' (with_score (score g + 2) g)
      else Done g
  end.

Definition hard_drop (fuel : nat) (shuffle : list string → list string)
    (g : t) : result t :=
  g ← hard_drop_loop fuel g;
  lock_piece shuffle g (current g).

(** [step]; [now] is the value of [time.time()]. *)
Definition step (shuffle : list string → list string) (now : float)
    (g : t) : result t :=
  if paused g || game_over g then Done g
  else if (drop_delay g <=? now - last_drop g)%float then
    v ← valid (board g) (current g) None (Some (Piece.y (current g) + 1));
    g ← (if (v : bool) then Done (descend g) else lock_piece shuffle g (current g));
    Done (with_last_drop now g)
  else Done g.

Definition KICKS : list Z := [0; -1; 1; -2; 2].

Definition rotate_current (ccw : bool) (g : t) : result t :=
  let old_matrix := Piece.matrix (current g) in
  let old_w := Piece.w (current g) in
  let old_h := Piece.h (current g) in
  p ← (if ccw then Piece.rotate_ccw (current g)
       else Piece.rotate (current g));
  let g := with_current p g in
  o ← for_return (fun dx =>
         v ← valid (board g) (current g)
               (Some (Piece.x (current g) + dx)) None;
         if (v : bool) then
           Done (Some (with_current
                   (Piece.with_x (Piece.x (current g) + dx) (current g)) g))
         else Done None) KICKS;
  match o with
  | Some g' => Done g'
  | None =>
      let p := Piece.with_matrix old_matrix (current g) in
      let p := Piece.with_h old_h (Piece.with_w old_w p) in
      Done (with_current p g)
  end.

Definition move_current (dx : Z) (g : t) : result t :=
  v ← valid (board g) (current g) (Some (Piece.x (current g) + dx)) None;
  if (v : bool) then
    Done (with_current
            (Piece.with_x (Piece.x (current g) + dx) (current g)) g)
  else Done g.

Definition soft_drop (shuffle : list string → list string) (g : t)
  : result t :=
  v ← valid (board g) (current g) None (Some (Piece.y (current g) + 1));
  if (v : bool) then
    let g := descend g in
    Done (with_score (score g + 1) g)
  else lock_piece shuffle g (current g).

End Game.

(** ** main: one turn of the loop *)

(** [ord(c)] *)
Definition ord (c : ascii) : Z := Z.of_N (N_of_ascii c).
#[local] Arguments ord c%_char.

Section Driver.

(** The key codes of the [curses] module. *)
Variables KEY_LEFT KEY_RIGHT KEY_DOWN : Z.

(** [ch in (a, b)] *)
Definition key_in (ch a b : Z) : bool := (ch =? a) || (ch =? b).

(** The [if]/[elif] chain on the key read; [None] is [break]. *)
Definition dispatch (fuel : nat) (shuffle : list string → list string)
    (ch : Z) (g : Game.t) : result (option Game.t) :=
  if key_in ch KEY_LEFT (ord "h") then Some <$> Game.move_current (-1) g
  else if key_in ch KEY_RIGHT (ord "l") then Some <$> Game.move_current 1 g
  else if key_in ch KEY_DOWN (ord "j") then Some <$> Game.soft_drop shuffle g
  else if ch =? ord " " then Some <$> Game.hard_drop fuel shuffle g
  else if key_in ch (ord "z") (ord "Z") then
    Some <$> Game.rotate_current true g
  else if key_in ch (ord "x") (ord "X") then
    Some <$> Game.rotate_current false g
  else if key_in ch (ord "p") (ord "P") then
    Done (Some (Game.with_paused (negb (Game.paused g)) g))
  else if key_in ch (ord "q") (ord "Q") then Done None
  else Done (Some g).

(** The body of [while True] in [main]: [ch] is what [getch] returns,
    [now] what [time.time] returns inside [step]; [draw] and [sleep]
    leave the game alone.  [None] is [break]. *)
Definition main_turn (fuel : nat) (shuffle : list string → list string)
    (ch : Z) (now : float) (g : Game.t) : result (option Game.t) :=
  if Game.game_over g then
    if key_in ch (ord "q") (ord "Q") then Done None else Done (Some g)
  else
    o ← (if negb (ch =? -1) then dispatch fuel shuffle ch g
         else Done (Some g));
    match o with
    | None => Done None
    | Some g1 => Some <$> Game.step shuffle now g1
    end.

End Driver.

(** ** Reachable game states *)

(** The calls a caller of [Game] can make. *)
Inductive op :=
  | MoveCurrent (dx : Z)
  | SoftDrop
  | HardDrop
  | RotateCurrent (ccw : bool)
  | Step (now : float)
  | TogglePause.

Definition run_op (fuel : nat) (shuffle : list string → list string)
    (o : op) (g : Game.t) : result Game.t :=
  match o with
  | MoveCurrent dx => Game.move_current dx g
  | SoftDrop => Game.soft_drop shuffle g
  | HardDrop => Game.hard_drop fuel shuffle g
  | RotateCurrent ccw => Game.rotate_current ccw g
  | Step now => Game.step shuffle now g
  | TogglePause => Done (Game.with_paused (negb (Game.paused g)) g)
  end.

Inductive reachable : Game.t → Prop :=
  | reachable_init shuffle now g :
      is_shuffle shuffle →
      Game.init shuffle now = Done g →
      reachable g
  | reachable_op fuel shuffle o g g' :
      is_shuffle shuffle →
      reachable g →
      run_op fuel shuffle o g = Done g' →
      reachable g'.

(** ** Data invariants *)

(** A cell holds [0] or one of the catalog's shape names. *)
Definition cell_ok (c : cell) : Prop :=
  match c with
  | Zero => True
  | Tag s => s ∈ TETROMINOES_keys
  end.

(** The board is [BOARD_HEIGHT] rows of [BOARD_WIDTH] such cells. *)
Definition board_ok (b : list (list cell)) : Prop :=
  rect (Z.to_nat BOARD_HEIGHT) (Z.to_nat BOARD_WIDTH) b ∧
  Forall (Forall cell_ok) b.

(** The board coordinate [(bx, by_)] is on the board. *)
Definition in_bounds (bx by_ : Z) : Prop :=
  (0 ≤ bx < BOARD_WIDTH) ∧ (0 ≤ by_ < BOARD_HEIGHT).

(** The cell at column [bx] of row [by_], if there is one. *)
Definition cell_at (b : list (list cell)) (bx by_ : Z) : option cell :=
  if (bx <? 0) || (by_ <? 0) then None
  else row ← b !! Z.to_nat by_; row !! Z.to_nat bx.

(** The occupied cell [(r, c)] of [piece], placed at [(x, y)], is off the
    board or on a cell that is not empty. *)
Definition collides (b : list (list cell)) (piece : Piece.t) (x y : Z)
    (r c : nat) : Prop :=
  Piece.occupied piece r c ∧
  (¬ in_bounds (x + Z.of_nat c) (y + Z.of_nat r) ∨
   ∃ cl, cell_at b (x + Z.of_nat c) (y + Z.of_nat r) = Some cl ∧ cl ≠ Zero).

(** A row with no empty cell. *)
Definition full_row (row : list cell) : bool :=
  forallb (fun c => negb (cell_is_zero c)) row.

(** A row of [BOARD_WIDTH] empty cells. *)
Definition empty_row : list cell := replicate (Z.to_nat BOARD_WIDTH) Zero.

(** What [Piece.__init__] builds from a catalog entry. *)
Definition fresh_ok (p : Piece.t) : Prop :=
  Piece.wf p ∧ Piece.shape p ∈ TETROMINOES_keys ∧
  (∃ r c, Piece.occupied p r c) ∧ Piece.y p = 0.

(** Consecutive calls of [next_piece], one per shuffle that [random] has
    in store, starting from [bag]: the pieces returned, in order, and the
    bag left. *)
Fixpoint draw (shuffles : list (list string → list string))
    (bag : list string) : result (list Piece.t * list string) :=
  match shuffles with
  | [] => Done ([], bag)
  | shuffle :: shuffles' =>
      '(p, bag1) ← Game.next_piece shuffle bag;
      '(ps, bag2) ← draw shuffles' bag1;
      Done (p :: ps, bag2)
  end.

(** [matrix[r][c]] is set, as a test. *)
Definition occupiedb (piece : Piece.t) (r c : nat) : bool :=
  match Piece.matrix piece !! r with
  | Some row =>
      match row !! c with
      | Some z => truthy_int z
      | None => false
      end
  | None => false
  end.

(** The occupied cell [(r, c)] of [piece], at the piece's position, lies
    on the board coordinate [(bx, by_)]. *)
Definition hitb (piece : Piece.t) (r c : nat) (bx by_ : Z) : bool :=
  occupiedb piece r c && (bx =? Piece.x piece + Z.of_nat c)
  && (by_ =? Piece.y piece + Z.of_nat r).

Definition coversb (piece : Piece.t) (bx by_ : Z) : bool :=
  existsb (fun r => existsb (fun c => hitb piece r c bx by_)
                      (seq 0 (Piece.w piece)))
    (seq 0 (Piece.h piece)).

(** Some occupied cell of [piece], at the piece's position, lies on the
    board coordinate [(bx, by_)]. *)
Definition covers (piece : Piece.t) (bx by_ : Z) : Prop :=
  ∃ r c, Piece.occupied piece r c ∧
    bx = Piece.x piece + Z.of_nat c ∧ by_ = Piece.y piece + Z.of_nat r.

(** The game after [k] turns of [hard_drop]'s loop: the current piece [k]
    rows lower, the score [2 * k] higher. *)
Definition drop_by (k : Z) (g : Game.t) : Game.t :=
  Game.with_score (Game.score g + 2 * k)
    (Game.with_current
       (Piece.with_y (Piece.y (Game.current g) + k) (Game.current g)) g).

(** Some cell of the matrix is set. *)
Definition has_cell (m : list (list Z)) : Prop :=
  Exists (Exists (fun z => z ≠ 0)) m.

(** A piece of the game: a non-empty rectangle with a cell set, named
    after a catalog shape. *)
Definition piece_ok (p : Piece.t) : Prop :=
  Piece.wf p ∧ Piece.shape p ∈ TETROMINOES_keys ∧ has_cell (Piece.matrix p).

(** [level] and [drop_delay] are those that [clear_lines] computes from
    [lines]. *)
Definition level_ok (g : Game.t) : Prop :=
  Game.level g = 1 + Game.lines g / 10 ∧
  Game.delay_of_level (Game.level g) = Done (Game.drop_delay g).

Definition state_ok (g : Game.t) : Prop :=
  board_ok (Game.board g) ∧
  Forall (fun k => k ∈ TETROMINOES_keys) (Game.bag g) ∧
  piece_ok (Game.current g) ∧ piece_ok (Game.next g) ∧ level_ok g.

(** ** Sample data *)

Definition empty_board : list (list cell) :=
  replicate (Z.to_nat BOARD_HEIGHT) empty_row.

Definition piece_T : Piece.t :=
  Piece.mk "T" [[0;1;0]; [1;1;1]; [0;0;0]] 3 3 3 0.

Definition piece_Z : Piece.t :=
  Piece.mk "Z" [[1;1;0]; [0;1;1]; [0;0;0]] 3 3 3 0.

Definition piece_L : Piece.t :=
  Piece.mk "L" [[0;0;1]; [1;1;1]; [0;0;0]] 3 3 3 0.

(** The game after [Game.__init__] when the shuffle leaves the bag in
    catalog order and the clock reads 0. *)
Definition game0 : Game.t :=
  Game.mk empty_board 0 0 1 1.0%float ["I"; "J"; "L"; "O"; "S"]%string
    piece_Z piece_T false false 0%float.

(** A board whose bottom row lacks only the cells of columns 3 to 5. *)
Definition board_gap : list (list cell) :=
  replicate 19 empty_row ++
  [[Tag "O"; Tag "O"; Tag "I"; Zero; Zero; Zero; Tag "I"; Tag "J"; Tag "J";
    Tag "J"]]%string.

(** [game0] with the bottom row full. *)
Definition game_line : Game.t :=
  Game.with_board
    (replicate 19 empty_row ++ [replicate 10 (Tag "I")]) game0.

(** [game0] paused, and [game0] with the game over. *)
Definition game_paused : Game.t := Game.with_paused true game0.
Definition game_lost : Game.t := Game.with_game_over true game0.

(** [n] calls of [f] in a row, each on the result of the one before. *)
Fixpoint repeat_call {A} (f : A → result A) (n : nat) (a : A) : result A :=
  match n with
  | O => Done a
  | S n' => a' ← f a; repeat_call f n' a'
  end.

(** [piece] turned by half a turn: rows in reverse order, each reversed. *)
Definition half_turned (p : Piece.t) : Piece.t :=
  Piece.with_matrix (reverse (reverse <$> Piece.matrix p)) p.

(** The current piece is valid where it stands, unless the game is over. *)
Definition playable (g : Game.t) : Prop :=
  Game.game_over g = false →
  Game.valid (Game.board g) (Game.current g) None None = Done true.

(** No row of the board is full. *)
Definition no_full_row (b : list (list cell)) : Prop :=
  Forall (fun row => full_row row = false) b.

(** From [g] to [g'] the board, the line count, the level, the delay, the
    bag, the next piece and [game_over] are untouched, and the score is
    not lower. *)
Definition frame (g g' : Game.t) : Prop :=
  Game.board g' = Game.board g ∧ Game.lines g' = Game.lines g ∧
  Game.level g' = Game.level g ∧ Game.drop_delay g' = Game.drop_delay g ∧
  Game.bag g' = Game.bag g ∧ Game.next g' = Game.next g ∧
  Game.game_over g' = Game.game_over g ∧ Game.score g ≤ Game.score g'.

(** [g] with [c] more points. *)
Definition add_score (c : Z) (g : Game.t) : Game.t :=
  Game.with_score (Game.score g + c) g.

(** [g] with the current piece [k] rows lower and [c] more points. *)
Definition slide (k c : Z) (g : Game.t) : Game.t :=
  Game.with_score (Game.score g + c)
    (Game.with_current
       (Piece.with_y (Piece.y (Game.current g) + k) (Game.current g)) g).

(** The bag holds no name twice, at most six names, and not the name of
    the next piece. *)
Definition bag_ok (g : Game.t) : Prop :=
  NoDup (Game.bag g) ∧ (length (Game.bag g) ≤ 6)%nat ∧
  Piece.shape (Game.next g) ∉ Game.bag g.

(** [game_line] after nine cleared lines: the next clear changes the
    level. *)
Definition game_line9 : Game.t :=
  Game.with_score 900 (Game.with_lines 9 game_line).

(** Nine lines cleared, the bottom row of [board_gap], and the T piece
    lying in the gap. *)
Definition game_gap : Game.t :=
  Game.mk board_gap 900 9 1 1.0%float ["I"; "J"; "L"; "O"; "S"]%string
    (Piece.with_y 18 piece_T) piece_Z false false 0%float.

(** The game after ten hard drops from [game0] with the bag in catalog
    order: the stack has reached the top row but one, the O piece that
    came in lies on it, and the game is over. *)
Definition game_top : Game.t :=
  Game.mk
    [[Zero; Zero; Zero; Zero; Zero; Zero; Zero; Zero; Zero; Zero];
     [Zero; Zero; Zero; Zero; Tag "S"; Tag "S"; Zero; Zero; Zero; Zero];
     [Zero; Zero; Zero; Tag "S"; Tag "S"; Zero; Zero; Zero; Zero; Zero];
     [Zero; Zero; Zero; Zero; Tag "T"; Zero; Zero; Zero; Zero; Zero];
     [Zero; Zero; Zero; Tag "T"; Tag "T"; Tag "T"; Zero; Zero; Zero; Zero];
     [Zero; Zero; Zero; Tag "Z"; Tag "Z"; Zero; Zero; Zero; Zero; Zero];
     [Zero; Zero; Zero; Zero; Tag "Z"; Tag "Z"; Zero; Zero; Zero; Zero];
     [Zero; Zero; Zero; Tag "I"; Tag "I"; Tag "I"; Tag "I"; Zero; Zero; Zero];
     [Zero; Zero; Zero; Tag "J"; Zero; Zero; Zero; Zero; Zero; Zero];
     [Zero; Zero; Zero; Tag "J"; Tag "J"; Tag "J"; Zero; Zero; Zero; Zero];
     [Zero; Zero; Zero; Zero; Zero; Tag "L"; Zero; Zero; Zero; Zero];
     [Zero; Zero; Zero; Tag "L"; Tag "L"; Tag "L"; Zero; Zero; Zero; Zero];
     [Zero; Zero; Zero; Zero; Tag "O"; Tag "O"; Zero; Zero; Zero; Zero];
     [Zero; Zero; Zero; Zero; Tag "O"; Tag "O"; Zero; Zero; Zero; Zero];
     [Zero; Zero; Zero; Zero; Tag "S"; Tag "S"; Zero; Zero; Zero; Zero];
     [Zero; Zero; Zero; Tag "S"; Tag "S"; Zero; Zero; Zero; Zero; Zero];
     [Zero; Zero; Zero; Zero; Tag "T"; Zero; Zero; Zero; Zero; Zero];
     [Zero; Zero; Zero; Tag "T"; Tag "T"; Tag "T"; Zero; Zero; Zero; Zero];
     [Zero; Zero; Zero; Tag "Z"; Tag "Z"; Zero; Zero; Zero; Zero; Zero];
     [Zero; Zero; Zero; Zero; Tag "Z"; Tag "Z"; Zero; Zero; Zero; Zero]]%string
    186 0 1 1.0%float ["I"; "J"]%string
    (Piece.mk "O" [[1; 1]; [1; 1]] 2 2 4 0) piece_L true false 0%float.

(** * Properties *)

(** ** The [result] monad and the sequence operations *)

Lemma bind_Done {A B} (m : result A) (f : A → result B) (b : B) :
  m ≫= f = Done b ↔ ∃ a, m = Done a ∧ f a = Done b.
Proof.
  destruct m as [a| |]; simpl; split.
  - intros Hf. by exists a.
  - by intros (a' & [= <-] & Hf).
  - done.
  - by intros (a' & Hm & _).
  - done.
  - by intros (a' & Hm & _).
Qed.

(** Take apart a hypothesis that a sequence of calls returned. *)
Ltac inv_bind H :=
  let a := fresh "a" in
  let Ha := fresh "Ha" in
  apply bind_Done in H as (a & Ha & H).

Lemma getitem_nonneg {A} (l : list A) (i : Z) :
  0 ≤ i →
  getitem l i =
    match l !! Z.to_nat i with Some a => Done a | None => Raised IndexError end.
Proof.
  intros Hi. unfold getitem.
  destruct (Z.ltb_spec i 0) as [?|_]; [lia|].
  by destruct (Z.ltb_spec i 0) as [?|_]; [lia|].
Qed.

Lemma getitem_nat {A} (l : list A) (i : nat) :
  getitem l (Z.of_nat i) =
    match l !! i with Some a => Done a | None => Raised IndexError end.
Proof. rewrite getitem_nonneg by lia. by rewrite Nat2Z.id. Qed.

Lemma setitem_in_range {A} (l : list A) (i : Z) (v : A) :
  0 ≤ i < Z.of_nat (length l) →
  setitem l i v = Done (<[Z.to_nat i := v]> l).
Proof.
  intros Hi. unfold setitem.
  destruct (Z.ltb_spec i 0) as [?|_]; [lia|].
  destruct (Z.ltb_spec i 0) as [?|_]; [lia|].
  by destruct (Z.leb_spec (Z.of_nat (length l)) i) as [?|_]; [lia|].
Qed.

Section loops.
Context {I R S : Type}.

(** A loop that returned [Some v] did so at the first item whose body
    returned; a loop that fell through saw every body fall through. *)
Lemma for_return_Done (body : I → result (option R)) items o :
  for_return body items = Done o →
  match o with
  | Some v =>
      ∃ pre i post, items = pre ++ i :: post ∧
        (∀ j, j ∈ pre → body j = Done None) ∧ body i = Done (Some v)
  | None => ∀ j, j ∈ items → body j = Done None
  end.
Proof.
  revert o. induction items as [|i items IH]; intros o; simpl.
  - intros [= <-]. by intros j ?%elem_of_nil.
  - intros H. inv_bind H. destruct a as [v|].
    + injection H as <-. exists [], i, items.
      split_and!; [done| |done]. by intros j ?%elem_of_nil.
    + specialize (IH _ H). destruct o as [v|].
      * destruct IH as (pre & i' & post & -> & Hpre & Hi').
        exists (i :: pre), i', post. split_and!; [done| |done].
        intros j [->|?]%elem_of_cons; auto.
      * intros j [->|?]%elem_of_cons; auto.
Qed.

End loops.

(** ** Rotation *)

Section rotation.
Context {A : Type}.
Implicit Types (m : list (list A)) (r : list A).

Lemma rect_cons_inv hh ww r m :
  rect hh ww (r :: m) → length r = ww ∧ rect (pred hh) ww m.
Proof.
  intros [Hl [Hr Hm]%Forall_cons]. simpl in Hl. subst hh. by split.
Qed.

Lemma rect_reverse hh ww m : rect hh ww m → rect hh ww (reverse m).
Proof.
  intros [Hl Hm]. split; [by rewrite length_reverse|].
  by apply Forall_reverse.
Qed.

Lemma zip_with_cons_rows k r m :
  Forall (fun row => length row = k) m →
  Forall (fun row => length row = Datatypes.S k) (zip_with cons r m).
Proof.
  intros Hm. revert r. induction Hm as [|row m Hrow Hm IH]; intros [|a r];
    simpl; constructor; simpl; auto.
Qed.

Lemma zip_star_rect hh ww m :
  rect hh ww m → (0 < hh)%nat → rect ww hh (zip_star m).
Proof.
  revert hh. induction m as [|r m IH]; intros hh Hm Hh.
  - destruct Hm as [Hl _]. simpl in Hl. lia.
  - apply rect_cons_inv in Hm as [Hr Hm]. destruct m as [|r' m].
    + destruct Hm as [Hl _]. simpl in *.
      assert (hh = 1%nat) as -> by lia. split.
      * by rewrite length_fmap.
      * apply Forall_fmap. by apply Forall_true.
    + assert (0 < pred hh)%nat as Hp.
      { destruct Hm as [Hl _]. simpl in Hl. lia. }
      destruct (IH _ Hm Hp) as [Hl Hrows].
      change (zip_star (r :: r' :: m))
        with (zip_with cons r (zip_star (r' :: m))).
      split.
      * rewrite length_zip_with. lia.
      * replace hh with (Datatypes.S (pred hh)) by lia.
        by apply zip_with_cons_rows.
Qed.

Lemma zip_star_singletons r :
  r ≠ [] → zip_star ((fun a => [a]) <$> r) = [r].
Proof.
  induction r as [|a r IH]; [done|]. intros _.
  destruct r as [|b r]; [done|].
  change (zip_star ((fun a => [a]) <$> a :: b :: r))
    with (zip_with cons [a] (zip_star ((fun a => [a]) <$> b :: r))).
  by rewrite IH.
Qed.

Lemma zip_star_zip_with_cons k r m :
  length r = length m → r ≠ [] → (0 < k)%nat →
  Forall (fun row => length row = k) m →
  zip_star (zip_with cons r m) = r :: zip_star m.
Proof.
  intros Hlen Hr Hk Hm. revert r Hlen Hr.
  induction Hm as [|row m Hrow Hm IH]; intros [|a r] Hlen Hr; try done.
  simpl in Hlen. destruct r as [|b r], m as [|row' m]; try done.
  change (zip_star (zip_with cons (a :: b :: r) (row :: row' :: m)))
    with (zip_with cons (a :: row)
            (zip_star (zip_with cons (b :: r) (row' :: m)))).
  rewrite IH; [|simpl in *; lia|done].
  destruct row as [|c row]; [simpl in Hrow; lia|]. done.
Qed.

(** Taking columns twice gives the rows back. *)
Lemma zip_star_involutive hh ww m :
  rect hh ww m → (0 < hh)%nat → (0 < ww)%nat → zip_star (zip_star m) = m.
Proof.
  revert hh. induction m as [|r m IH]; intros hh Hm Hh Hw; [done|].
  apply rect_cons_inv in Hm as [Hr Hm].
  assert (r ≠ []) as Hne by (intros ->; simpl in Hr; lia).
  destruct m as [|r' m].
  - by apply zip_star_singletons.
  - assert (0 < pred hh)%nat as Hp.
    { destruct Hm as [Hl _]. simpl in Hl. lia. }
    destruct (zip_star_rect _ _ _ Hm Hp) as [Hl Hrows].
    change (zip_star (r :: r' :: m))
      with (zip_with cons r (zip_star (r' :: m))).
    rewrite (zip_star_zip_with_cons (pred hh)); [|lia|done|done|done].
    f_equal. by apply (IH (pred hh)).
Qed.

End rotation.

(** ** Pieces *)

Lemma set_matrix_rect hh ww m p :
  rect hh ww m → (0 < hh)%nat →
  Piece.set_matrix m p =
    Done (Piece.mk (Piece.shape p) m hh ww (Piece.x p) (Piece.y p)).
Proof.
  intros [Hl Hrows] Hh. unfold Piece.set_matrix.
  destruct m as [|r m]; [simpl in Hl; lia|].
  apply Forall_cons in Hrows as [Hr _]. simpl in *. by subst.
Qed.

Lemma rotate_wf p :
  Piece.wf p →
  Piece.rotate p =
    Done (Piece.mk (Piece.shape p) (zip_star (reverse (Piece.matrix p)))
            (Piece.w p) (Piece.h p) (Piece.x p) (Piece.y p)).
Proof.
  intros (Hm & Hh & Hw). apply set_matrix_rect; [|done].
  apply zip_star_rect; [|done]. by apply rect_reverse.
Qed.

Lemma rotate_ccw_wf p :
  Piece.wf p →
  Piece.rotate_ccw p =
    Done (Piece.mk (Piece.shape p) (reverse (zip_star (Piece.matrix p)))
            (Piece.w p) (Piece.h p) (Piece.x p) (Piece.y p)).
Proof.
  intros (Hm & Hh & Hw). apply set_matrix_rect; [|done].
  apply rect_reverse. by apply zip_star_rect.
Qed.

Lemma rotate_preserves_wf p p' :
  Piece.wf p → Piece.rotate p = Done p' → Piece.wf p'.
Proof.
  intros Hp. rewrite rotate_wf by done. intros [= <-].
  destruct Hp as (Hm & Hh & Hw). split_and!; simpl; [|done..].
  apply zip_star_rect; [|done]. by apply rect_reverse.
Qed.

Lemma rotate_ccw_preserves_wf p p' :
  Piece.wf p → Piece.rotate_ccw p = Done p' → Piece.wf p'.
Proof.
  intros Hp. rewrite rotate_ccw_wf by done. intros [= <-].
  destruct Hp as (Hm & Hh & Hw). split_and!; simpl; [|done..].
  apply rect_reverse. by apply zip_star_rect.
Qed.

(** C8: on every piece whose matrix is a non-empty [h] by [w] rectangle,
    [rotate] followed by [rotate_ccw], and [rotate_ccw] followed by
    [rotate], both return and give back the piece as it was: matrix, [w],
    [h] (and shape and position) are those of the start. *)
Theorem rotate_rotate_ccw_inverse (p : Piece.t) :
  Piece.wf p →
  (∃ p1, Piece.rotate p = Done p1 ∧ Piece.rotate_ccw p1 = Done p) ∧
  (∃ p2, Piece.rotate_ccw p = Done p2 ∧ Piece.rotate p2 = Done p).
Proof.
  intros Hp. pose proof Hp as (Hm & Hh & Hw). split.
  - eexists. split; [by apply rotate_wf|].
    rewrite rotate_ccw_wf by (by eapply rotate_preserves_wf, rotate_wf).
    simpl. rewrite (zip_star_involutive (Piece.h p) (Piece.w p));
      [|by apply rect_reverse|done..].
    rewrite reverse_involutive. by destruct p.
  - eexists. split; [by apply rotate_ccw_wf|].
    rewrite rotate_wf by (by eapply rotate_ccw_preserves_wf, rotate_ccw_wf).
    simpl. rewrite reverse_involutive.
    rewrite (zip_star_involutive (Piece.h p) (Piece.w p)) by done.
    by destruct p.
Qed.

Lemma piece_L_wf : Piece.wf piece_L.
Proof.
  split_and!; [split; [reflexivity|]|simpl; lia..]. repeat constructor.
Qed.

Lemma rotate_rotate_ccw_inverse_witness :
  Piece.wf piece_L ∧
  (∃ p1, Piece.rotate piece_L = Done p1 ∧ Piece.rotate_ccw p1 = Done piece_L) ∧
  (∃ p2, Piece.rotate_ccw piece_L = Done p2 ∧ Piece.rotate p2 = Done piece_L).
Proof.
  split; [exact piece_L_wf|].
  exact (rotate_rotate_ccw_inverse piece_L piece_L_wf).
Defined.

(** ** valid *)

Lemma for_return_decide {I R} (body : I → result (option R)) items
    (Q : I → Prop) (v0 : R) :
  (∀ i, i ∈ items →
     ∃ o, body i = Done o ∧ (o = None ∨ o = Some v0) ∧ (o = Some v0 ↔ Q i)) →
  ∃ o, for_return body items = Done o ∧ (o = None ∨ o = Some v0) ∧
       (o = Some v0 ↔ ∃ i, i ∈ items ∧ Q i).
Proof.
  induction items as [|i items IH]; intros Hb; simpl.
  - exists None. split_and!; [done|by left|]. split; [done|].
    by intros (i & ?%elem_of_nil & _).
  - destruct (Hb i) as (o & Ho & Hcase & HQ); [by left|]. rewrite Ho. simpl.
    destruct Hcase as [->| ->].
    + destruct IH as (o & Hfor & Hcase & HQs).
      { intros j Hj. apply Hb. by right. }
      exists o. split_and!; [done..|]. rewrite HQs. split.
      * intros (j & Hj & Hqj). exists j. split; [by right|done].
      * intros (j & [->|Hj]%elem_of_cons & Hqj); [|by exists j].
        by apply HQ in Hqj.
    + exists (Some v0). split_and!; [done|by right|]. split; [|done].
      intros _. exists i. split; [by left|by apply HQ].
Qed.

Lemma keys_truthy s : s ∈ TETROMINOES_keys → String.eqb s "" = false.
Proof.
  intros Hs. repeat (apply elem_of_cons in Hs as [->|Hs]; [done|]).
  by apply elem_of_nil in Hs.
Qed.

Lemma truthy_cell_ok c : cell_ok c → truthy_cell c = negb (cell_is_zero c).
Proof. destruct c as [|s]; simpl; [done|]. by intros ->%keys_truthy. Qed.

Lemma board_ok_lookup b bx by_ :
  board_ok b → in_bounds bx by_ →
  ∃ row cl, b !! Z.to_nat by_ = Some row ∧
    length row = Z.to_nat BOARD_WIDTH ∧ Forall cell_ok row ∧
    row !! Z.to_nat bx = Some cl ∧ cell_ok cl.
Proof.
  intros [[Hlen Hrows] Hcells] [Hx Hy].
  destruct (lookup_lt_is_Some_2 b (Z.to_nat by_)) as [row Hrow]; [lia|].
  pose proof (Forall_lookup_1 _ _ _ _ Hrows Hrow) as Hw. simpl in Hw.
  pose proof (Forall_lookup_1 _ _ _ _ Hcells Hrow) as Hc. simpl in Hc.
  destruct (lookup_lt_is_Some_2 row (Z.to_nat bx)) as [cl Hcl]; [lia|].
  exists row, cl. split_and!; try done.
  by eapply Forall_lookup_1.
Qed.

Lemma matrix_lookup (piece : Piece.t) (r c : nat) :
  rect (Piece.h piece) (Piece.w piece) (Piece.matrix piece) →
  (r < Piece.h piece)%nat → (c < Piece.w piece)%nat →
  ∃ row z, Piece.matrix piece !! r = Some row ∧ row !! c = Some z.
Proof.
  intros [Hlen Hrows] Hr Hc.
  destruct (lookup_lt_is_Some_2 (Piece.matrix piece) r) as [row Hrow]; [lia|].
  pose proof (Forall_lookup_1 _ _ _ _ Hrows Hrow) as Hw. simpl in Hw.
  destruct (lookup_lt_is_Some_2 row c) as [z Hz]; [lia|].
  by exists row, z.
Qed.

Lemma occupied_lt (piece : Piece.t) (r c : nat) :
  rect (Piece.h piece) (Piece.w piece) (Piece.matrix piece) →
  Piece.occupied piece r c → (r < Piece.h piece)%nat ∧ (c < Piece.w piece)%nat.
Proof.
  intros [Hlen Hrows] (row & z & Hrow & Hz & _).
  pose proof (Forall_lookup_1 _ _ _ _ Hrows Hrow) as Hw. simpl in Hw.
  apply lookup_lt_Some in Hrow, Hz. lia.
Qed.

Lemma valid_cell_spec b piece x y r c :
  board_ok b →
  rect (Piece.h piece) (Piece.w piece) (Piece.matrix piece) →
  (r < Piece.h piece)%nat → (c < Piece.w piece)%nat →
  ∃ o, Game.valid_cell b piece x y r c = Done o ∧
    (o = None ∨ o = Some false) ∧ (o = Some false ↔ collides b piece x y r c).
Proof.
  intros Hb Hm Hr Hc.
  destruct (matrix_lookup piece r c) as (row & z & Hrow & Hz); [done..|].
  unfold Game.valid_cell. rewrite getitem_nat, Hrow. simpl.
  rewrite getitem_nat, Hz. simpl. unfold truthy_int.
  destruct (Z.eqb_spec z 0) as [->|Hnz]; simpl.
  { exists None. split_and!; [done|by left|]. split; [done|].
    intros [(row' & z' & Hrow' & Hz' & Hne) _]. congruence. }
  assert (Piece.occupied piece r c) as Hocc by (by exists row, z).
  set (bx := x + Z.of_nat c). set (by_ := y + Z.of_nat r).
  destruct (decide (in_bounds bx by_)) as [Hin|Hout].
  - pose proof Hin as [Hx Hy].
    destruct (board_ok_lookup b bx by_) as (brow & cl & Hbrow & _ & _ & Hcl & Hok);
      [done..|].
    unfold BOARD_WIDTH, BOARD_HEIGHT in *.
    replace ((bx <? 0) || (10 <=? bx) || (by_ <? 0) || (20 <=? by_))
      with false by (symmetry; repeat (apply orb_false_intro); lia).
    rewrite getitem_nonneg, Hbrow by lia. simpl.
    rewrite getitem_nonneg, Hcl by lia. simpl.
    assert (cell_at b bx by_ = Some cl) as Hat.
    { unfold cell_at.
      replace ((bx <? 0) || (by_ <? 0)) with false
        by (symmetry; apply orb_false_intro; lia).
      rewrite Hbrow. simpl. done. }
    rewrite truthy_cell_ok by done. destruct cl as [|s]; simpl.
    + exists None. split_and!; [done|by left|]. split; [done|].
      intros [_ [Hno|(cl & Hcl' & Hne)]]; [done|]. fold bx by_ in Hcl'.
      congruence.
    + exists (Some false). split_and!; [done|by right|]. split; [|done].
      intros _. split; [done|]. right. by exists (Tag s).
  - exists (Some false).
    replace ((bx <? 0) || (BOARD_WIDTH <=? bx) || (by_ <? 0) || (BOARD_HEIGHT <=? by_))
      with true.
    { split_and!; [done|by right|]. split; [|done].
      intros _. split; [done|]. by left. }
    symmetry. unfold in_bounds in Hout.
    destruct (Z.ltb_spec bx 0), (Z.leb_spec BOARD_WIDTH bx),
      (Z.ltb_spec by_ 0), (Z.leb_spec BOARD_HEIGHT by_); simpl; try done. lia.
Qed.

Lemma valid_scan b piece x y :
  board_ok b →
  rect (Piece.h piece) (Piece.w piece) (Piece.matrix piece) →
  ∃ o, for_return (fun r =>
         for_return (fun c => Game.valid_cell b piece x y r c)
           (seq 0 (Piece.w piece)))
       (seq 0 (Piece.h piece)) = Done o ∧
    (o = None ∨ o = Some false) ∧
    (o = Some false ↔
     ∃ r, r ∈ seq 0 (Piece.h piece) ∧
       ∃ c, c ∈ seq 0 (Piece.w piece) ∧ collides b piece x y r c).
Proof.
  intros Hb Hm. apply for_return_decide.
  intros r Hr%elem_of_seq. apply for_return_decide.
  intros c Hc%elem_of_seq. apply valid_cell_spec; [done..|lia|lia].
Qed.

(** [valid] returns, and returns [True] only if every occupied cell is on
    the board. *)
Lemma valid_Done b piece nx ny :
  board_ok b →
  rect (Piece.h piece) (Piece.w piece) (Piece.matrix piece) →
  ∃ v, Game.valid b piece nx ny = Done v ∧
    (v = true → ∀ r c, Piece.occupied piece r c →
       in_bounds (default (Piece.x piece) nx + Z.of_nat c)
         (default (Piece.y piece) ny + Z.of_nat r)).
Proof.
  intros Hb Hm. unfold Game.valid.
  destruct (valid_scan b piece (default (Piece.x piece) nx)
              (default (Piece.y piece) ny) Hb Hm) as (o & -> & Hcase & Hiff).
  simpl. exists (default true o). split; [done|].
  intros Hv r c Hocc.
  destruct (decide (in_bounds (default (Piece.x piece) nx + Z.of_nat c)
                      (default (Piece.y piece) ny + Z.of_nat r)))
    as [|Hout]; [done|].
  destruct (occupied_lt piece r c Hm Hocc) as [Hr Hc].
  assert (o = Some false) as ->; [|done]. apply Hiff.
  exists r. split; [apply elem_of_seq; lia|].
  exists c. split; [apply elem_of_seq; lia|]. split; [done|by left].
Qed.

(** C1: on every board of the game's shape and every piece whose matrix
    is [h] by [w], [valid] returns, and it returns [False] exactly when
    some occupied cell [(r, c)] of the matrix, placed at the position
    (the piece's own, or [nx] and [ny] where given), is off the board or on
    a board cell that is not empty; otherwise it returns [True].  [valid]
    has no result but this truth value: the source assigns to neither the
    board nor the piece. *)
Theorem valid_spec (b : list (list cell)) (piece : Piece.t) (nx ny : option Z) :
  board_ok b →
  rect (Piece.h piece) (Piece.w piece) (Piece.matrix piece) →
  ∃ v, Game.valid b piece nx ny = Done v ∧
    (v = false ↔
     ∃ r c, collides b piece (default (Piece.x piece) nx)
              (default (Piece.y piece) ny) r c).
Proof.
  intros Hb Hm. unfold Game.valid.
  set (x := default (Piece.x piece) nx). set (y := default (Piece.y piece) ny).
  destruct (valid_scan b piece x y Hb Hm) as (o & Ho & Hcase & Hiff).
  rewrite Ho. simpl. exists (default true o). split; [done|].
  transitivity (o = Some false).
  { by destruct Hcase as [->| ->]. }
  rewrite Hiff. split.
  - intros (r & _ & c & _ & Hcol). by exists r, c.
  - intros (r & c & Hcol). pose proof Hcol as [Hocc _].
    apply occupied_lt in Hocc as [Hr Hc]; [|done].
    exists r. split; [apply elem_of_seq; lia|].
    exists c. split; [apply elem_of_seq; lia|done].
Qed.

Lemma board_ok_empty : board_ok empty_board.
Proof.
  split; [split; [reflexivity|]|]; repeat constructor.
Qed.

Lemma board_ok_gap : board_ok board_gap.
Proof.
  split; [split; [reflexivity|]|]; repeat constructor.
Qed.

Lemma piece_Z_wf : Piece.wf piece_Z.
Proof.
  split_and!; [split; [reflexivity|]|simpl; lia..]. repeat constructor.
Qed.

Lemma piece_T_wf : Piece.wf piece_T.
Proof.
  split_and!; [split; [reflexivity|]|simpl; lia..]. repeat constructor.
Qed.

Lemma valid_spec_witness :
  board_ok board_gap ∧
  rect (Piece.h piece_T) (Piece.w piece_T) (Piece.matrix piece_T) ∧
  ∃ v, Game.valid board_gap piece_T None (Some 18) = Done v ∧
    (v = false ↔ ∃ r c, collides board_gap piece_T 3 18 r c).
Proof.
  split; [exact board_ok_gap|]. split; [exact (proj1 piece_T_wf)|].
  exact (valid_spec board_gap piece_T None (Some 18) board_ok_gap
           (proj1 piece_T_wf)).
Defined.

(** ** clear_lines *)

Lemma existsb_zero_not_full row :
  existsb cell_is_zero row = negb (full_row row).
Proof.
  induction row as [|c row IH]; [done|]. unfold full_row in *. simpl.
  rewrite IH. by destruct (cell_is_zero c).
Qed.

Lemma kept_rows (b : list (list cell)) :
  List.filter (existsb cell_is_zero) b =
  List.filter (fun row => negb (full_row row)) b.
Proof. apply List.filter_ext. intros row. apply existsb_zero_not_full. Qed.

Lemma iter_cons_replicate {A} (n : nat) (a : A) (l : list A) :
  Nat.iter n (cons a) l = replicate n a ++ l.
Proof. induction n as [|n IH]; simpl; [done|]. by rewrite IH. Qed.

Lemma cleared_count (b : list (list cell)) :
  length b = Z.to_nat BOARD_HEIGHT →
  BOARD_HEIGHT - Z.of_nat (length (List.filter (existsb cell_is_zero) b)) =
  Z.of_nat (length (List.filter full_row b)).
Proof.
  intros Hlen. rewrite kept_rows.
  pose proof (List.filter_length full_row b) as Hsum.
  unfold BOARD_HEIGHT in *. lia.
Qed.

(** Conversion of a small [int] to a [float] does not overflow: an integer
    below [2 ^ 53] in absolute value has at most 53 binary digits, so its
    mantissa is kept as it is. *)
Lemma digits2_pos_iter_xO (p k : positive) :
  digits2_pos (Pos.iter xO p k) = (digits2_pos p + k)%positive.
Proof.
  induction k as [|k IH] using Pos.peano_ind.
  - simpl. lia.
  - rewrite Pos.iter_succ. simpl. rewrite IH. lia.
Qed.

Lemma digits2_pos_lower (p : positive) :
  2 ^ (Z.pos (digits2_pos p) - 1) ≤ Z.pos p.
Proof.
  induction p as [p IH|p IH|]; simpl; [| |done].
  all: rewrite Pos2Z.inj_succ.
  all: replace (Z.succ (Z.pos (digits2_pos p)) - 1) with
         (Z.succ (Z.pos (digits2_pos p) - 1)) by lia.
  all: rewrite Z.pow_succ_r by lia; lia.
Qed.

Lemma digits2_pos_small (p : positive) :
  Z.pos p < 2 ^ 53 → Z.pos (digits2_pos p) ≤ 53.
Proof.
  intros Hp. pose proof (digits2_pos_lower p) as Hlow.
  destruct (Z.le_gt_cases (Z.pos (digits2_pos p)) 53) as [?|Hgt]; [done|].
  assert (2 ^ 53 ≤ 2 ^ (Z.pos (digits2_pos p) - 1)) as Hpow
    by (apply Z.pow_le_mono_r; lia).
  lia.
Qed.

Lemma fexp_53 (e : Z) : -1074 ≤ e → fexp prec emax (53 + e) - e = 0.
Proof. unfold fexp, emin, prec, emax. lia. Qed.

Lemma binary_round_aux_exact (sx : bool) (m : positive) (e : Z) :
  Z.pos (digits2_pos m) = 53 → -1074 ≤ e ≤ 971 →
  binary_round_aux prec emax sx (Z.pos m) e loc_Exact = S754_finite sx m e.
Proof.
  intros Hd He. unfold binary_round_aux, shr_fexp. simpl Zdigits2.
  rewrite Hd, fexp_53 by lia. simpl. rewrite Hd, fexp_53 by lia. simpl.
  destruct (Z.leb_spec e (emax - prec)) as [_|Hgt]; [done|].
  unfold emax, prec in Hgt. lia.
Qed.

Lemma binary_round_small (sx : bool) (p : positive) :
  Z.pos p < 2 ^ 53 →
  ∃ m e, binary_round prec emax sx p 0 = S754_finite sx m e.
Proof.
  intros Hp. apply digits2_pos_small in Hp.
  unfold binary_round, shl_align.
  destruct (fexp prec emax (Z.pos (digits2_pos p) + 0) - 0) as [|k|k] eqn:Hk.
  - exists p, 0. apply binary_round_aux_exact; [|lia].
    unfold fexp, emin, prec, emax in Hk. lia.
  - unfold fexp, emin, prec, emax in Hk. lia.
  - eexists _, _. apply binary_round_aux_exact.
    + rewrite digits2_pos_iter_xO.
      unfold fexp, emin, prec, emax in Hk. lia.
    + unfold fexp, emin, prec, emax. lia.
Qed.

Lemma binary_normalize_small (n : Z) :
  - 2 ^ 53 < n < 2 ^ 53 →
  ∀ s, binary_normalize prec emax n 0 false ≠ S754_infinity s.
Proof.
  intros Hn s. destruct n as [|p|p]; simpl; [discriminate| |].
  - destruct (binary_round_small false p) as (m & e & ->); [lia|discriminate].
  - destruct (binary_round_small true p) as (m & e & ->); [lia|discriminate].
Qed.

(** [delay_of_level] in terms of the binary64 operations alone. *)
Lemma delay_of_level_finite (level : Z) :
  (∀ s, binary_normalize prec emax (level - 1) 0 false ≠ S754_infinity s) →
  Game.delay_of_level level =
    Done (let v := (1.0 -
                    SF2Prim (binary_normalize prec emax (level - 1) 0 false)
                    * 0.05)%float in
          if (0.05 <? v)%float then v else 0.05%float).
Proof.
  intros Hfin. unfold Game.delay_of_level, int_to_float.
  destruct (binary_normalize prec emax (level - 1) 0 false) as [s|s| |s m e]
    eqn:Hsf; try reflexivity.
  by destruct (Hfin s).
Qed.

Lemma delay_of_level_overflow (level : Z) (s : bool) :
  binary_normalize prec emax (level - 1) 0 false = S754_infinity s →
  Game.delay_of_level level = Raised OverflowError.
Proof.
  intros Hsf. unfold Game.delay_of_level, int_to_float. by rewrite Hsf.
Qed.

(** [clear_lines], with the rows it keeps and the count of the rows it
    drops written out. *)
Lemma clear_lines_eq (g : Game.t) :
  length (Game.board g) = Z.to_nat BOARD_HEIGHT →
  let cleared := Z.of_nat (length (List.filter full_row (Game.board g))) in
  let kept := List.filter (fun row => negb (full_row row)) (Game.board g) in
  (cleared = 0 → Game.clear_lines g = Done g ∧ kept = Game.board g) ∧
  (0 < cleared →
   Game.clear_lines g =
     d ← Game.delay_of_level (1 + (Game.lines g + cleared) / 10);
     Done (Game.mk (replicate (Z.to_nat cleared) empty_row ++ kept)
             (Game.score g + cleared * 100 * Game.level g)
             (Game.lines g + cleared)
             (1 + (Game.lines g + cleared) / 10)
             d (Game.bag g) (Game.current g) (Game.next g)
             (Game.game_over g) (Game.paused g) (Game.last_drop g))).
Proof.
  intros Hlen cleared kept. unfold Game.clear_lines.
  rewrite (cleared_count _ Hlen). fold cleared. split.
  - intros Hc. rewrite Hc. simpl. split; [done|].
    pose proof (List.filter_length full_row (Game.board g)) as Hsum.
    apply List.forallb_filter_id.
    apply List.filter_length_forallb. unfold cleared in Hc. lia.
  - intros Hc. destruct (Z.eqb_spec cleared 0) as [?|_]; [lia|].
    simpl. rewrite iter_cons_replicate, kept_rows. done.
Qed.

(** C3: on a board of [BOARD_HEIGHT] rows, with [cleared] the number of
    rows that have no empty cell: when [cleared] is 0, [clear_lines]
    changes nothing; otherwise the new board is [cleared] empty rows
    followed by the rows that have an empty cell, in their order, [lines]
    grows by [cleared], [score] by [cleared * 100 * level] at the level
    before the call, the new [level] is [1 + lines // 10] of the new
    [lines], and the new [drop_delay] is
    [max(0.05, 1.0 - (level - 1) * 0.05)] of the new [level], computed in
    binary64 on [level - 1] rounded to a float.  That is the result for
    every new level below [2 ^ 53]; only when [level - 1] rounds to
    infinity does the call raise [OverflowError] instead. *)
Theorem clear_lines_spec (g : Game.t) :
  length (Game.board g) = Z.to_nat BOARD_HEIGHT →
  let cleared := Z.of_nat (length (List.filter full_row (Game.board g))) in
  let kept := List.filter (fun row => negb (full_row row)) (Game.board g) in
  let lines' := Game.lines g + cleared in
  let level' := 1 + lines' / 10 in
  let sf := binary_normalize prec emax (level' - 1) 0 false in
  let v := (1.0 - SF2Prim sf * 0.05)%float in
  let delay' := if (0.05 <? v)%float then v else 0.05%float in
  let g' := Game.mk (replicate (Z.to_nat cleared) empty_row ++ kept)
              (Game.score g + cleared * 100 * Game.level g)
              lines' level' delay' (Game.bag g) (Game.current g)
              (Game.next g) (Game.game_over g) (Game.paused g)
              (Game.last_drop g) in
  (cleared = 0 → Game.clear_lines g = Done g ∧ kept = Game.board g) ∧
  (0 < cleared →
   (- 2 ^ 53 < level' - 1 < 2 ^ 53 → Game.clear_lines g = Done g') ∧
   ((∀ s, sf ≠ S754_infinity s) → Game.clear_lines g = Done g') ∧
   ((∃ s, sf = S754_infinity s) →
    Game.clear_lines g = Raised OverflowError)).
Proof.
  intros Hlen cleared kept lines' level' sf v delay' g'.
  destruct (clear_lines_eq g Hlen) as [Hnone Hsome].
  split; [exact Hnone|]. intros Hc. specialize (Hsome Hc).
  fold cleared kept lines' level' in Hsome.
  assert ((∀ s, sf ≠ S754_infinity s) → Game.clear_lines g = Done g')
    as Hfinite.
  { intros Hfin. rewrite Hsome.
    by rewrite (delay_of_level_finite level' Hfin). }
  split_and!.
  - intros Hrange. apply Hfinite. by apply binary_normalize_small.
  - exact Hfinite.
  - intros [s Hs]. rewrite Hsome.
    by rewrite (delay_of_level_overflow level' s Hs).
Qed.

Lemma clear_lines_spec_witness :
  length (Game.board game_line9) = Z.to_nat BOARD_HEIGHT ∧
  0 < Z.of_nat (length (List.filter full_row (Game.board game_line9))) ∧
  - 2 ^ 53 < 1 + (Game.lines game_line9 + 1) / 10 - 1 < 2 ^ 53 ∧
  Game.clear_lines game_line9 =
    Done (Game.mk empty_board 1000 10 2 0.95%float
            ["I"; "J"; "L"; "O"; "S"]%string piece_Z piece_T false false
            0%float).
Proof.
  assert (length (Game.board game_line9) = Z.to_nat BOARD_HEIGHT) as Hlen
    by reflexivity.
  assert (0 < Z.of_nat (length (List.filter full_row (Game.board game_line9))))
    as Hc by (vm_compute; reflexivity).
  assert (- 2 ^ 53 < 1 + (Game.lines game_line9 + 1) / 10 - 1 < 2 ^ 53)
    as Hrange by (vm_compute; split; reflexivity).
  split_and!; [done..|].
  exact (proj1 (proj2 (clear_lines_spec game_line9 Hlen) Hc) Hrange).
Defined.

(** ** rotate_current *)

(** A loop that returns at the first item passing a test. *)
Lemma for_return_first {I R} (test : I → result bool) (mk : I → R) items :
  (∀ i, i ∈ items → ∃ v, test i = Done v) →
  (∃ pre i post, items = pre ++ i :: post ∧
     (∀ j, j ∈ pre → test j = Done false) ∧ test i = Done true ∧
     for_return (fun i => v ← test i;
                   if (v : bool) then Done (Some (mk i)) else Done None)
       items = Done (Some (mk i))) ∨
  ((∀ j, j ∈ items → test j = Done false) ∧
   for_return (fun i => v ← test i;
                 if (v : bool) then Done (Some (mk i)) else Done None)
     items = Done None).
Proof.
  induction items as [|i items IH]; intros Ht.
  - right. split; [|done]. by intros j ?%elem_of_nil.
  - destruct (Ht i) as [v Hv]; [by left|]. destruct v.
    + left. exists [], i, items. split_and!; [done| |done|].
      * by intros j ?%elem_of_nil.
      * simpl. by rewrite Hv.
    + destruct IH as [(pre & k & post & -> & Hpre & Hk & Hfor)|[Hall Hfor]].
      { intros j Hj. apply Ht. by right. }
      * left. exists (i :: pre), k, post. split_and!; [done| |done|].
        -- intros j [->|?]%elem_of_cons; auto.
        -- simpl. rewrite Hv. simpl. exact Hfor.
      * right. split.
        -- intros j [->|?]%elem_of_cons; auto.
        -- simpl. rewrite Hv. simpl. exact Hfor.
Qed.

Lemma rotate_current_unfold (ccw : bool) (g : Game.t) (p' : Piece.t) :
  (if ccw then Piece.rotate_ccw (Game.current g)
   else Piece.rotate (Game.current g)) = Done p' →
  Game.rotate_current ccw g =
    o ← for_return (fun dx =>
           v ← Game.valid (Game.board g) p' (Some (Piece.x p' + dx)) None;
           if (v : bool) then
             Done (Some (Game.with_current
                           (Piece.with_x (Piece.x p' + dx) p') g))
           else Done None) Game.KICKS;
    match (o : option Game.t) with
    | Some g' => Done g'
    | None =>
        Done (Game.with_current
                (Piece.with_h (Piece.h (Game.current g))
                   (Piece.with_w (Piece.w (Game.current g))
                      (Piece.with_matrix (Piece.matrix (Game.current g)) p')))
                g)
    end.
Proof. intros Hrot. unfold Game.rotate_current. by rewrite Hrot. Qed.

(** C4: in a game whose board has the game's shape and whose current
    piece has a non-empty [h] by [w] matrix, [rotate_current] first rotates
    the piece ([p'], with [h] and [w] swapped and the position kept), then
    looks for the first [dx] of 0, -1, 1, -2, 2 at which [p'] is valid at
    [x + dx]: every offset before it fails, and the result is the game
    with [p'] moved to [x + dx]; when every offset fails, the result is the
    game as it was.  The [y] of the current piece is the same after the
    call. *)
Theorem rotate_current_spec (ccw : bool) (g : Game.t) :
  board_ok (Game.board g) →
  Piece.wf (Game.current g) →
  let cur := Game.current g in
  ∃ p', (if ccw then Piece.rotate_ccw cur else Piece.rotate cur) = Done p' ∧
    Piece.h p' = Piece.w cur ∧ Piece.w p' = Piece.h cur ∧
    Piece.x p' = Piece.x cur ∧ Piece.y p' = Piece.y cur ∧
    ((∃ pre dx post, [0; -1; 1; -2; 2] = pre ++ dx :: post ∧
        (∀ d, d ∈ pre →
           Game.valid (Game.board g) p' (Some (Piece.x cur + d)) None
             = Done false) ∧
        Game.valid (Game.board g) p' (Some (Piece.x cur + dx)) None
          = Done true ∧
        Game.rotate_current ccw g =
          Done (Game.with_current (Piece.with_x (Piece.x cur + dx) p') g))
     ∨
     ((∀ d, d ∈ [0; -1; 1; -2; 2] →
         Game.valid (Game.board g) p' (Some (Piece.x cur + d)) None
           = Done false) ∧
      Game.rotate_current ccw g = Done g)) ∧
    (∀ g', Game.rotate_current ccw g = Done g' →
       Piece.y (Game.current g') = Piece.y cur).
Proof.
  intros Hb Hp cur.
  set (p' := Piece.mk (Piece.shape cur)
               (if ccw then reverse (zip_star (Piece.matrix cur))
                else zip_star (reverse (Piece.matrix cur)))
               (Piece.w cur) (Piece.h cur) (Piece.x cur) (Piece.y cur)).
  assert ((if ccw then Piece.rotate_ccw cur else Piece.rotate cur) = Done p')
    as Hrot.
  { destruct ccw; [by apply rotate_ccw_wf|by apply rotate_wf]. }
  assert (Piece.wf p') as Hp'.
  { destruct ccw;
      [by eapply rotate_ccw_preserves_wf|by eapply rotate_preserves_wf]. }
  assert ((∃ pre dx post, [0; -1; 1; -2; 2] = pre ++ dx :: post ∧
        (∀ d, d ∈ pre →
           Game.valid (Game.board g) p' (Some (Piece.x cur + d)) None
             = Done false) ∧
        Game.valid (Game.board g) p' (Some (Piece.x cur + dx)) None
          = Done true ∧
        Game.rotate_current ccw g =
          Done (Game.with_current (Piece.with_x (Piece.x cur + dx) p') g))
     ∨
     ((∀ d, d ∈ [0; -1; 1; -2; 2] →
         Game.valid (Game.board g) p' (Some (Piece.x cur + d)) None
           = Done false) ∧
      Game.rotate_current ccw g = Done g)) as Hcases.
  { rewrite (rotate_current_unfold ccw g p' Hrot).
    destruct (for_return_first
      (fun dx => Game.valid (Game.board g) p' (Some (Piece.x p' + dx)) None)
      (fun dx => Game.with_current (Piece.with_x (Piece.x p' + dx) p') g)
      Game.KICKS) as [(pre & dx & post & Hk & Hpre & Hdx & Hfor)|[Hall Hfor]].
    { intros dx _. destruct (valid_Done (Game.board g) p'
        (Some (Piece.x p' + dx)) None Hb (proj1 Hp')) as (v & Hv & _).
      by exists v. }
    - left. exists pre, dx, post. split_and!; [done..|]. by rewrite Hfor.
    - right. split; [done|]. rewrite Hfor.
      subst p' cur. destruct g as [? ? ? ? ? ? [] ? ? ? ?]. done. }
  exists p'. split_and!; [done..|].
  intros g' Hg'.
  destruct Hcases as [(pre & dx & post & _ & _ & _ & Hrc)|[_ Hrc]];
    rewrite Hrc in Hg'; by injection Hg' as <-.
Qed.

Lemma rotate_current_spec_witness :
  board_ok (Game.board game0) ∧ Piece.wf (Game.current game0) ∧
  ∃ p', Piece.rotate piece_Z = Done p' ∧
    Game.rotate_current false game0 = Done (Game.with_current p' game0).
Proof.
  split; [exact board_ok_empty|]. split; [exact piece_Z_wf|].
  destruct (rotate_current_spec false game0 board_ok_empty piece_Z_wf)
    as (p' & Hrot & _ & _ & _ & _ & _ & _).
  exists p'. split; [exact Hrot|].
  injection Hrot as <-. reflexivity.
Defined.

(** ** next_piece and the bag *)

Lemma assoc_Some {V} (k : string) (d : list (string * V)) (v : V) :
  assoc k d = Some v → (k, v) ∈ d.
Proof.
  induction d as [|[k' v'] d IH]; simpl; [done|].
  destruct (String.eqb_spec k k') as [->|_].
  - intros [= ->]. by left.
  - intros H. right. by apply IH.
Qed.

Lemma new_Done (s : string) (p : Piece.t) :
  Piece.new s = Done p → Piece.shape p = s ∧ fresh_ok p.
Proof.
  unfold Piece.new, TETROMINOES_get. intros H.
  destruct (assoc s TETROMINOES) as [m|] eqn:Hm; [|done].
  apply assoc_Some in Hm. simpl in H.
  repeat (apply elem_of_cons in Hm as [[= -> ->]|Hm];
    [injection H as <-; split; [done|]; split_and!;
       [split_and!; [split; [done|repeat constructor]|simpl; lia..]
       |unfold TETROMINOES_keys; simpl; repeat constructor
       |first [by exists 0%nat, 0%nat; eexists _, _
              |by exists 0%nat, 1%nat; eexists _, _
              |by exists 0%nat, 2%nat; eexists _, _
              |by exists 1%nat, 0%nat; eexists _, _]
       |done]|]).
  by apply elem_of_nil in Hm.
Qed.

Lemma new_key (s : string) :
  s ∈ TETROMINOES_keys → ∃ p, Piece.new s = Done p.
Proof.
  intros Hs. repeat (apply elem_of_cons in Hs as [->|Hs]; [by eexists|]).
  by apply elem_of_nil in Hs.
Qed.

Lemma pop_snoc {A} (l : list A) (a : A) : pop (l ++ [a]) = Done (a, l).
Proof. unfold pop. rewrite reverse_snoc. by rewrite reverse_involutive. Qed.

(** A call of [next_piece] on a bag that is not empty pops its last name
    and leaves the shuffle alone. *)
Lemma next_piece_snoc shuffle (bag : list string) (s : string) :
  s ∈ TETROMINOES_keys →
  ∃ p, Game.next_piece shuffle (bag ++ [s]) = Done (p, bag) ∧
       Piece.shape p = s ∧ fresh_ok p.
Proof.
  intros Hs. destruct (new_key s Hs) as [p Hp]. exists p.
  split; [|by apply new_Done]. unfold Game.next_piece.
  destruct (bag ++ [s]) as [|s0 b0] eqn:Hb.
  { by destruct bag. }
  rewrite <- Hb, pop_snoc. simpl. by rewrite Hp.
Qed.

Lemma next_piece_nil shuffle :
  Game.next_piece shuffle [] =
  Game.next_piece shuffle (shuffle TETROMINOES_keys).
Proof.
  unfold Game.next_piece.
  by destruct (shuffle TETROMINOES_keys).
Qed.

Lemma shuffle_keys shuffle :
  is_shuffle shuffle →
  ∃ b s, shuffle TETROMINOES_keys = b ++ [s] ∧
    Forall (fun k => k ∈ TETROMINOES_keys) (b ++ [s]).
Proof.
  intros Hsh. pose proof (Hsh TETROMINOES_keys) as Hperm.
  destruct (shuffle TETROMINOES_keys) as [|s0 b0] using rev_ind.
  { by apply Permutation_nil_l in Hperm. }
  exists b0, s0. split; [done|].
  apply Forall_forall. intros k Hk. by rewrite <- Hperm.
Qed.

Lemma next_piece_spec shuffle (bag : list string) :
  is_shuffle shuffle →
  Forall (fun k => k ∈ TETROMINOES_keys) bag →
  ∃ p bag', Game.next_piece shuffle bag = Done (p, bag') ∧ fresh_ok p ∧
    Forall (fun k => k ∈ TETROMINOES_keys) bag'.
Proof.
  intros Hsh Hbag.
  assert (∀ b s, Forall (fun k => k ∈ TETROMINOES_keys) (b ++ [s]) →
    ∃ p bag', Game.next_piece shuffle (b ++ [s]) = Done (p, bag') ∧
      fresh_ok p ∧ Forall (fun k => k ∈ TETROMINOES_keys) bag') as Hsnoc.
  { intros b s [Hb Hs]%Forall_app. rewrite Forall_singleton in Hs.
    destruct (next_piece_snoc shuffle b s Hs) as (p & Hp & _ & Hok).
    by exists p, b. }
  destruct bag as [|s0 b0] using rev_ind.
  - rewrite next_piece_nil.
    destruct (shuffle_keys shuffle Hsh) as (b & s & -> & Hall).
    by apply Hsnoc.
  - by apply Hsnoc.
Qed.

Lemma draw_cons shuffle shuffles (bag bag1 : list string) (p : Piece.t) :
  Game.next_piece shuffle bag = Done (p, bag1) →
  draw (shuffle :: shuffles) bag =
    '(ps, bag2) ← draw shuffles bag1; Done (p :: ps, bag2).
Proof. intros H. simpl. by rewrite H. Qed.

(** Drawing as many pieces as the bag holds empties it, last name first. *)
Lemma draw_bag shuffles (bag : list string) :
  length shuffles = length bag →
  Forall (fun k => k ∈ TETROMINOES_keys) bag →
  ∃ ps, draw shuffles bag = Done (ps, []) ∧
        Piece.shape <$> ps = reverse bag.
Proof.
  revert shuffles. induction bag as [|s b IH] using rev_ind;
    intros [|shuffle shuffles] Hlen Hall; simpl in Hlen.
  - by exists [].
  - done.
  - rewrite length_app in Hlen. simpl in Hlen. lia.
  - rewrite length_app in Hlen. simpl in Hlen.
    apply Forall_app in Hall as [Hb Hs]. rewrite Forall_singleton in Hs.
    destruct (next_piece_snoc shuffle b s Hs) as (p & Hp & Hshape & _).
    destruct (IH shuffles) as (ps & Hps & Hshapes); [lia|done|].
    exists (p :: ps). rewrite (draw_cons _ _ _ _ _ Hp), Hps.
    split; [done|]. by rewrite fmap_cons, reverse_snoc, Hshape, Hshapes.
Qed.

Lemma keys_once (s : string) :
  s ∈ TETROMINOES_keys →
  length (filter (fun k => k = s) TETROMINOES_keys) = 1%nat.
Proof.
  intros Hs. repeat (apply elem_of_cons in Hs as [->|Hs]; [done|]).
  by apply elem_of_nil in Hs.
Qed.

(** C7: seven consecutive calls of [next_piece] that start with the bag
    empty, whatever permutations the shuffles produce, all return; the
    shapes of the seven pieces are a permutation of the seven catalog
    names, so each name is the shape of exactly one of them; and the bag
    is empty again afterwards. *)
Theorem bag_seven_draws (shuffles : list (list string → list string)) :
  length shuffles = 7%nat →
  Forall is_shuffle shuffles →
  ∃ ps, draw shuffles [] = Done (ps, []) ∧
    Piece.shape <$> ps ≡ₚ TETROMINOES_keys ∧
    ∀ s, s ∈ TETROMINOES_keys →
      length (filter (fun k => k = s) (Piece.shape <$> ps)) = 1%nat.
Proof.
  intros Hlen Hsh. destruct shuffles as [|shuffle shuffles]; [done|].
  apply Forall_cons in Hsh as [Hsh _].
  pose proof (Hsh TETROMINOES_keys) as Hperm.
  destruct (draw_bag (shuffle :: shuffles) (shuffle TETROMINOES_keys))
    as (ps & Hps & Hshapes).
  { by rewrite Hperm. }
  { apply Forall_forall. intros k Hk. by rewrite <- Hperm. }
  exists ps.
  assert (Piece.shape <$> ps ≡ₚ TETROMINOES_keys) as Hp.
  { by rewrite Hshapes, reverse_Permutation. }
  split_and!; [|done|].
  - simpl in Hps |- *. by rewrite next_piece_nil.
  - intros s Hs. rewrite Hp. by apply keys_once.
Qed.

Lemma bag_seven_draws_witness :
  length [reverse; id; id; id; id; id; id (A:=list string)] = 7%nat ∧
  Forall is_shuffle [reverse; id; id; id; id; id; id] ∧
  ∃ ps, draw [reverse; id; id; id; id; id; id] [] = Done (ps, []) ∧
    Piece.shape <$> ps ≡ₚ TETROMINOES_keys.
Proof.
  assert (Forall is_shuffle [reverse; id; id; id; id; id; id]) as Hsh.
  { repeat (apply Forall_cons_2;
      [intros l; first [apply reverse_Permutation|reflexivity]|]).
    apply Forall_nil_2. }
  split; [reflexivity|]. split; [exact Hsh|].
  destruct (bag_seven_draws [reverse; id; id; id; id; id; id] eq_refl Hsh)
    as (ps & Hps & Hperm & _).
  by exists ps.
Defined.

(** ** lock_piece *)

Lemma occupiedb_spec piece r c :
  occupiedb piece r c = true ↔ Piece.occupied piece r c.
Proof.
  unfold occupiedb, Piece.occupied, truthy_int. split.
  - destruct (Piece.matrix piece !! r) as [row|]; [|done].
    destruct (row !! c) as [z|] eqn:Hc; [|done].
    intros Hz. exists row, z. split; [done|]. split; [done|].
    intros ->. done.
  - intros (row & z & -> & -> & Hz). by destruct (Z.eqb_spec z 0).
Qed.

Lemma coversb_spec piece bx by_ :
  rect (Piece.h piece) (Piece.w piece) (Piece.matrix piece) →
  coversb piece bx by_ = true ↔ covers piece bx by_.
Proof.
  intros Hm. unfold coversb, covers. rewrite existsb_exists. split.
  - intros (r & _ & (c & _ & Hhit)%existsb_exists). unfold hitb in Hhit.
    apply andb_prop in Hhit as [[Hocc Hx]%andb_prop Hy].
    exists r, c. split_and!; [by apply occupiedb_spec|lia..].
  - intros (r & c & Hocc & -> & ->).
    destruct (occupied_lt piece r c Hm Hocc) as [Hr Hc].
    exists r. split; [apply in_seq; lia|]. apply existsb_exists.
    exists c. split; [apply in_seq; lia|]. unfold hitb.
    apply occupiedb_spec in Hocc. rewrite Hocc. simpl.
    apply andb_true_intro. split; lia.
Qed.

Lemma cell_at_paint (b : list (list cell)) (brow : list cell) (tag : cell)
    (bx by_ bx' by' : Z) :
  0 ≤ bx → 0 ≤ by_ → 0 ≤ bx' → 0 ≤ by' →
  b !! Z.to_nat by_ = Some brow →
  (Z.to_nat bx < length brow)%nat →
  cell_at (<[Z.to_nat by_ := <[Z.to_nat bx := tag]> brow]> b) bx' by' =
    if (bx' =? bx) && (by' =? by_) then Some tag else cell_at b bx' by'.
Proof.
  intros Hx Hy Hx' Hy' Hrow Hlt. unfold cell_at.
  replace ((bx' <? 0) || (by' <? 0)) with false
    by (symmetry; apply orb_false_intro; lia).
  pose proof (lookup_lt_Some _ _ _ Hrow) as Hlen.
  destruct (Z.eqb_spec by' by_) as [->|Hney].
  - rewrite list_lookup_insert_eq by done. rewrite Hrow. simpl.
    destruct (Z.eqb_spec bx' bx) as [->|Hnex]; simpl.
    + by rewrite list_lookup_insert_eq.
    + rewrite list_lookup_insert_ne by lia. done.
  - rewrite list_lookup_insert_ne by lia.
    by rewrite andb_false_r.
Qed.

Lemma board_ok_paint (b : list (list cell)) (brow : list cell) (s : string)
    (i j : nat) :
  board_ok b → s ∈ TETROMINOES_keys → b !! i = Some brow →
  board_ok (<[i := <[j := Tag s]> brow]> b).
Proof.
  intros [[Hlen Hrows] Hcells] Hs Hrow. split; [split|].
  - by rewrite length_insert.
  - apply Forall_insert; [done|]. rewrite length_insert.
    by apply (Forall_lookup_1 _ _ _ _ Hrows Hrow).
  - apply Forall_insert; [done|]. apply Forall_insert; [|done].
    by apply (Forall_lookup_1 _ _ _ _ Hcells Hrow).
Qed.

Lemma lock_cell_spec piece r c b :
  board_ok b →
  rect (Piece.h piece) (Piece.w piece) (Piece.matrix piece) →
  Piece.shape piece ∈ TETROMINOES_keys →
  (r < Piece.h piece)%nat → (c < Piece.w piece)%nat →
  ∃ b', Game.lock_cell piece r c b = Done b' ∧ board_ok b' ∧
    ∀ bx by_, in_bounds bx by_ →
      cell_at b' bx by_ =
        if hitb piece r c bx by_ then Some (Tag (Piece.shape piece))
        else cell_at b bx by_.
Proof.
  intros Hb Hm Hs Hr Hc.
  destruct (matrix_lookup piece r c) as (row & z & Hrow & Hz); [done..|].
  unfold Game.lock_cell, hitb, occupiedb. rewrite getitem_nat, Hrow. simpl.
  rewrite getitem_nat, Hz. simpl.
  destruct (truthy_int z); simpl; [|by exists b].
  set (bx := Piece.x piece + Z.of_nat c).
  set (by_ := Piece.y piece + Z.of_nat r).
  destruct (decide (in_bounds bx by_)) as [Hin|Hout].
  - pose proof Hin as [Hx Hy].
    destruct (board_ok_lookup b bx by_) as (brow & cl & Hbrow & Hw & _ & _);
      [done..|].
    unfold BOARD_WIDTH, BOARD_HEIGHT in *.
    replace ((0 <=? by_) && (by_ <? 20) && (0 <=? bx) && (bx <? 10))
      with true by (symmetry; repeat (apply andb_true_intro; split); lia).
    rewrite getitem_nonneg, Hbrow by lia. simpl.
    rewrite setitem_in_range by lia. simpl.
    rewrite setitem_in_range
      by (apply lookup_lt_Some in Hbrow; lia).
    eexists. split_and!; [done|by apply board_ok_paint|].
    intros bx' by' [Hx' Hy']. apply cell_at_paint; [lia..|done|lia].
  - exists b.
    replace ((0 <=? by_) && (by_ <? BOARD_HEIGHT) && (0 <=? bx)
             && (bx <? BOARD_WIDTH)) with false.
    { split_and!; [done..|]. intros bx' by' Hin.
      destruct (Z.eqb_spec bx' bx) as [->|?]; [|done].
      destruct (Z.eqb_spec by' by_) as [->|?]; done. }
    symmetry. unfold in_bounds in Hout.
    destruct (Z.leb_spec 0 by_), (Z.ltb_spec by_ BOARD_HEIGHT),
      (Z.leb_spec 0 bx), (Z.ltb_spec bx BOARD_WIDTH); simpl; try done. lia.
Qed.

(** A loop whose every turn writes [tag] on the cells its item hits
    leaves [tag] on the cells some item hits, and the other cells alone. *)
Lemma for_each_paint {I} (body : I → list (list cell) → result (list (list cell)))
    (hit : I → Z → Z → bool) (tag : cell) items b :
  board_ok b →
  (∀ i b1, i ∈ items → board_ok b1 →
     ∃ b2, body i b1 = Done b2 ∧ board_ok b2 ∧
       ∀ bx by_, in_bounds bx by_ →
         cell_at b2 bx by_ =
           if hit i bx by_ then Some tag else cell_at b1 bx by_) →
  ∃ b', for_each body items b = Done b' ∧ board_ok b' ∧
    ∀ bx by_, in_bounds bx by_ →
      cell_at b' bx by_ =
        if existsb (fun i => hit i bx by_) items then Some tag
        else cell_at b bx by_.
Proof.
  revert b. induction items as [|i items IH]; intros b Hb Hbody; simpl.
  - by exists b.
  - destruct (Hbody i b) as (b2 & Hi & Hb2 & Hcells); [by left|done|].
    rewrite Hi. simpl.
    destruct (IH b2) as (b' & Hfor & Hb' & Hcells'); [done| |].
    { intros j b1 Hj. apply Hbody. by right. }
    exists b'. split_and!; [done..|]. intros bx by_ Hin.
    rewrite Hcells', Hcells by done.
    by destruct (hit i bx by_), (existsb (λ i0, hit i0 bx by_) items).
Qed.

Lemma lock_write_spec piece b :
  board_ok b →
  rect (Piece.h piece) (Piece.w piece) (Piece.matrix piece) →
  Piece.shape piece ∈ TETROMINOES_keys →
  ∃ b', Game.lock_write piece b = Done b' ∧ board_ok b' ∧
    ∀ bx by_, in_bounds bx by_ →
      cell_at b' bx by_ =
        if coversb piece bx by_ then Some (Tag (Piece.shape piece))
        else cell_at b bx by_.
Proof.
  intros Hb Hm Hs. unfold Game.lock_write, coversb.
  apply (for_each_paint _
    (fun r bx by_ => existsb (fun c => hitb piece r c bx by_)
                       (seq 0 (Piece.w piece)))); [done|].
  intros r b1 Hr%elem_of_seq Hb1.
  apply (for_each_paint _ (fun c bx by_ => hitb piece r c bx by_)); [done|].
  intros c b2 Hc%elem_of_seq Hb2.
  apply lock_cell_spec; [done..|lia|lia].
Qed.

Lemma Forall_list_filter {A} (P : A → Prop) (f : A → bool) (l : list A) :
  Forall P l → Forall P (List.filter f l).
Proof.
  rewrite !Forall_forall. intros Hl a Ha. apply Hl.
  apply list_elem_of_In in Ha. apply List.filter_In in Ha as [Ha _].
  by apply list_elem_of_In.
Qed.

Lemma board_ok_cleared (b : list (list cell)) :
  board_ok b →
  board_ok
    (Nat.iter
       (Z.to_nat
          (BOARD_HEIGHT -
           Z.of_nat (length (List.filter (existsb cell_is_zero) b))))
       (cons (replicate (Z.to_nat BOARD_WIDTH) Zero))
       (List.filter (existsb cell_is_zero) b)).
Proof.
  intros [[Hlen Hrows] Hcells]. rewrite iter_cons_replicate.
  pose proof (List.filter_length_le (existsb cell_is_zero) b) as Hle.
  split; [split|].
  - rewrite length_app, length_replicate. lia.
  - apply Forall_app. split; [|by apply Forall_list_filter].
    apply Forall_replicate. by rewrite length_replicate.
  - apply Forall_app. split; [|by apply Forall_list_filter].
    apply Forall_replicate. by apply Forall_replicate.
Qed.

(** What [clear_lines] leaves alone, and what it keeps true. *)
Lemma clear_lines_Done (g g' : Game.t) :
  Game.clear_lines g = Done g' →
  Game.bag g' = Game.bag g ∧ Game.current g' = Game.current g ∧
  Game.next g' = Game.next g ∧ Game.game_over g' = Game.game_over g ∧
  Game.paused g' = Game.paused g ∧ Game.last_drop g' = Game.last_drop g ∧
  (board_ok (Game.board g) → board_ok (Game.board g')) ∧
  (Game.level g = 1 + Game.lines g / 10 →
   Game.delay_of_level (Game.level g) = Done (Game.drop_delay g) →
   Game.level g' = 1 + Game.lines g' / 10 ∧
   Game.delay_of_level (Game.level g') = Done (Game.drop_delay g')).
Proof.
  unfold Game.clear_lines.
  destruct (_ =? 0).
  - by intros [= <-].
  - intros H. inv_bind H. injection H as <-. simpl.
    split_and!; try done. intros Hb. by apply board_ok_cleared.
Qed.

(** With a flag set, [step] returns at once; with [game_over] set, a turn
    of the main loop does not read the key for a command. *)
Lemma step_flagged shuffle (now : float) (g : Game.t) :
  Game.paused g = true ∨ Game.game_over g = true →
  Game.step shuffle now g = Done g.
Proof.
  intros Hflag. unfold Game.step.
  replace (Game.paused g || Game.game_over g) with true; [done|].
  symmetry. apply orb_true_iff. done.
Qed.

Lemma main_turn_game_over (KEY_LEFT KEY_RIGHT KEY_DOWN : Z) (fuel : nat)
    shuffle (ch : Z) (now : float) (g : Game.t) :
  Game.game_over g = true →
  main_turn KEY_LEFT KEY_RIGHT KEY_DOWN fuel shuffle ch now g = Done None ∨
  main_turn KEY_LEFT KEY_RIGHT KEY_DOWN fuel shuffle ch now g = Done (Some g).
Proof.
  intros Hover. unfold main_turn. rewrite Hover.
  destruct (key_in ch (ord "q") (ord "Q")); [by left|by right].
Qed.

(** [valid] answers [False] exactly on a collision. *)
Lemma valid_collides b piece nx ny :
  board_ok b →
  rect (Piece.h piece) (Piece.w piece) (Piece.matrix piece) →
  ∃ v, Game.valid b piece nx ny = Done v ∧
    (v = false ↔
     ∃ r c, collides b piece (default (Piece.x piece) nx)
              (default (Piece.y piece) ny) r c).
Proof.
  intros Hb Hm.
  destruct (valid_scan b piece (default (Piece.x piece) nx)
              (default (Piece.y piece) ny) Hb Hm) as (o & Ho & Hcase & Hiff).
  exists (default true o). split.
  { unfold Game.valid. by rewrite Ho. }
  destruct Hiff as [Hto Hfrom]. split.
  - intros Hv. destruct Hto as (r & _ & c & _ & Hcol).
    { by destruct Hcase as [->| ->]. }
    by exists r, c.
  - intros (r & c & Hcol). rewrite Hfrom; [done|].
    pose proof Hcol as [Hocc _].
    apply occupied_lt in Hocc as [Hr Hc]; [|done].
    exists r. split; [apply elem_of_seq; lia|].
    exists c. split; [apply elem_of_seq; lia|done].
Qed.

(** What [next_piece] returns is the piece of the last name of the bag,
    refilled from the shuffle when it was empty, and the bag without that
    name. *)
Lemma next_piece_pop shuffle (bag bag' : list string) (p : Piece.t) :
  Game.next_piece shuffle bag = Done (p, bag') →
  match bag with [] => shuffle TETROMINOES_keys | _ :: _ => bag end =
    bag' ++ [Piece.shape p] ∧
  Piece.new (Piece.shape p) = Done p.
Proof.
  unfold Game.next_piece.
  destruct (match bag with [] => shuffle TETROMINOES_keys | _ :: _ => bag end)
    as [|s l _] using rev_ind; [done|].
  rewrite pop_snoc. simpl. intros H.
  apply bind_Done in H as (p1 & Hnew & H). injection H as <- <-.
  destruct (new_Done s p1 Hnew) as [Hshape _]. by rewrite Hshape.
Qed.

(** C5, amended: for a game whose board and bag have the game's shape,
    and a piece with an [h] by [w] matrix and a catalog shape,
    [lock_piece]
    - writes the board [b1]: every on-board coordinate covered by an
      occupied cell of the piece holds the piece's shape name, every other
      cell is as before (cells of the piece that fall off the board are
      skipped, the board keeps its shape);
    - then clears lines on [b1]: with [cleared] the number of full rows of
      [b1], the board becomes [b2], [cleared] empty rows above the other
      rows of [b1], and when [cleared] is not 0, [lines] grows by
      [cleared], [score] by [cleared * 100 * level], and [level] and
      [drop_delay] are set from the new [lines] (in binary64; the call
      raises [OverflowError] where the new level does not fit a float);
    - then makes the old [next] the current piece and draws a new [next]
      with [next_piece]: the piece of the last name of the bag (refilled
      from the shuffle when it was empty), which leaves the bag;
    - and raises [game_over] exactly when the new current piece is not
      valid on [b2], that is when one of its occupied cells is off the
      board or on a cell of [b2] that is not empty ([game_over] stays set
      if it was).
    The board of the result is [b2]: nothing is written after the lines
    are cleared.  And once [game_over] is set in the result, neither
    [step] nor a turn of the main loop reaches [lock_piece] again: both
    hand the game back as it is. *)
Theorem lock_piece_spec (shuffle : list string → list string) (g : Game.t)
    (piece : Piece.t) :
  is_shuffle shuffle →
  board_ok (Game.board g) →
  Forall (fun k => k ∈ TETROMINOES_keys) (Game.bag g) →
  rect (Piece.h (Game.next g)) (Piece.w (Game.next g))
    (Piece.matrix (Game.next g)) →
  rect (Piece.h piece) (Piece.w piece) (Piece.matrix piece) →
  Piece.shape piece ∈ TETROMINOES_keys →
  ∃ b1, Game.lock_write piece (Game.board g) = Done b1 ∧ board_ok b1 ∧
    (∀ bx by_, in_bounds bx by_ →
       (covers piece bx by_ →
        cell_at b1 bx by_ = Some (Tag (Piece.shape piece))) ∧
       (¬ covers piece bx by_ →
        cell_at b1 bx by_ = cell_at (Game.board g) bx by_)) ∧
    let cleared := Z.of_nat (length (List.filter full_row b1)) in
    let kept := List.filter (fun row => negb (full_row row)) b1 in
    let b2 := replicate (Z.to_nat cleared) empty_row ++ kept in
    let lines' := Game.lines g + cleared in
    let level' := 1 + lines' / 10 in
    let sf := binary_normalize prec emax (level' - 1) 0 false in
    let v' := (1.0 - SF2Prim sf * 0.05)%float in
    let delay' := if (0.05 <? v')%float then v' else 0.05%float in
    ∃ nxt bag' v,
      Game.next_piece shuffle (Game.bag g) = Done (nxt, bag') ∧
      match Game.bag g with
      | [] => shuffle TETROMINOES_keys
      | _ :: _ => Game.bag g
      end = bag' ++ [Piece.shape nxt] ∧
      Piece.new (Piece.shape nxt) = Done nxt ∧
      Game.valid b2 (Game.next g) None None = Done v ∧
      (v = false ↔
       ∃ r c, collides b2 (Game.next g) (Piece.x (Game.next g))
                (Piece.y (Game.next g)) r c) ∧
      (cleared = 0 →
       b2 = b1 ∧
       Game.lock_piece shuffle g piece =
         Done (Game.mk b1 (Game.score g) (Game.lines g) (Game.level g)
                 (Game.drop_delay g) bag' (Game.next g) nxt
                 (Game.game_over g || negb v) (Game.paused g)
                 (Game.last_drop g))) ∧
      (0 < cleared → - 2 ^ 53 < level' - 1 < 2 ^ 53 →
       Game.lock_piece shuffle g piece =
         Done (Game.mk b2 (Game.score g + cleared * 100 * Game.level g)
                 lines' level' delay' bag' (Game.next g) nxt
                 (Game.game_over g || negb v) (Game.paused g)
                 (Game.last_drop g))) ∧
      (0 < cleared → (∃ s, sf = S754_infinity s) →
       Game.lock_piece shuffle g piece = Raised OverflowError) ∧
      (∀ g', Game.lock_piece shuffle g piece = Done g' →
         Game.board g' = b2 ∧
         (Game.game_over g' = true →
          ∀ KEY_LEFT KEY_RIGHT KEY_DOWN fuel shuffle' ch now,
            Game.step shuffle' now g' = Done g' ∧
            (main_turn KEY_LEFT KEY_RIGHT KEY_DOWN fuel shuffle' ch now g'
               = Done None ∨
             main_turn KEY_LEFT KEY_RIGHT KEY_DOWN fuel shuffle' ch now g'
               = Done (Some g')))).
Proof.
  intros Hsh Hb Hbag Hnext Hm Hs.
  destruct (lock_write_spec piece (Game.board g) Hb Hm Hs)
    as (b1 & Hw & Hb1 & Hcells).
  exists b1. split_and!; [done..| |].
  { intros bx by_ Hin. rewrite (Hcells bx by_ Hin).
    pose proof (coversb_spec piece bx by_ Hm) as Hcov.
    destruct (coversb piece bx by_); split; try done.
    - intros Hno. destruct Hno. by apply Hcov.
    - intros Hyes. apply Hcov in Hyes. done. }
  intros cleared kept b2 lines' level' sf v' delay'.
  assert (length b1 = Z.to_nat BOARD_HEIGHT) as Hlen by apply Hb1.
  assert (board_ok b2) as Hb2.
  { pose proof (board_ok_cleared b1 Hb1) as Hcl.
    rewrite iter_cons_replicate, (cleared_count b1 Hlen), kept_rows in Hcl.
    exact Hcl. }
  destruct (next_piece_spec shuffle (Game.bag g) Hsh Hbag)
    as (nxt & bag' & Hnp & _ & _).
  destruct (next_piece_pop shuffle _ _ _ Hnp) as [Hpop Hnew].
  destruct (valid_collides b2 (Game.next g) None None Hb2 Hnext)
    as (v & Hv & Hiff).
  simpl in Hiff.
  destruct (clear_lines_eq (Game.with_board b1 g) Hlen) as [Hnone Hsome].
  simpl in Hnone, Hsome. fold cleared kept in Hnone, Hsome.
  fold b2 lines' level' in Hsome.
  assert (cleared = 0 →
    b2 = b1 ∧
    Game.lock_piece shuffle g piece =
      Done (Game.mk b1 (Game.score g) (Game.lines g) (Game.level g)
              (Game.drop_delay g) bag' (Game.next g) nxt
              (Game.game_over g || negb v) (Game.paused g)
              (Game.last_drop g))) as Hzero.
  { intros Hc. destruct (Hnone Hc) as [Hcl Hkept].
    assert (b2 = b1) as Hb21.
    { unfold b2. rewrite Hc, Hkept. done. }
    split; [done|]. rewrite Hb21 in Hv.
    unfold Game.lock_piece. rewrite Hw. simpl. rewrite Hcl. simpl.
    rewrite Hnp. simpl. rewrite Hv.
    unfold Game.with_game_over, Game.with_next, Game.with_bag,
      Game.with_current, Game.with_board. simpl.
    by destruct v, (Game.game_over g). }
  assert (0 < cleared → - 2 ^ 53 < level' - 1 < 2 ^ 53 →
    Game.lock_piece shuffle g piece =
      Done (Game.mk b2 (Game.score g + cleared * 100 * Game.level g)
              lines' level' delay' bag' (Game.next g) nxt
              (Game.game_over g || negb v) (Game.paused g)
              (Game.last_drop g))) as Hpos.
  { intros Hc Hrange. specialize (Hsome Hc).
    rewrite (delay_of_level_finite level'
               (binary_normalize_small _ Hrange)) in Hsome.
    unfold Game.lock_piece. rewrite Hw. simpl. rewrite Hsome. simpl.
    rewrite Hnp. simpl. rewrite Hv.
    unfold Game.with_game_over, Game.with_next, Game.with_bag,
      Game.with_current, Game.with_board. simpl.
    by destruct v, (Game.game_over g). }
  assert (0 < cleared → (∃ s, sf = S754_infinity s) →
    Game.lock_piece shuffle g piece = Raised OverflowError) as Hover.
  { intros Hc [s Hsf]. specialize (Hsome Hc).
    rewrite (delay_of_level_overflow level' s Hsf) in Hsome.
    unfold Game.lock_piece. rewrite Hw. simpl. by rewrite Hsome. }
  exists nxt, bag', v. split_and!; [done..|].
  intros g' Hlock. split.
  - unfold Game.lock_piece in Hlock. rewrite Hw in Hlock. simpl in Hlock.
    apply bind_Done in Hlock as (g1 & Hg1cl & Hlock).
    assert (Game.board g1 = b2) as Hg1.
    { destruct (Z.eq_dec cleared 0) as [Hc|Hc].
      - destruct (Hnone Hc) as [Hcl Hkept]. rewrite Hcl in Hg1cl.
        injection Hg1cl as <-. simpl. symmetry. by apply Hzero.
      - assert (0 < cleared) as Hc' by (unfold cleared in *; lia).
        rewrite (Hsome Hc') in Hg1cl.
        apply bind_Done in Hg1cl as (d & _ & Hg1cl).
        by injection Hg1cl as <-. }
    simpl in Hlock.
    apply bind_Done in Hlock as ([nxt1 bag1] & _ & Hlock).
    simpl in Hlock. apply bind_Done in Hlock as (v1 & _ & Hlock).
    destruct (negb v1); injection Hlock as <-; exact Hg1.
  - intros Hover' KEY_LEFT KEY_RIGHT KEY_DOWN fuel shuffle' ch now. split.
    + apply step_flagged. by right.
    + by apply main_turn_game_over.
Qed.

Lemma lock_piece_spec_witness :
  is_shuffle id ∧ board_ok (Game.board game_gap) ∧
  Forall (fun k => k ∈ TETROMINOES_keys) (Game.bag game_gap) ∧
  rect 3 3 (Piece.matrix piece_Z) ∧ rect 3 3 (Piece.matrix piece_T) ∧
  Piece.shape piece_T ∈ TETROMINOES_keys ∧
  Game.lock_piece id game_gap (Game.current game_gap) =
    Done (Game.mk
            (replicate 19 empty_row ++
             [[Zero; Zero; Zero; Zero; Tag "T"; Zero; Zero; Zero; Zero;
               Zero]]%string)
            1000 10 2 0.95%float ["I"; "J"; "L"; "O"]%string piece_Z
            (Piece.mk "S" [[0; 1; 1]; [1; 1; 0]; [0; 0; 0]] 3 3 3 0)
            false false 0%float).
Proof.
  assert (is_shuffle id) as Hsh by (by intros l).
  assert (Forall (fun k => k ∈ TETROMINOES_keys) (Game.bag game_gap))
    as Hbag.
  { repeat (apply Forall_cons_2; [repeat constructor|]). apply Forall_nil_2. }
  assert (Piece.shape piece_T ∈ TETROMINOES_keys) as Hs
    by repeat constructor.
  split; [exact Hsh|]. split; [exact board_ok_gap|]. split; [exact Hbag|].
  split; [exact (proj1 piece_Z_wf)|]. split; [exact (proj1 piece_T_wf)|].
  split; [exact Hs|].
  destruct (lock_piece_spec id game_gap (Game.current game_gap) Hsh
              board_ok_gap Hbag (proj1 piece_Z_wf) (proj1 piece_T_wf) Hs)
    as (b1 & Hw & _ & _ & nxt & bag' & v & Hnp & _ & _ & Hv & _ & _ &
        Hpos & _).
  injection Hw as <-. injection Hnp as <- <-. injection Hv as <-.
  apply Hpos; vm_compute; [reflexivity|split; reflexivity].
Defined.

(** ** hard_drop *)

Lemma drop_by_0 g : drop_by 0 g = g.
Proof.
  destruct g as [? ? ? ? ? ? [] ? ? ? ?]. unfold drop_by. simpl.
  unfold Game.with_score, Game.with_current, Piece.with_y. simpl.
  f_equal; [lia|]. f_equal. lia.
Qed.

Lemma drop_by_step k g :
  drop_by k (Game.with_score (Game.score (Game.descend g) + 2) (Game.descend g))
  = drop_by (1 + k) g.
Proof.
  destruct g as [? ? ? ? ? ? [] ? ? ? ?]. unfold drop_by. simpl.
  unfold Game.with_score, Game.with_current, Piece.with_y. simpl.
  f_equal; [lia|]. f_equal. lia.
Qed.

Lemma hard_drop_loop_S fuel g v :
  Game.valid (Game.board g) (Game.current g) None
    (Some (Piece.y (Game.current g) + 1)) = Done v →
  Game.hard_drop_loop (Datatypes.S fuel) g =
    if v then
      Game.hard_drop_loop fuel
        (Game.with_score (Game.score (Game.descend g) + 2) (Game.descend g))
    else Done g.
Proof. intros Hv. simpl. by rewrite Hv. Qed.

Lemma hard_drop_loop_bound (n : nat) :
  ∀ (g : Game.t) (fuel : nat) (r0 c0 : nat),
  board_ok (Game.board g) →
  rect (Piece.h (Game.current g)) (Piece.w (Game.current g))
    (Piece.matrix (Game.current g)) →
  Piece.occupied (Game.current g) r0 c0 →
  BOARD_HEIGHT - 1 - (Piece.y (Game.current g) + Z.of_nat r0) ≤ Z.of_nat n →
  (n < fuel)%nat →
  ∃ k : nat, (k ≤ n)%nat ∧
    Game.hard_drop_loop fuel g = Done (drop_by (Z.of_nat k) g) ∧
    (∀ j, 1 ≤ j ≤ Z.of_nat k →
       Game.valid (Game.board g) (Game.current g) None
         (Some (Piece.y (Game.current g) + j)) = Done true) ∧
    Game.valid (Game.board g) (Game.current g) None
      (Some (Piece.y (Game.current g) + Z.of_nat k + 1)) = Done false.
Proof.
  induction n as [|n IH]; intros g fuel r0 c0 Hb Hm Hocc Hn Hfuel;
    (destruct fuel as [|fuel]; [lia|]);
    destruct (valid_Done (Game.board g) (Game.current g) None
      (Some (Piece.y (Game.current g) + 1)) Hb Hm) as (v & Hv & Hin);
    simpl in Hin.
  - assert (v = false) as ->.
    { destruct v; [|done].
      destruct (Hin eq_refl r0 c0 Hocc) as [_ Hy]. lia. }
    exists 0%nat. rewrite (hard_drop_loop_S _ _ _ Hv), drop_by_0.
    split; [done|]. split; [done|]. split; [intros j Hj; lia|].
    by rewrite Z.add_0_r.
  - destruct v.
    + destruct (Hin eq_refl r0 c0 Hocc) as [_ Hy].
      set (g1 := Game.with_score (Game.score (Game.descend g) + 2)
                   (Game.descend g)).
      destruct (IH g1 fuel r0 c0) as (k & Hk & Hloop & Htrue & Hfalse);
        [done|done|done|simpl; lia|lia|].
      exists (Datatypes.S k). split; [lia|].
      rewrite (hard_drop_loop_S _ _ _ Hv). fold g1.
      rewrite Hloop. unfold g1. rewrite drop_by_step.
      split_and!.
      * do 2 f_equal. lia.
      * intros j Hj. destruct (decide (j = 1)) as [->|Hne]; [done|].
        specialize (Htrue (j - 1)). simpl in Htrue.
        replace (Piece.y (Game.current g) + j)
          with (Piece.y (Game.current g) + 1 + (j - 1)) by lia.
        apply Htrue. lia.
      * simpl in Hfalse.
        replace (Piece.y (Game.current g) + Z.of_nat (Datatypes.S k) + 1)
          with (Piece.y (Game.current g) + 1 + Z.of_nat k + 1) by lia.
        done.
    + exists 0%nat. rewrite (hard_drop_loop_S _ _ _ Hv), drop_by_0.
      split; [lia|]. split; [done|]. split; [intros j Hj; lia|].
      by rewrite Z.add_0_r.
Qed.

(** C9: in a game whose board has the game's shape and whose current
    piece has an [h] by [w] matrix with an occupied cell, the loop of
    [hard_drop] ends whenever it is given fuel for more than
    [BOARD_HEIGHT] tests: it makes [k] steps, [k] at most [BOARD_HEIGHT],
    each onto a valid position, each adding 1 to [y] and 2 to [score],
    the position one further down is not valid, and [hard_drop] then
    locks the piece where it stands. *)
Theorem hard_drop_terminates (fuel : nat)
    (shuffle : list string → list string) (g : Game.t) :
  board_ok (Game.board g) →
  rect (Piece.h (Game.current g)) (Piece.w (Game.current g))
    (Piece.matrix (Game.current g)) →
  (∃ r c, Piece.occupied (Game.current g) r c) →
  BOARD_HEIGHT < Z.of_nat fuel →
  ∃ k, 0 ≤ k ≤ BOARD_HEIGHT ∧
    Game.hard_drop_loop fuel g = Done (drop_by k g) ∧
    (∀ j, 1 ≤ j ≤ k →
       Game.valid (Game.board g) (Game.current g) None
         (Some (Piece.y (Game.current g) + j)) = Done true) ∧
    Game.valid (Game.board g) (Game.current g) None
      (Some (Piece.y (Game.current g) + k + 1)) = Done false ∧
    Game.hard_drop fuel shuffle g =
      Game.lock_piece shuffle (drop_by k g) (Game.current (drop_by k g)).
Proof.
  intros Hb Hm (r0 & c0 & Hocc) Hfuel.
  assert (∃ k, 0 ≤ k ≤ BOARD_HEIGHT ∧
    Game.hard_drop_loop fuel g = Done (drop_by k g) ∧
    (∀ j, 1 ≤ j ≤ k →
       Game.valid (Game.board g) (Game.current g) None
         (Some (Piece.y (Game.current g) + j)) = Done true) ∧
    Game.valid (Game.board g) (Game.current g) None
      (Some (Piece.y (Game.current g) + k + 1)) = Done false)
    as (k & Hk & Hloop & Htrue & Hfalse).
  { destruct (valid_Done (Game.board g) (Game.current g) None
      (Some (Piece.y (Game.current g) + 1)) Hb Hm) as (v & Hv & Hin).
    simpl in Hin. destruct v.
    - destruct (Hin eq_refl r0 c0 Hocc) as [_ Hy].
      destruct (hard_drop_loop_bound 20 g fuel r0 c0)
        as (k & Hk & Hloop & Htrue & Hfalse);
        [done|done|done|unfold BOARD_HEIGHT; lia|unfold BOARD_HEIGHT in *; lia|].
      exists (Z.of_nat k). split_and!; [lia|unfold BOARD_HEIGHT; lia|done..].
    - exists 0. destruct fuel as [|fuel]; [unfold BOARD_HEIGHT in *; lia|].
      rewrite (hard_drop_loop_S _ _ _ Hv), drop_by_0.
      split; [done|]. split; [done|]. split; [intros j Hj; lia|].
      by rewrite Z.add_0_r. }
  exists k. split_and!; [lia|lia|done..|].
  unfold Game.hard_drop. by rewrite Hloop.
Qed.

Lemma hard_drop_terminates_witness :
  board_ok (Game.board game0) ∧
  rect (Piece.h (Game.current game0)) (Piece.w (Game.current game0))
    (Piece.matrix (Game.current game0)) ∧
  (∃ r c, Piece.occupied (Game.current game0) r c) ∧
  BOARD_HEIGHT < Z.of_nat 21 ∧
  ∃ k, 0 ≤ k ≤ BOARD_HEIGHT ∧
    Game.hard_drop_loop 21 game0 = Done (drop_by k game0).
Proof.
  assert (∃ r c, Piece.occupied (Game.current game0) r c) as Hocc.
  { exists 0%nat, 0%nat. by eexists _, _. }
  split; [exact board_ok_empty|]. split; [exact (proj1 piece_Z_wf)|].
  split; [exact Hocc|]. split; [reflexivity|].
  destruct (hard_drop_terminates 21 id game0 board_ok_empty
              (proj1 piece_Z_wf) Hocc eq_refl) as (k & Hk & Hloop & _).
  by exists k.
Defined.

(** ** What every operation keeps true *)

Lemma has_cell_occupied (p : Piece.t) :
  has_cell (Piece.matrix p) ↔ ∃ r c, Piece.occupied p r c.
Proof.
  unfold has_cell, Piece.occupied. rewrite Exists_exists. split.
  - intros (row & Hrow & (z & Hz & Hnz)%Exists_exists).
    apply list_elem_of_lookup in Hrow as [r Hr].
    apply list_elem_of_lookup in Hz as [c Hc].
    by exists r, c, row, z.
  - intros (r & c & row & z & Hr & Hc & Hnz). exists row.
    split; [by eapply list_elem_of_lookup_2|].
    apply Exists_exists. exists z.
    split; [by eapply list_elem_of_lookup_2|done].
Qed.

Lemma has_cell_singletons (r : list Z) :
  Exists (fun z => z ≠ 0) r → has_cell ((fun a => [a]) <$> r).
Proof.
  induction 1 as [a r Ha|a r _ IH]; simpl.
  - apply Exists_cons_hd. by apply Exists_cons_hd.
  - by apply Exists_cons_tl.
Qed.

Lemma has_cell_zip_with_cons (r : list Z) (m : list (list Z)) :
  length r = length m →
  Exists (fun z => z ≠ 0) r ∨ has_cell m → has_cell (zip_with cons r m).
Proof.
  revert m. induction r as [|a r IH]; intros [|row m] Hlen Hex;
    simpl in Hlen; try done.
  - destruct Hex as [Hex|Hex]; by apply Exists_nil in Hex.
  - simpl. destruct Hex as [[Ha|Hr]%Exists_cons|[Hrow|Hm]%Exists_cons].
    + apply Exists_cons_hd. by apply Exists_cons_hd.
    + apply Exists_cons_tl. apply IH; [lia|by left].
    + apply Exists_cons_hd. by apply Exists_cons_tl.
    + apply Exists_cons_tl. apply IH; [lia|by right].
Qed.

Lemma has_cell_zip_star hh ww (m : list (list Z)) :
  rect hh ww m → has_cell m → has_cell (zip_star m).
Proof.
  revert hh. induction m as [|r m IH]; intros hh Hm Hex.
  - by apply Exists_nil in Hex.
  - apply rect_cons_inv in Hm as [Hr Hm]. destruct m as [|r' m].
    + apply Exists_cons in Hex as [Hex|Hex]; [|by apply Exists_nil in Hex].
      by apply has_cell_singletons.
    + assert (0 < pred hh)%nat as Hp.
      { destruct Hm as [Hl _]. simpl in Hl. lia. }
      destruct (zip_star_rect _ _ _ Hm Hp) as [Hl _].
      change (zip_star (r :: r' :: m))
        with (zip_with cons r (zip_star (r' :: m))).
      apply has_cell_zip_with_cons; [lia|].
      apply Exists_cons in Hex as [Hex|Hex]; [by left|].
      right. by apply (IH (pred hh)).
Qed.

Lemma has_cell_reverse (m : list (list Z)) :
  has_cell m → has_cell (reverse m).
Proof.
  unfold has_cell. rewrite !Exists_exists.
  intros (row & Hrow & Hex). exists row. split; [|done].
  by apply elem_of_reverse.
Qed.

Lemma rotate_piece_ok (ccw : bool) (p p' : Piece.t) :
  piece_ok p →
  (if ccw then Piece.rotate_ccw p else Piece.rotate p) = Done p' →
  piece_ok p'.
Proof.
  intros (Hwf & Hs & Hc) Hrot. pose proof Hwf as (Hm & Hh & Hw).
  destruct ccw.
  - split; [by eapply rotate_ccw_preserves_wf|].
    rewrite rotate_ccw_wf in Hrot by done. injection Hrot as <-. simpl.
    split; [done|]. apply has_cell_reverse. by eapply has_cell_zip_star.
  - split; [by eapply rotate_preserves_wf|].
    rewrite rotate_wf in Hrot by done. injection Hrot as <-. simpl.
    split; [done|]. eapply has_cell_zip_star; [by apply rect_reverse|].
    by apply has_cell_reverse.
Qed.

Lemma fresh_piece_ok (p : Piece.t) : fresh_ok p → piece_ok p.
Proof.
  intros (Hwf & Hs & Hocc & _). split_and!; [done..|].
  by apply has_cell_occupied.
Qed.

Lemma next_piece_Done shuffle (bag bag' : list string) (p : Piece.t) :
  is_shuffle shuffle →
  Forall (fun k => k ∈ TETROMINOES_keys) bag →
  Game.next_piece shuffle bag = Done (p, bag') →
  piece_ok p ∧ Forall (fun k => k ∈ TETROMINOES_keys) bag'.
Proof.
  intros Hsh Hbag Hnp.
  destruct (next_piece_spec shuffle bag Hsh Hbag)
    as (p1 & bag1 & Hnp1 & Hok & Hbag1).
  rewrite Hnp in Hnp1. injection Hnp1 as <- <-.
  split; [by apply fresh_piece_ok|done].
Qed.

Lemma state_ok_current (p : Piece.t) (g : Game.t) :
  state_ok g → piece_ok p → state_ok (Game.with_current p g).
Proof. intros (? & ? & ? & ? & ?) Hp. by split_and!. Qed.

Lemma state_ok_descend (g : Game.t) : state_ok g → state_ok (Game.descend g).
Proof.
  intros Hg. apply state_ok_current; [done|].
  destruct Hg as (_ & _ & (Hwf & Hs & Hc) & _). by split_and!.
Qed.

Lemma lock_piece_ok shuffle (g g' : Game.t) (piece : Piece.t) :
  is_shuffle shuffle → state_ok g → piece_ok piece →
  Game.lock_piece shuffle g piece = Done g' → state_ok g'.
Proof.
  intros Hsh (Hb & Hbag & Hcur & Hnext & Hlev) ((Hm & _) & Hs & _) Hlock.
  unfold Game.lock_piece in Hlock.
  destruct (lock_write_spec piece (Game.board g) Hb Hm Hs)
    as (b1 & Hw & Hb1 & _).
  rewrite Hw in Hlock. simpl in Hlock. inv_bind Hlock.
  destruct (clear_lines_Done _ _ Ha)
    as (Hg1bag & _ & Hg1next & _ & _ & _ & Hg1b & Hg1lev).
  simpl in *. destruct Hlev as [Hlev Hdelay].
  destruct (Hg1lev Hlev Hdelay) as [Hlev1 Hdelay1].
  inv_bind Hlock. destruct a0 as [nxt bag']. rewrite Hg1bag in Ha0.
  destruct (next_piece_Done _ _ _ _ Hsh Hbag Ha0) as [Hnxt Hbag'].
  inv_bind Hlock.
  assert (state_ok (Game.with_next nxt
            (Game.with_bag bag' (Game.with_current (Game.next a) a)))) as Hok.
  { split_and!; simpl; try done; [by apply Hg1b|by rewrite Hg1next]. }
  destruct (negb a0); injection Hlock as <-; [|done].
  destruct Hok as (? & ? & ? & ? & ?). by split_and!.
Qed.

Lemma hard_drop_loop_ok (fuel : nat) (g g' : Game.t) :
  state_ok g → Game.hard_drop_loop fuel g = Done g' → state_ok g'.
Proof.
  revert g. induction fuel as [|fuel IH]; intros g Hg Hloop; [done|].
  simpl in Hloop. inv_bind Hloop. destruct a.
  - apply IH in Hloop; [done|].
    apply state_ok_descend in Hg.
    destruct Hg as (? & ? & ? & ? & ?). by split_and!.
  - by injection Hloop as <-.
Qed.

Lemma current_piece_ok (g : Game.t) : state_ok g → piece_ok (Game.current g).
Proof. by intros (_ & _ & ? & _). Qed.

Lemma run_op_ok (fuel : nat) shuffle (o : op) (g g' : Game.t) :
  is_shuffle shuffle → state_ok g →
  run_op fuel shuffle o g = Done g' → state_ok g'.
Proof.
  intros Hsh Hg Hrun. pose proof (current_piece_ok g Hg) as Hcur.
  destruct o as [dx| | |ccw|now|]; simpl in Hrun.
  - unfold Game.move_current in Hrun. inv_bind Hrun.
    destruct a; injection Hrun as <-; [|done].
    apply state_ok_current; [done|].
    destruct Hcur as (? & ? & ?). by split_and!.
  - unfold Game.soft_drop in Hrun. inv_bind Hrun. destruct a.
    + injection Hrun as <-. apply state_ok_descend in Hg.
      destruct Hg as (? & ? & ? & ? & ?). by split_and!.
    + by eapply lock_piece_ok.
  - unfold Game.hard_drop in Hrun. inv_bind Hrun.
    apply hard_drop_loop_ok in Ha; [|done].
    eapply lock_piece_ok; [done|done| |done]. by apply current_piece_ok.
  - unfold Game.rotate_current in Hrun. inv_bind Hrun.
    pose proof (rotate_piece_ok ccw _ _ Hcur Ha) as Hrot.
    inv_bind Hrun. destruct a0 as [g1|].
    + injection Hrun as <-. apply for_return_Done in Ha0.
      destruct Ha0 as (pre & dx & post & _ & _ & Hdx). inv_bind Hdx.
      destruct a0; [|done]. injection Hdx as <-.
      apply state_ok_current; [by apply state_ok_current|].
      destruct Hrot as (? & ? & ?). by split_and!.
    + injection Hrun as <-. destruct Hg as (? & ? & ? & ? & ?).
      destruct Hcur as ((? & ? & ?) & ? & ?).
      split_and!; try done. split_and!; simpl; try done.
      destruct Hrot as (_ & ? & _). done.
  - unfold Game.step in Hrun.
    destruct (Game.paused g || Game.game_over g);
      [by injection Hrun as <-|].
    destruct (_ <=? _)%float; [|by injection Hrun as <-].
    inv_bind Hrun. inv_bind Hrun. injection Hrun as <-.
    assert (state_ok a0) as (? & ? & ? & ? & ?); [|by split_and!].
    destruct a.
    + injection Ha0 as <-. by apply state_ok_descend.
    + by eapply lock_piece_ok.
  - injection Hrun as <-. destruct Hg as (? & ? & ? & ? & ?). by split_and!.
Qed.

Lemma init_ok shuffle (now : float) (g : Game.t) :
  is_shuffle shuffle → Game.init shuffle now = Done g → state_ok g.
Proof.
  intros Hsh Hinit. unfold Game.init in Hinit.
  inv_bind Hinit. destruct a as [cur bag1].
  inv_bind Hinit. destruct a as [nxt bag2]. injection Hinit as <-.
  destruct (next_piece_Done _ _ _ _ Hsh (Forall_nil_2 _) Ha) as [Hcur Hbag1].
  destruct (next_piece_Done _ _ _ _ Hsh Hbag1 Ha0) as [Hnxt Hbag2].
  split_and!; try done. apply board_ok_empty.
Qed.

Lemma reachable_ok (g : Game.t) : reachable g → state_ok g.
Proof.
  induction 1 as [shuffle now g Hsh Hinit|fuel shuffle o g g' Hsh _ IH Hrun].
  - by eapply init_ok.
  - by eapply run_op_ok.
Qed.

(** ** Level and delay *)

Lemma py_max_negative (v : float) :
  (v <? 0)%float = true → py_max 0.05 v = 0.05%float.
Proof.
  unfold py_max. rewrite !ltb_spec.
  change (Prim2SF 0) with (S754_zero false).
  change (Prim2SF 0.05) with (S754_finite false 7205759403792794 (-57)).
  destruct (Prim2SF v) as [s|s| |s m e]; simpl.
  all: try (destruct s); simpl; try discriminate; try reflexivity.
Qed.

(** C6: in every reachable game, [level] is [1 + lines // 10] and
    [drop_delay] is [max(0.05, 1.0 - (level - 1) * 0.05)] in binary64
    arithmetic; at 10 lines the level is 2 and the delay [0.95], at 95
    lines the level is 10 and the delay [0.55]; and whenever the
    difference [1.0 - (level - 1) * 0.05] is negative the delay is
    [0.05]. *)
Theorem level_and_delay (g : Game.t) :
  reachable g →
  Game.level g = 1 + Game.lines g / 10 ∧
  (∃ f, int_to_float (Game.level g - 1) = Done f ∧
     Game.drop_delay g = py_max 0.05 (1.0 - f * 0.05)%float) ∧
  (Game.lines g = 10 →
     Game.level g = 2 ∧ Game.drop_delay g = 0.95%float) ∧
  (Game.lines g = 95 →
     Game.level g = 10 ∧ Game.drop_delay g = 0.55%float) ∧
  (∀ f, int_to_float (Game.level g - 1) = Done f →
     (1.0 - f * 0.05 <? 0)%float = true →
     Game.drop_delay g = 0.05%float).
Proof.
  intros Hg. apply reachable_ok in Hg as (_ & _ & _ & _ & Hlev & Hdelay).
  assert (∃ f, int_to_float (Game.level g - 1) = Done f ∧
     Game.drop_delay g = py_max 0.05 (1.0 - f * 0.05)%float)
    as (f & Hf & Hd).
  { unfold Game.delay_of_level in Hdelay. inv_bind Hdelay.
    injection Hdelay as <-. by exists a. }
  split; [done|]. split; [by exists f|]. split_and!.
  - intros H10. rewrite H10 in Hlev. change (1 + 10 / 10) with 2 in Hlev.
    split; [done|]. rewrite Hlev in Hf. injection Hf as <-. by rewrite Hd.
  - intros H95. rewrite H95 in Hlev. change (1 + 95 / 10) with 10 in Hlev.
    split; [done|]. rewrite Hlev in Hf. injection Hf as <-. by rewrite Hd.
  - intros f' Hf' Hneg. rewrite Hf in Hf'. injection Hf' as <-.
    rewrite Hd. by apply py_max_negative.
Qed.

Lemma game0_reachable : reachable game0.
Proof.
  apply (reachable_init id 0%float); [by intros l|reflexivity].
Qed.

Lemma level_and_delay_witness :
  reachable game0 ∧
  Game.level game0 = 1 + Game.lines game0 / 10 ∧
  ∃ f, int_to_float (Game.level game0 - 1) = Done f ∧
    Game.drop_delay game0 = py_max 0.05 (1.0 - f * 0.05)%float.
Proof.
  split; [exact game0_reachable|].
  destruct (level_and_delay game0 game0_reachable) as (Hlev & Hd & _).
  by split.
Defined.

(** The delays of the levels named in C6, and of some levels past the
    clamp. *)
Example delay_level_2 : Game.delay_of_level 2 = Done 0.95%float.
Proof. reflexivity. Qed.

Example delay_level_10 : Game.delay_of_level 10 = Done 0.55%float.
Proof. reflexivity. Qed.

Example delay_level_21 : Game.delay_of_level 21 = Done 0.05%float.
Proof. reflexivity. Qed.

Example delay_level_500 : Game.delay_of_level 500 = Done 0.05%float.
Proof. reflexivity. Qed.

(** ** The board keeps its shape *)

(** C10: the board that [Game.__init__] builds, the board after
    [clear_lines], the board after [lock_piece] of a piece of the game,
    and the board of every reachable game are [BOARD_HEIGHT] rows of
    [BOARD_WIDTH] cells, each cell [0] or a catalog shape name. *)
Theorem board_shape_invariant :
  (∀ shuffle now g,
     Game.init shuffle now = Done g → board_ok (Game.board g)) ∧
  (∀ g g',
     board_ok (Game.board g) → Game.clear_lines g = Done g' →
     board_ok (Game.board g')) ∧
  (∀ shuffle g piece g',
     board_ok (Game.board g) →
     rect (Piece.h piece) (Piece.w piece) (Piece.matrix piece) →
     Piece.shape piece ∈ TETROMINOES_keys →
     Game.lock_piece shuffle g piece = Done g' →
     board_ok (Game.board g')) ∧
  (∀ g, reachable g → board_ok (Game.board g)).
Proof.
  split_and!.
  - intros shuffle now g Hinit. unfold Game.init in Hinit.
    inv_bind Hinit. destruct a as [cur bag1].
    inv_bind Hinit. destruct a as [nxt bag2]. injection Hinit as <-.
    apply board_ok_empty.
  - intros g g' Hb Hcl. by apply (clear_lines_Done g g' Hcl).
  - intros shuffle g piece g' Hb Hm Hs Hlock.
    unfold Game.lock_piece in Hlock.
    destruct (lock_write_spec piece (Game.board g) Hb Hm Hs)
      as (b1 & Hw & Hb1 & _).
    rewrite Hw in Hlock. simpl in Hlock. inv_bind Hlock.
    destruct (clear_lines_Done _ _ Ha) as (_ & _ & _ & _ & _ & _ & Hg1b & _).
    inv_bind Hlock. destruct a0 as [nxt bag']. inv_bind Hlock.
    destruct (negb a0); injection Hlock as <-; by apply Hg1b.
  - intros g Hg. by apply reachable_ok in Hg as (Hb & _).
Qed.

Lemma board_shape_invariant_witness :
  reachable game0 ∧ board_ok (Game.board game0) ∧
  (board_ok (Game.board game_line) ∧
   Game.clear_lines game_line
     = Done (Game.with_score 100 (Game.with_lines 1 game0)) ∧
   board_ok (Game.board (Game.with_score 100 (Game.with_lines 1 game0)))).
Proof.
  destruct board_shape_invariant as (_ & Hclear & _ & Hreach).
  assert (board_ok (Game.board game_line)) as Hline.
  { split; [split; [reflexivity|]|]; repeat constructor. }
  assert (Game.clear_lines game_line
     = Done (Game.with_score 100 (Game.with_lines 1 game0))) as Hcl
    by reflexivity.
  split; [exact game0_reachable|].
  split; [exact (Hreach game0 game0_reachable)|].
  split; [exact Hline|]. split; [exact Hcl|].
  exact (Hclear _ _ Hline Hcl).
Defined.

(** ** The flags [paused] and [game_over] *)

(** C2 as stated fails: on a paused game, here one reached by a pause
    right after [Game.__init__], and likewise on a game with [game_over]
    set, each of [move_current], [soft_drop], [hard_drop] and
    [rotate_current] returns a game that differs from the one it was
    called on. *)
Lemma flagged_ops_counterexample :
  reachable game_paused ∧
  Game.paused game_paused = true ∧
  Game.move_current 1 game_paused ≠ Done game_paused ∧
  Game.soft_drop id game_paused ≠ Done game_paused ∧
  Game.hard_drop 30 id game_paused ≠ Done game_paused ∧
  Game.rotate_current false game_paused ≠ Done game_paused ∧
  Game.game_over game_lost = true ∧
  Game.move_current 1 game_lost ≠ Done game_lost ∧
  Game.soft_drop id game_lost ≠ Done game_lost ∧
  Game.hard_drop 30 id game_lost ≠ Done game_lost ∧
  Game.rotate_current false game_lost ≠ Done game_lost.
Proof.
  split.
  { apply (reachable_op 0 id TogglePause game0);
      [by intros l|exact game0_reachable|reflexivity]. }
  split_and!; try reflexivity; vm_compute; intros H; discriminate H.
Qed.

(** What the operations of the counterexample return on the paused game. *)
Example move_current_paused :
  Game.move_current 1 game_paused =
    Done (Game.with_current (Piece.with_x 4 piece_Z) game_paused).
Proof. reflexivity. Qed.

Example soft_drop_paused :
  Game.soft_drop id game_paused =
    Done (Game.with_score 1
            (Game.with_current (Piece.with_y 1 piece_Z) game_paused)).
Proof. reflexivity. Qed.

(** C2, amended: whenever [paused] or [game_over] is set, [step] returns
    the game unchanged; and whenever [game_over] is set, a turn of the
    main loop calls none of [move_current], [soft_drop], [hard_drop],
    [rotate_current]: it leaves the loop on [q] and otherwise hands the
    game back unchanged. *)
Theorem frozen_when_flagged (KEY_LEFT KEY_RIGHT KEY_DOWN : Z) (fuel : nat)
    (shuffle : list string → list string) (ch : Z) (now : float)
    (g : Game.t) :
  (Game.paused g = true ∨ Game.game_over g = true →
   Game.step shuffle now g = Done g) ∧
  (Game.game_over g = true →
   main_turn KEY_LEFT KEY_RIGHT KEY_DOWN fuel shuffle ch now g =
     if key_in ch (ord "q") (ord "Q") then Done None else Done (Some g)).
Proof.
  split.
  - intros [Hp|Ho]; unfold Game.step.
    + by rewrite Hp.
    + rewrite Ho. by rewrite orb_true_r.
  - intros Ho. unfold main_turn. by rewrite Ho.
Qed.

Lemma frozen_when_flagged_witness :
  Game.paused game_paused = true ∧
  Game.step id 5%float game_paused = Done game_paused ∧
  Game.game_over game_lost = true ∧
  main_turn 260 261 258 30 id (ord " ") 5%float game_lost
    = Done (Some game_lost).
Proof.
  split; [reflexivity|].
  split; [exact (proj1 (frozen_when_flagged 260 261 258 30 id (ord " ")
                          5%float game_paused) (or_introl eq_refl))|].
  split; [reflexivity|].
  exact (proj2 (frozen_when_flagged 260 261 258 30 id (ord " ")
                  5%float game_lost) eq_refl).
Defined.

(** ** lock_piece on a game that is over *)

Lemma reachable_hard_drops (fuel : nat) shuffle (n : nat) (g g' : Game.t) :
  is_shuffle shuffle →
  reachable g →
  repeat_call (Game.hard_drop fuel shuffle) n g = Done g' →
  reachable g'.
Proof.
  intros Hsh. revert g. induction n as [|n IH]; intros g Hg Hrun.
  - by injection Hrun as <-.
  - simpl in Hrun. apply bind_Done in Hrun as (g1 & Hdrop & Hrun).
    apply (IH g1); [|done].
    by apply (reachable_op fuel shuffle HardDrop g g1).
Qed.

(** C5, the claim as stated fails: [lock_piece] does not look at
    [game_over].  [game_top] is the game ten hard drops after the start,
    its [game_over] is set; [lock_piece] of its current piece writes the
    O piece on the two top rows, over two cells of the S piece locked
    there. *)
Lemma lock_piece_counterexample :
  repeat_call (Game.hard_drop 30 id) 10 game0 = Done game_top ∧
  reachable game_top ∧
  Game.game_over game_top = true ∧
  cell_at (Game.board game_top) 4 0 = Some Zero ∧
  cell_at (Game.board game_top) 4 1 = Some (Tag "S") ∧
  ∃ g', Game.lock_piece id game_top (Game.current game_top) = Done g' ∧
    cell_at (Game.board g') 4 0 = Some (Tag "O") ∧
    cell_at (Game.board g') 4 1 = Some (Tag "O") ∧
    Game.board g' ≠ Game.board game_top.
Proof.
  assert (repeat_call (Game.hard_drop 30 id) 10 game0 = Done game_top)
    as Hrun by (vm_compute; reflexivity).
  split; [exact Hrun|]. split.
  { apply (reachable_hard_drops 30 id 10 game0); [|exact game0_reachable|done].
    by intros l. }
  split_and!; [reflexivity..|].
  eexists. split; [vm_compute; reflexivity|].
  split_and!; [reflexivity..|]. simpl. intros H. discriminate H.
Qed.

(** * Further properties *)

(** ** Rotating more than once *)

Section rotation_more.
Context {A : Type}.
Implicit Types (m : list (list A)) (r : list A).

Lemma zip_with_cons_snoc r (cols : list (list A)) (r' : list A) :
  zip_with cons r (zip_with (fun col a => col ++ [a]) cols r') =
  zip_with (fun col a => col ++ [a]) (zip_with cons r cols) r'.
Proof.
  revert cols r'. induction r as [|a r IH]; intros [|col cols] [|a' r'];
    simpl; try done. by rewrite IH.
Qed.

Lemma zip_star_snoc m r :
  m ≠ [] →
  zip_star (m ++ [r]) = zip_with (fun col a => col ++ [a]) (zip_star m) r.
Proof.
  induction m as [|r0 m IH]; [done|]. intros _. destruct m as [|r1 m].
  - simpl. clear IH. revert r. induction r0 as [|a r0 IH]; intros [|b r];
      simpl; try done. f_equal. apply IH.
  - change (zip_star ((r0 :: r1 :: m) ++ [r]))
      with (zip_with cons r0 (zip_star ((r1 :: m) ++ [r]))).
    rewrite IH by done. apply zip_with_cons_snoc.
Qed.

Lemma zip_with_snoc_reverse (cols : list (list A)) r :
  zip_with (fun col a => col ++ [a]) (reverse <$> cols) r =
  reverse <$> zip_with cons r cols.
Proof.
  revert r. induction cols as [|col cols IH]; intros [|a r]; simpl; try done.
  by rewrite IH, reverse_cons.
Qed.

(** The columns of the rows in reverse order are the columns, each in
    reverse order. *)
Lemma zip_star_reverse m : zip_star (reverse m) = reverse <$> zip_star m.
Proof.
  induction m as [|r m IH]; [done|]. rewrite reverse_cons.
  destruct m as [|r1 m].
  - change (zip_star (reverse [] ++ [r])) with ((fun a => [a]) <$> r).
    change (zip_star [r]) with ((fun a => [a]) <$> r).
    rewrite <- list_fmap_compose. by apply list_fmap_ext.
  - rewrite zip_star_snoc.
    + rewrite IH. apply zip_with_snoc_reverse.
    + rewrite reverse_cons. by destruct (reverse m).
Qed.

Lemma fmap_reverse_rect hh ww m :
  rect hh ww m → rect hh ww (reverse <$> m).
Proof.
  intros [Hl Hrows]. split; [by rewrite length_fmap|].
  apply Forall_fmap. eapply Forall_impl; [done|].
  intros r Hr. simpl. by rewrite length_reverse.
Qed.

Lemma zip_star_fmap_reverse hh ww m :
  rect hh ww m → (0 < hh)%nat → (0 < ww)%nat →
  zip_star (reverse <$> m) = reverse (zip_star m).
Proof.
  intros Hm Hh Hw.
  pose proof (zip_star_rect _ _ _ Hm Hh) as Ht.
  rewrite <- (zip_star_involutive hh ww m) at 1 by done.
  rewrite <- zip_star_reverse.
  apply (zip_star_involutive ww hh); [by apply rect_reverse|done..].
Qed.

(** Two quarter turns, either way, reverse the rows and each row. *)
Lemma half_turn_cw hh ww m :
  rect hh ww m → (0 < hh)%nat → (0 < ww)%nat →
  zip_star (reverse (zip_star (reverse m))) = reverse (reverse <$> m).
Proof.
  intros Hm Hh Hw. rewrite (zip_star_reverse m), <- fmap_reverse.
  rewrite (zip_star_fmap_reverse ww hh);
    [|by apply rect_reverse, zip_star_rect|done..].
  rewrite zip_star_reverse. by rewrite (zip_star_involutive hh ww).
Qed.

Lemma half_turn_ccw hh ww m :
  rect hh ww m → (0 < hh)%nat → (0 < ww)%nat →
  reverse (zip_star (reverse (zip_star m))) = reverse (reverse <$> m).
Proof.
  intros Hm Hh Hw. rewrite zip_star_reverse.
  by rewrite (zip_star_involutive hh ww).
Qed.

Lemma half_turn_involutive m :
  reverse (reverse <$> reverse (reverse <$> m)) = m.
Proof.
  rewrite fmap_reverse, reverse_involutive, <- list_fmap_compose.
  rewrite <- (list_fmap_id m) at 2. apply list_fmap_ext.
  intros _ r _. simpl. apply reverse_involutive.
Qed.

End rotation_more.

Lemma half_turned_wf p : Piece.wf p → Piece.wf (half_turned p).
Proof.
  intros (Hm & Hh & Hw). split_and!; [|done..]. simpl.
  by apply rect_reverse, fmap_reverse_rect.
Qed.

Lemma half_turned_twice p : half_turned (half_turned p) = p.
Proof.
  destruct p as [s m hh ww px py]. unfold half_turned, Piece.with_matrix.
  simpl. by rewrite half_turn_involutive.
Qed.

Lemma rotate_twice p :
  Piece.wf p → repeat_call Piece.rotate 2 p = Done (half_turned p).
Proof.
  intros Hp. pose proof Hp as (Hm & Hh & Hw). simpl.
  rewrite rotate_wf by done. simpl.
  rewrite rotate_wf by (by eapply rotate_preserves_wf, rotate_wf). simpl.
  rewrite (half_turn_cw (Piece.h p) (Piece.w p)) by done. by destruct p.
Qed.

Lemma rotate_ccw_twice p :
  Piece.wf p → repeat_call Piece.rotate_ccw 2 p = Done (half_turned p).
Proof.
  intros Hp. pose proof Hp as (Hm & Hh & Hw). simpl.
  rewrite rotate_ccw_wf by done. simpl.
  rewrite rotate_ccw_wf
    by (by eapply rotate_ccw_preserves_wf, rotate_ccw_wf). simpl.
  rewrite (half_turn_ccw (Piece.h p) (Piece.w p)) by done. by destruct p.
Qed.

Lemma repeat_call_add {A} (f : A → result A) (n k : nat) (a b : A) :
  repeat_call f n a = Done b →
  repeat_call f (n + k) a = repeat_call f k b.
Proof.
  revert a. induction n as [|n IH]; intros a; simpl.
  - by intros [= ->].
  - intros H. inv_bind H. rewrite Ha. simpl. by apply IH.
Qed.

(** X1: on a piece whose matrix is a non-empty [h] by [w] rectangle, two
    calls of [rotate] and two calls of [rotate_ccw] give the same piece,
    the one turned by half a turn, and four calls of either give the
    piece back as it was. *)
Theorem rotate_four_times (p : Piece.t) :
  Piece.wf p →
  repeat_call Piece.rotate 2 p = Done (half_turned p) ∧
  repeat_call Piece.rotate_ccw 2 p = Done (half_turned p) ∧
  repeat_call Piece.rotate 4 p = Done p ∧
  repeat_call Piece.rotate_ccw 4 p = Done p.
Proof.
  intros Hp. pose proof (half_turned_wf p Hp) as Hh.
  split; [by apply rotate_twice|]. split; [by apply rotate_ccw_twice|].
  split.
  - rewrite (repeat_call_add _ 2 2 p (half_turned p)) by by apply rotate_twice.
    rewrite rotate_twice by done. by rewrite half_turned_twice.
  - rewrite (repeat_call_add _ 2 2 p (half_turned p))
      by by apply rotate_ccw_twice.
    rewrite rotate_ccw_twice by done. by rewrite half_turned_twice.
Qed.

Lemma rotate_four_times_witness :
  Piece.wf piece_L ∧
  repeat_call Piece.rotate 2 piece_L
    = Done (Piece.with_matrix [[0;0;0]; [1;1;1]; [1;0;0]] piece_L) ∧
  repeat_call Piece.rotate 4 piece_L = Done piece_L.
Proof.
  split; [exact piece_L_wf|].
  destruct (rotate_four_times piece_L piece_L_wf) as (H2 & _ & H4 & _).
  split; [exact H2|exact H4].
Defined.

(** ** Rotating a matrix that is not a rectangle *)

Lemma zip_star_nil {A} (m : list (list A)) :
  zip_star m = [] ↔ m = [] ∨ [] ∈ m.
Proof.
  induction m as [|r m IH]; [by split; [left|]|].
  destruct m as [|r1 m].
  - simpl. split.
    + intros Hr%fmap_nil_inv. right. subst. by left.
    + intros [?|Hin]; [done|]. apply list_elem_of_singleton in Hin.
      by subst.
  - change (zip_star (r :: r1 :: m))
      with (zip_with cons r (zip_star (r1 :: m))).
    split.
    + intros Hz. right. destruct r as [|a r]; [by left|].
      right. assert (zip_star (r1 :: m) = []) as Hcols.
      { by destruct (zip_star (r1 :: m)). }
      apply IH in Hcols as [?|?]; done.
    + intros [?|[<-|Hin]%elem_of_cons]; [done|done|].
      assert (zip_star (r1 :: m) = []) as -> by (apply IH; by right).
      by destruct r.
Qed.

Lemma zip_star_cols {A} (m : list (list A)) :
  Forall (fun col => length col = length m) (zip_star m).
Proof.
  induction m as [|r m IH]; [by constructor|]. destruct m as [|r1 m].
  - simpl. apply Forall_fmap. by apply Forall_true.
  - change (zip_star (r :: r1 :: m))
      with (zip_with cons r (zip_star (r1 :: m))).
    by apply zip_with_cons_rows.
Qed.

Lemma zip_star_shortest {A} (m : list (list A)) (r : list A) :
  r ∈ m → (length (zip_star m) ≤ length r)%nat.
Proof.
  induction m as [|r0 m IH]; [by intros ?%elem_of_nil|].
  destruct m as [|r1 m].
  - intros ->%list_elem_of_singleton. simpl. by rewrite length_fmap.
  - change (zip_star (r0 :: r1 :: m))
      with (zip_with cons r0 (zip_star (r1 :: m))).
    rewrite length_zip_with. intros [->|Hin]%elem_of_cons; [lia|].
    specialize (IH Hin). lia.
Qed.

Lemma set_matrix_nil p : Piece.set_matrix [] p = Raised IndexError.
Proof. done. Qed.

Lemma set_matrix_cons row m p :
  Piece.set_matrix (row :: m) p =
    Done (Piece.mk (Piece.shape p) (row :: m) (length (row :: m))
            (length row) (Piece.x p) (Piece.y p)).
Proof. done. Qed.

(** X2: [rotate] and [rotate_ccw] on any matrix, rectangle or not.  When
    the matrix is empty or has an empty row, both raise [IndexError] (at
    [self.matrix[0]], after the matrix was replaced).  Otherwise both
    return; the new [w] is the number of rows, and the new [h], the same
    for both, is positive and at most the length of every row: longer rows
    are cut. *)
Theorem rotate_any_matrix (p : Piece.t) :
  (Piece.matrix p = [] ∨ [] ∈ Piece.matrix p →
   Piece.rotate p = Raised IndexError ∧
   Piece.rotate_ccw p = Raised IndexError) ∧
  (Piece.matrix p ≠ [] → [] ∉ Piece.matrix p →
   ∃ p1 p2, Piece.rotate p = Done p1 ∧ Piece.rotate_ccw p = Done p2 ∧
     Piece.w p1 = length (Piece.matrix p) ∧
     Piece.w p2 = length (Piece.matrix p) ∧
     Piece.h p1 = Piece.h p2 ∧ (0 < Piece.h p1)%nat ∧
     ∀ row, row ∈ Piece.matrix p → (Piece.h p1 ≤ length row)%nat).
Proof.
  set (m := Piece.matrix p).
  assert (length (zip_star (reverse m)) = length (zip_star m)) as Hlen.
  { by rewrite zip_star_reverse, length_fmap. }
  split.
  - intros Hdeg. apply zip_star_nil in Hdeg.
    unfold Piece.rotate, Piece.rotate_ccw. fold m.
    assert (zip_star (reverse m) = []) as ->.
    { apply length_zero_iff_nil. by rewrite Hlen, Hdeg. }
    by rewrite Hdeg.
  - intros Hne Hrows.
    assert (zip_star m ≠ []) as Hz.
    { intros [?|?]%zip_star_nil; done. }
    unfold Piece.rotate, Piece.rotate_ccw. fold m.
    pose proof (zip_star_cols (reverse m)) as Hcw.
    pose proof (zip_star_cols m) as Hccw.
    destruct (zip_star (reverse m)) as [|c1 cols1] eqn:Hcols1.
    { simpl in Hlen. symmetry in Hlen.
      by apply length_zero_iff_nil in Hlen. }
    destruct (reverse (zip_star m)) as [|c2 cols2] eqn:Hcols2.
    { apply (f_equal length) in Hcols2. rewrite length_reverse in Hcols2.
      by apply length_zero_iff_nil in Hcols2. }
    rewrite !set_matrix_cons. eexists _, _.
    split; [done|]. split; [done|]. simpl.
    apply Forall_cons in Hcw as [Hc1 _].
    assert (c2 ∈ zip_star m) as Hc2.
    { apply elem_of_reverse. rewrite Hcols2. by left. }
    rewrite Forall_forall in Hccw. apply Hccw in Hc2.
    rewrite length_reverse in Hc1.
    assert (Datatypes.S (length cols2) = length (zip_star m)) as Hl2.
    { by rewrite <- (length_reverse (zip_star m)), Hcols2. }
    simpl in Hlen. split_and!; [done|done|lia|lia|].
    intros row Hrow. pose proof (zip_star_shortest m row Hrow). lia.
Qed.

Lemma rotate_any_matrix_witness :
  Piece.rotate (Piece.with_matrix [[1; 1]; []] piece_L) = Raised IndexError ∧
  ∃ p1, Piece.rotate (Piece.with_matrix [[1; 0; 1]; [1; 1]] piece_L)
          = Done p1 ∧ Piece.h p1 = 2%nat ∧ Piece.w p1 = 2%nat.
Proof.
  split.
  - apply (proj1 (rotate_any_matrix (Piece.with_matrix [[1; 1]; []] piece_L))).
    right. simpl. right. left.
  - destruct (proj2 (rotate_any_matrix
        (Piece.with_matrix [[1; 0; 1]; [1; 1]] piece_L)))
      as (p1 & p2 & H1 & _); [done| |].
    + simpl. intros Hin. repeat (apply elem_of_cons in Hin as [Hin|Hin];
        [discriminate Hin|]). by apply elem_of_nil in Hin.
    + exists p1. split; [exact H1|]. injection H1 as <-. by split.
Defined.

(** ** New pieces and the start of a game *)

Lemma assoc_None {V} (k : string) (d : list (string * V)) :
  k ∉ d.*1 → assoc k d = None.
Proof.
  induction d as [|[k' v] d IH]; simpl; [done|]. intros Hk.
  destruct (String.eqb_spec k k') as [->|_].
  - destruct Hk. by left.
  - apply IH. intros Hin. apply Hk. by right.
Qed.

(** A piece just built lies within the columns of the board and fits on
    the empty board. *)
Lemma new_fits (s : string) (p : Piece.t) :
  Piece.new s = Done p →
  assoc s TETROMINOES = Some (Piece.matrix p) ∧
  Piece.h p = Piece.w p ∧
  Piece.x p = (BOARD_WIDTH - Z.of_nat (Piece.w p)) / 2 ∧
  0 ≤ Piece.x p ∧ Piece.x p + Z.of_nat (Piece.w p) ≤ BOARD_WIDTH ∧
  Game.valid empty_board p None None = Done true.
Proof.
  unfold Piece.new, TETROMINOES_get. intros H.
  destruct (assoc s TETROMINOES) as [m|] eqn:Hm; [|done].
  pose proof Hm as Hin. apply assoc_Some in Hin. simpl in H.
  repeat (apply elem_of_cons in Hin as [[= -> ->]|Hin];
    [injection H as <-; by vm_compute|]).
  by apply elem_of_nil in Hin.
Qed.

(** X3: [Piece(shape)] raises [KeyError] for a name that is not in the
    catalog.  For a catalog name it returns a piece of that shape whose
    matrix is the catalog's, square, at [y = 0] and
    [x = (BOARD_WIDTH - w) // 2]; the piece lies within the columns of
    the board and is valid on the empty board. *)
Theorem new_piece_spec (s : string) :
  (s ∉ TETROMINOES_keys → Piece.new s = Raised KeyError) ∧
  (s ∈ TETROMINOES_keys →
   ∃ p, Piece.new s = Done p ∧ Piece.shape p = s ∧
     assoc s TETROMINOES = Some (Piece.matrix p) ∧
     rect (Piece.h p) (Piece.w p) (Piece.matrix p) ∧
     Piece.h p = Piece.w p ∧
     Piece.x p = (BOARD_WIDTH - Z.of_nat (Piece.w p)) / 2 ∧
     Piece.y p = 0 ∧
     0 ≤ Piece.x p ∧ Piece.x p + Z.of_nat (Piece.w p) ≤ BOARD_WIDTH ∧
     Game.valid empty_board p None None = Done true).
Proof.
  split.
  - intros Hs. unfold Piece.new, TETROMINOES_get.
    by rewrite (assoc_None s TETROMINOES Hs).
  - intros Hs. destruct (new_key s Hs) as [p Hp]. exists p.
    destruct (new_Done s p Hp) as (Hshape & (Hm & _) & _ & _ & Hy).
    destruct (new_fits s p Hp) as (Hcat & Hsq & Hx & Hx0 & Hx1 & Hv).
    by split_and!.
Qed.

Lemma new_piece_spec_witness :
  ("X"%string ∉ TETROMINOES_keys) ∧ Piece.new "X" = Raised KeyError ∧
  ("I"%string ∈ TETROMINOES_keys) ∧
  ∃ p, Piece.new "I" = Done p ∧ Piece.x p = 3 ∧ Piece.w p = 4%nat.
Proof.
  assert ("X"%string ∉ TETROMINOES_keys) as HX.
  { intros Hin. repeat (apply elem_of_cons in Hin as [Hin|Hin];
      [discriminate Hin|]). by apply elem_of_nil in Hin. }
  assert ("I"%string ∈ TETROMINOES_keys) as HI by (by left).
  split; [exact HX|]. split; [exact (proj1 (new_piece_spec "X") HX)|].
  split; [exact HI|].
  destruct (proj2 (new_piece_spec "I") HI) as (p & Hp & _).
  exists p. split; [exact Hp|]. injection Hp as <-. by split.
Defined.

Lemma next_piece_snoc_new shuffle (bag bag' : list string) (s : string)
    (p : Piece.t) :
  Game.next_piece shuffle (bag ++ [s]) = Done (p, bag') →
  Piece.new s = Done p ∧ bag' = bag.
Proof.
  unfold Game.next_piece. destruct (bag ++ [s]) as [|s' l] eqn:Hb.
  { by destruct bag. }
  rewrite <- Hb, pop_snoc. simpl. intros H. inv_bind H.
  by injection H as <- <-.
Qed.

(** X4: for any shuffle that permutes the bag, [Game.__init__] returns a
    game with the empty board, score and lines 0, level 1, delay 1.0, no
    flag set and the clock stored.  The current piece has the last name
    of the shuffled bag, the next piece the one before it, and the bag
    keeps the other five in order: the seven catalog names are shared out,
    each once.  The current piece is valid where it stands. *)
Theorem init_spec (shuffle : list string → list string) (now : float) :
  is_shuffle shuffle →
  ∃ g, Game.init shuffle now = Done g ∧
    Game.board g = empty_board ∧ Game.score g = 0 ∧ Game.lines g = 0 ∧
    Game.level g = 1 ∧ Game.drop_delay g = 1%float ∧
    Game.game_over g = false ∧ Game.paused g = false ∧
    Game.last_drop g = now ∧
    Game.bag g ++ [Piece.shape (Game.next g); Piece.shape (Game.current g)]
      = shuffle TETROMINOES_keys ∧
    Piece.shape (Game.current g) :: Piece.shape (Game.next g) :: Game.bag g
      ≡ₚ TETROMINOES_keys ∧
    length (Game.bag g) = 5%nat ∧
    Game.valid (Game.board g) (Game.current g) None None = Done true.
Proof.
  intros Hsh. pose proof (Hsh TETROMINOES_keys) as Hperm.
  destruct (shuffle_keys shuffle Hsh) as (b1 & s1 & Hl & Hall).
  assert (length b1 = 6%nat) as Hlen1.
  { apply Permutation_length in Hperm. rewrite Hl, length_app in Hperm.
    simpl in Hperm. lia. }
  destruct b1 as [|s0 b0] using rev_ind; [done|]. clear IHb0.
  rewrite length_app in Hlen1. simpl in Hlen1.
  apply Forall_app in Hall as [Hall Hs1]. rewrite Forall_singleton in Hs1.
  apply Forall_app in Hall as [_ Hs0]. rewrite Forall_singleton in Hs0.
  destruct (next_piece_snoc shuffle (b0 ++ [s0]) s1 Hs1)
    as (cur & Hcur & Hshape1 & _).
  destruct (next_piece_snoc shuffle b0 s0 Hs0) as (nxt & Hnxt & Hshape0 & _).
  pose proof (next_piece_snoc_new _ _ _ _ _ Hcur) as [Hnew _].
  exists (Game.mk empty_board 0 0 1 1%float b0 cur nxt false false now).
  split.
  - unfold Game.init. rewrite next_piece_nil, Hl, Hcur. simpl.
    by rewrite Hnxt.
  - simpl. split_and!; try done.
    + rewrite Hshape0, Hshape1, Hl. by rewrite <- app_assoc.
    + rewrite <- Hperm, Hl, Hshape0, Hshape1.
      rewrite <- app_assoc. simpl.
      rewrite (Permutation_app_comm b0 [s0; s1]). simpl. apply perm_swap.
    + lia.
    + by apply (new_fits s1 cur Hnew).
Qed.

Lemma init_spec_witness :
  is_shuffle id ∧ Game.init id 0%float = Done game0.
Proof.
  assert (is_shuffle id) as Hsh by (by intros l).
  split; [exact Hsh|].
  destruct (init_spec id 0%float Hsh) as (g & Hg & _).
  rewrite Hg. f_equal. vm_compute in Hg. by injection Hg as <-.
Defined.

(** ** The shape of every operation *)

Lemma is_shuffle_id : is_shuffle id.
Proof. by intros l. Qed.

Lemma frame_refl g : frame g g.
Proof. unfold frame. split_and!; try done. Qed.

Lemma frame_trans g1 g2 g3 : frame g1 g2 → frame g2 g3 → frame g1 g3.
Proof.
  unfold frame. intros (? & ? & ? & ? & ? & ? & ? & ?)
    (? & ? & ? & ? & ? & ? & ? & ?).
  split_and!; try congruence. lia.
Qed.

(** What a call of [lock_piece] that returned has done. *)
Lemma lock_piece_Done shuffle (g g' : Game.t) (piece : Piece.t) :
  Game.lock_piece shuffle g piece = Done g' →
  ∃ b1 g1 nxt bag' v,
    Game.lock_write piece (Game.board g) = Done b1 ∧
    Game.clear_lines (Game.with_board b1 g) = Done g1 ∧
    Game.next_piece shuffle (Game.bag g) = Done (nxt, bag') ∧
    Game.valid (Game.board g1) (Game.next g) None None = Done v ∧
    g' = Game.mk (Game.board g1) (Game.score g1) (Game.lines g1)
           (Game.level g1) (Game.drop_delay g1) bag' (Game.next g) nxt
           (Game.game_over g || negb v) (Game.paused g) (Game.last_drop g).
Proof.
  unfold Game.lock_piece. intros H. inv_bind H. inv_bind H.
  destruct (clear_lines_Done _ _ Ha0)
    as (Hbag & _ & Hnext & Hover & Hp & Hl & _).
  simpl in *. inv_bind H. destruct a1 as [nxt bag']. inv_bind H.
  exists a, a0, nxt, bag', a1. rewrite Hbag in Ha1. rewrite Hnext in Ha2.
  split_and!; try done.
  unfold Game.with_game_over, Game.with_next, Game.with_bag,
    Game.with_current in H. simpl in H.
  rewrite Hover, Hp, Hl, Hnext in H.
  destruct a1, (Game.game_over g); simpl in *; by injection H as <-.
Qed.

Lemma hard_drop_loop_frame (fuel : nat) (g g' : Game.t) :
  Game.hard_drop_loop fuel g = Done g' → frame g g'.
Proof.
  revert g. induction fuel as [|fuel IH]; intros g H; [done|].
  simpl in H. inv_bind H. destruct a.
  - apply IH in H. eapply frame_trans; [|done].
    unfold frame. simpl. split_and!; try done. lia.
  - injection H as <-. apply frame_refl.
Qed.

Lemma rotate_current_frame (ccw : bool) (g g' : Game.t) :
  Game.rotate_current ccw g = Done g' →
  frame g g' ∧ Game.score g' = Game.score g ∧
  Game.paused g' = Game.paused g ∧ Game.last_drop g' = Game.last_drop g.
Proof.
  unfold Game.rotate_current. intros H. inv_bind H. inv_bind H.
  destruct a0 as [g1|]; injection H as <-.
  - apply for_return_Done in Ha0.
    destruct Ha0 as (pre & dx & post & _ & _ & Hdx). inv_bind Hdx.
    destruct a0; [|done]. injection Hdx as <-.
    unfold frame. simpl. split_and!; try done.
  - unfold frame. simpl. split_and!; try done.
Qed.

(** Every operation that returns has either left the board, the counters
    but the score, the bag and the next piece alone, or has done so up to
    one call of [lock_piece] on the current piece. *)
Lemma run_op_shape (fuel : nat) shuffle (o : op) (g g' : Game.t) :
  run_op fuel shuffle o g = Done g' →
  ∃ g1, frame g g1 ∧ (state_ok g → state_ok g1) ∧
    (g' = g1 ∨
     ∃ g2, Game.lock_piece shuffle g1 (Game.current g1) = Done g2 ∧
       frame g2 g').
Proof.
  intros Hrun. destruct o as [dx| | |ccw|now|]; simpl in Hrun.
  - exists g'. split; [|split; [|by left]].
    + unfold Game.move_current in Hrun. inv_bind Hrun.
      destruct a; injection Hrun as <-; [|apply frame_refl].
      unfold frame. simpl. split_and!; try done.
    + intros Hg.
      by apply (run_op_ok fuel id (MoveCurrent dx) g g' is_shuffle_id).
  - unfold Game.soft_drop in Hrun. inv_bind Hrun. destruct a.
    + injection Hrun as <-. eexists. split; [|split; [|by left]].
      * unfold frame. simpl. split_and!; try done. lia.
      * intros Hg. apply state_ok_descend in Hg.
        destruct Hg as (? & ? & ? & ? & ?). by split_and!.
    + exists g. split; [apply frame_refl|]. split; [done|].
      right. exists g'. split; [done|apply frame_refl].
  - unfold Game.hard_drop in Hrun. inv_bind Hrun. exists a.
    split; [by eapply hard_drop_loop_frame|].
    split; [intros Hg; by eapply hard_drop_loop_ok|].
    right. exists g'. split; [done|apply frame_refl].
  - exists g'. split; [by eapply rotate_current_frame|].
    split; [|by left].
    intros Hg.
    by apply (run_op_ok fuel id (RotateCurrent ccw) g g' is_shuffle_id).
  - unfold Game.step in Hrun.
    destruct (Game.paused g || Game.game_over g).
    { injection Hrun as <-. exists g.
      split; [apply frame_refl|]. split; [done|by left]. }
    destruct (_ <=? _)%float.
    2:{ injection Hrun as <-. exists g.
        split; [apply frame_refl|]. split; [done|by left]. }
    inv_bind Hrun. inv_bind Hrun. injection Hrun as <-. destruct a.
    + injection Ha0 as <-. eexists. split; [|split; [|by left]].
      * unfold frame. simpl. split_and!; try done.
      * intros Hg. apply state_ok_descend in Hg.
        destruct Hg as (? & ? & ? & ? & ?). by split_and!.
    + exists g. split; [apply frame_refl|]. split; [done|].
      right. exists a0. split; [done|].
      unfold frame. simpl. split_and!; try done.
  - injection Hrun as <-. eexists. split; [|split; [|by left]].
    + unfold frame. simpl. split_and!; try done.
    + intros (? & ? & ? & ? & ?). by split_and!.
Qed.

(** ** What operations never undo *)

(** X5: no operation clears [game_over]: when it is set before a call of
    [move_current], [soft_drop], [hard_drop], [rotate_current], [step] or
    the pause toggle, it is set in the game the call returns, and so it is
    after a call of [lock_piece]. *)
Theorem game_over_stays (fuel : nat) (shuffle : list string → list string)
    (o : op) (g g' : Game.t) :
  Game.game_over g = true →
  (run_op fuel shuffle o g = Done g' → Game.game_over g' = true) ∧
  (∀ piece, Game.lock_piece shuffle g piece = Done g' →
     Game.game_over g' = true).
Proof.
  intros Hover.
  assert (∀ g1 g2 piece, Game.game_over g1 = true →
            Game.lock_piece shuffle g1 piece = Done g2 →
            Game.game_over g2 = true) as Hlock.
  { intros g1 g2 piece H1 Hl.
    apply lock_piece_Done in Hl as (b1 & ga & nxt & bag' & v & _ & _ & _ & _ & ->).
    simpl. by rewrite H1. }
  split; [|intros piece; by apply Hlock].
  intros Hrun.
  apply run_op_shape in Hrun as (g1 & Hf & _ & [->|(g2 & Hl & Hf2)]).
  - destruct Hf as (_ & _ & _ & _ & _ & _ & -> & _). done.
  - destruct Hf as (_ & _ & _ & _ & _ & _ & H1 & _).
    destruct Hf2 as (_ & _ & _ & _ & _ & _ & -> & _).
    apply (Hlock g1 g2 (Game.current g1)); [by rewrite H1|done].
Qed.

Lemma game_over_stays_witness :
  Game.game_over game_lost = true ∧
  ∃ g', run_op 30 id HardDrop game_lost = Done g' ∧
        Game.game_over g' = true.
Proof.
  split; [reflexivity|].
  assert (∃ g', run_op 30 id HardDrop game_lost = Done g') as [g' Hg'].
  { eexists. vm_compute. reflexivity. }
  exists g'. split; [exact Hg'|].
  exact (proj1 (game_over_stays 30 id HardDrop game_lost g' eq_refl) Hg').
Defined.

Lemma clear_lines_counters (g g' : Game.t) :
  length (Game.board g) = Z.to_nat BOARD_HEIGHT →
  1 ≤ Game.level g → 0 ≤ Game.lines g →
  Game.clear_lines g = Done g' →
  Game.lines g ≤ Game.lines g' ∧ Game.score g ≤ Game.score g' ∧
  (Game.level g = 1 + Game.lines g / 10 → Game.level g ≤ Game.level g').
Proof.
  intros Hlen Hlev Hlines. unfold Game.clear_lines.
  rewrite (cleared_count _ Hlen).
  set (cleared := Z.of_nat (length (List.filter full_row (Game.board g)))).
  assert (0 ≤ cleared) as Hc by lia.
  destruct (cleared =? 0).
  - intros [= <-]. lia.
  - intros H. inv_bind H. injection H as <-. simpl.
    split; [lia|]. split; [nia|]. intros ->.
    apply Zplus_le_compat_l, Z.div_le_mono; lia.
Qed.

Lemma frame_counters (g g' : Game.t) :
  frame g g' →
  Game.lines g' = Game.lines g ∧ Game.level g' = Game.level g ∧
  Game.score g ≤ Game.score g'.
Proof. by intros (_ & ? & ? & _ & _ & _ & _ & ?). Qed.

Lemma lock_piece_counters shuffle (g g' : Game.t) :
  state_ok g → 0 ≤ Game.lines g →
  Game.lock_piece shuffle g (Game.current g) = Done g' →
  Game.lines g ≤ Game.lines g' ∧ Game.score g ≤ Game.score g' ∧
  Game.level g ≤ Game.level g'.
Proof.
  intros (Hb & _ & ((Hm & _) & Hs & _) & _ & Hlev & _) Hlines Hl.
  apply lock_piece_Done in Hl
    as (b1 & g1 & nxt & bag' & v & Hw & Hcl & _ & _ & ->). simpl.
  destruct (lock_write_spec _ _ Hb Hm Hs) as (b1' & Hw' & [[Hlen _] _] & _).
  rewrite Hw in Hw'. injection Hw' as <-.
  assert (1 ≤ Game.level g) as Hl1.
  { rewrite Hlev. pose proof (Z.div_pos (Game.lines g) 10). lia. }
  destruct (clear_lines_counters (Game.with_board b1 g) g1 Hlen Hl1 Hlines
              Hcl) as (? & ? & Hlv).
  split_and!; [done..|]. by apply Hlv.
Qed.

(** The counters of a game before and after an operation. *)
Lemma run_op_counters (fuel : nat) shuffle (o : op) (g g' : Game.t) :
  state_ok g → 0 ≤ Game.lines g →
  run_op fuel shuffle o g = Done g' →
  Game.lines g ≤ Game.lines g' ∧ Game.score g ≤ Game.score g' ∧
  Game.level g ≤ Game.level g'.
Proof.
  intros Hg Hlines Hrun.
  apply run_op_shape in Hrun as (g1 & Hf & Hok & [->|(g2 & Hl & Hf2)]);
    apply frame_counters in Hf as (Hl1 & Hv1 & Hs1).
  - lia.
  - apply frame_counters in Hf2 as (Hl2 & Hv2 & Hs2).
    apply lock_piece_counters in Hl; [|by apply Hok|lia]. lia.
Qed.

Lemma reachable_lines (g : Game.t) :
  reachable g → 0 ≤ Game.lines g ∧ 0 ≤ Game.score g.
Proof.
  induction 1 as [shuffle now g Hsh Hinit|fuel shuffle o g g' Hsh Hg IH Hrun].
  - unfold Game.init in Hinit. inv_bind Hinit. destruct a.
    inv_bind Hinit. destruct a. by injection Hinit as <-.
  - destruct IH as [Hl Hs].
    pose proof (run_op_counters fuel shuffle o g g' (reachable_ok g Hg) Hl Hrun).
    lia.
Qed.

(** X6: in every reachable game the score and the line count are not
    negative and the level is at least 1; and no operation on a reachable
    game lowers the score, the line count or the level. *)
Theorem counters_never_fall (fuel : nat) (shuffle : list string → list string)
    (o : op) (g g' : Game.t) :
  reachable g →
  0 ≤ Game.score g ∧ 0 ≤ Game.lines g ∧ 1 ≤ Game.level g ∧
  (run_op fuel shuffle o g = Done g' →
   Game.score g ≤ Game.score g' ∧ Game.lines g ≤ Game.lines g' ∧
   Game.level g ≤ Game.level g').
Proof.
  intros Hg. destruct (reachable_lines g Hg) as [Hl Hs].
  pose proof (reachable_ok g Hg) as Hok.
  split; [done|]. split; [done|]. split.
  - destruct Hok as (_ & _ & _ & _ & -> & _).
    pose proof (Z.div_pos (Game.lines g) 10). lia.
  - intros Hrun.
    destruct (run_op_counters fuel shuffle o g g' Hok Hl Hrun) as (? & ? & ?).
    done.
Qed.

Lemma counters_never_fall_witness :
  reachable game0 ∧
  ∃ g', run_op 30 id HardDrop game0 = Done g' ∧
        Game.score game0 ≤ Game.score g' ∧ Game.score g' = 36.
Proof.
  split; [exact game0_reachable|].
  assert (∃ g', run_op 30 id HardDrop game0 = Done g') as [g' Hg'].
  { eexists. vm_compute. reflexivity. }
  exists g'. split; [exact Hg'|].
  destruct (counters_never_fall 30 id HardDrop game0 g' game0_reachable)
    as (_ & _ & _ & Hmono).
  split; [exact (proj1 (Hmono Hg'))|].
  vm_compute in Hg'. by injection Hg' as <-.
Defined.

(** ** Full rows *)

Lemma empty_row_not_full : full_row empty_row = false.
Proof. reflexivity. Qed.

Lemma clear_lines_no_full (g g' : Game.t) :
  length (Game.board g) = Z.to_nat BOARD_HEIGHT →
  Game.clear_lines g = Done g' → no_full_row (Game.board g').
Proof.
  intros Hlen. unfold Game.clear_lines, no_full_row.
  rewrite (cleared_count _ Hlen).
  destruct (Z.eqb_spec
    (Z.of_nat (length (List.filter full_row (Game.board g)))) 0)
    as [Hz|Hnz].
  - intros [= <-].
    pose proof (List.filter_length full_row (Game.board g)) as Hsum.
    assert (forallb (fun row => negb (full_row row)) (Game.board g) = true)
      as Hall.
    { apply List.filter_length_forallb. lia. }
    rewrite forallb_forall in Hall. apply Forall_forall.
    intros row Hrow%list_elem_of_In. apply Hall in Hrow.
    by destruct (full_row row).
  - intros H. inv_bind H. injection H as <-. simpl.
    rewrite iter_cons_replicate. apply Forall_app. split.
    + apply Forall_replicate. apply empty_row_not_full.
    + apply Forall_forall. intros row Hrow%list_elem_of_In.
      apply List.filter_In in Hrow as [_ Hrow].
      rewrite existsb_zero_not_full in Hrow. by destruct (full_row row).
Qed.

Lemma no_full_row_count (b : list (list cell)) :
  no_full_row b → List.filter full_row b = [].
Proof.
  induction 1 as [|row b Hrow _ IH]; simpl; [done|]. by rewrite Hrow.
Qed.

Lemma lock_piece_no_full shuffle (g g' : Game.t) :
  state_ok g →
  Game.lock_piece shuffle g (Game.current g) = Done g' →
  no_full_row (Game.board g').
Proof.
  intros (Hb & _ & ((Hm & _) & Hs & _) & _) Hl.
  apply lock_piece_Done in Hl
    as (b1 & g1 & nxt & bag' & v & Hw & Hcl & _ & _ & ->). simpl.
  destruct (lock_write_spec _ _ Hb Hm Hs) as (b1' & Hw' & [[Hlen _] _] & _).
  rewrite Hw in Hw'. injection Hw' as <-.
  by apply (clear_lines_no_full (Game.with_board b1 g) g1 Hlen Hcl).
Qed.

Lemma reachable_no_full (g : Game.t) :
  reachable g → no_full_row (Game.board g).
Proof.
  induction 1 as [shuffle now g Hsh Hinit|fuel shuffle o g g' Hsh Hg IH Hrun].
  - unfold Game.init in Hinit. inv_bind Hinit. destruct a.
    inv_bind Hinit. destruct a. injection Hinit as <-.
    unfold no_full_row. simpl. repeat constructor.
  - apply run_op_shape in Hrun as (g1 & Hf & Hok & [->|(g2 & Hl & Hf2)]).
    + destruct Hf as (-> & _). done.
    + destruct Hf2 as (-> & _).
      eapply lock_piece_no_full; [|done]. apply Hok. by apply reachable_ok.
Qed.

(** X7: on a board of [BOARD_HEIGHT] rows, the board that [clear_lines]
    leaves has no full row, and a second call of [clear_lines] changes
    nothing; and the board of every reachable game has no full row. *)
Theorem no_full_row_left :
  (∀ g g', length (Game.board g) = Z.to_nat BOARD_HEIGHT →
     Game.clear_lines g = Done g' →
     no_full_row (Game.board g') ∧ Game.clear_lines g' = Done g') ∧
  (∀ g, reachable g → no_full_row (Game.board g)).
Proof.
  split; [|apply reachable_no_full].
  intros g g' Hlen Hcl.
  pose proof (clear_lines_no_full g g' Hlen Hcl) as Hnf.
  split; [done|].
  assert (length (Game.board g') = Z.to_nat BOARD_HEIGHT) as Hlen'.
  { revert Hcl. unfold Game.clear_lines.
    pose proof (List.filter_length_le (existsb cell_is_zero) (Game.board g)).
    destruct (_ =? 0); [by intros [= <-]|].
    intros H'. inv_bind H'. injection H' as <-. simpl.
    rewrite iter_cons_replicate, length_app, length_replicate.
    unfold BOARD_HEIGHT in *. lia. }
  unfold Game.clear_lines. rewrite (cleared_count _ Hlen').
  by rewrite (no_full_row_count _ Hnf).
Qed.

Lemma no_full_row_left_witness :
  length (Game.board game_line) = Z.to_nat BOARD_HEIGHT ∧
  Game.clear_lines game_line
    = Done (Game.with_score 100 (Game.with_lines 1 game0)) ∧
  Game.clear_lines (Game.with_score 100 (Game.with_lines 1 game0))
    = Done (Game.with_score 100 (Game.with_lines 1 game0)).
Proof.
  assert (Game.clear_lines game_line
    = Done (Game.with_score 100 (Game.with_lines 1 game0))) as Hcl
    by reflexivity.
  split; [reflexivity|]. split; [exact Hcl|].
  exact (proj2 (proj1 no_full_row_left game_line
                  (Game.with_score 100 (Game.with_lines 1 game0))
                  eq_refl Hcl)).
Defined.

(** ** The current piece stays on free cells *)

Lemma lock_piece_playable shuffle (g g' : Game.t) (piece : Piece.t) :
  Game.lock_piece shuffle g piece = Done g' → playable g'.
Proof.
  intros Hl. apply lock_piece_Done in Hl
    as (b1 & g1 & nxt & bag' & v & _ & _ & _ & Hv & ->).
  unfold playable. simpl. intros Hover.
  destruct v; [done|]. by rewrite orb_true_r in Hover.
Qed.

Lemma descend_playable (g : Game.t) :
  Game.valid (Game.board g) (Game.current g) None
    (Some (Piece.y (Game.current g) + 1)) = Done true →
  playable (Game.descend g).
Proof. intros Hv _. exact Hv. Qed.

Lemma rotate_restore (ccw : bool) (p p' : Piece.t) :
  (if ccw then Piece.rotate_ccw p else Piece.rotate p) = Done p' →
  Piece.with_h (Piece.h p)
    (Piece.with_w (Piece.w p) (Piece.with_matrix (Piece.matrix p) p')) = p.
Proof.
  intros Hrot.
  assert (∃ m, Piece.set_matrix m p = Done p') as [m Hm].
  { destruct ccw; eexists; exact Hrot. }
  unfold Piece.set_matrix in Hm. inv_bind Hm. injection Hm as <-.
  by destruct p.
Qed.

Lemma run_op_playable (fuel : nat) shuffle (o : op) (g g' : Game.t) :
  playable g → run_op fuel shuffle o g = Done g' → playable g'.
Proof.
  intros Hg Hrun. destruct o as [dx| | |ccw|now|]; simpl in Hrun.
  - unfold Game.move_current in Hrun. inv_bind Hrun.
    destruct a; injection Hrun as <-; [|done]. intros _. exact Ha.
  - unfold Game.soft_drop in Hrun. inv_bind Hrun. destruct a.
    + injection Hrun as <-. intros _. exact Ha.
    + by eapply lock_piece_playable.
  - unfold Game.hard_drop in Hrun. inv_bind Hrun.
    by eapply lock_piece_playable.
  - unfold Game.rotate_current in Hrun. inv_bind Hrun. inv_bind Hrun.
    destruct a0 as [g1|]; injection Hrun as <-.
    + apply for_return_Done in Ha0.
      destruct Ha0 as (pre & dx & post & _ & _ & Hdx). inv_bind Hdx.
      destruct a0; [|done]. injection Hdx as <-. intros _. exact Ha0.
    + simpl. rewrite (rotate_restore ccw _ _ Ha).
      by destruct g.
  - unfold Game.step in Hrun.
    destruct (Game.paused g || Game.game_over g);
      [by injection Hrun as <-|].
    destruct (_ <=? _)%float; [|by injection Hrun as <-].
    inv_bind Hrun. inv_bind Hrun. injection Hrun as <-.
    assert (playable a0) as Hp.
    { destruct a.
      - injection Ha0 as <-. by apply descend_playable.
      - by eapply lock_piece_playable. }
    exact Hp.
  - injection Hrun as <-. exact Hg.
Qed.

Lemma init_playable shuffle (now : float) (g : Game.t) :
  Game.init shuffle now = Done g → playable g.
Proof.
  unfold Game.init. intros H. inv_bind H. destruct a as [cur bag1].
  inv_bind H. destruct a as [nxt bag2]. injection H as <-. intros _. simpl.
  unfold Game.next_piece in Ha. inv_bind Ha. destruct a as [s b].
  inv_bind Ha. injection Ha as <- _.
  by apply (new_fits s a).
Qed.

Lemma reachable_playable (g : Game.t) : reachable g → playable g.
Proof.
  induction 1 as [shuffle now g Hsh Hinit|fuel shuffle o g g' Hsh Hg IH Hrun].
  - by eapply init_playable.
  - by eapply run_op_playable.
Qed.

(** A piece that [valid] accepts has every occupied cell on an empty cell
    of the board. *)
Lemma valid_true_free b (piece : Piece.t) :
  board_ok b →
  rect (Piece.h piece) (Piece.w piece) (Piece.matrix piece) →
  Game.valid b piece None None = Done true →
  ∀ r c, Piece.occupied piece r c →
    in_bounds (Piece.x piece + Z.of_nat c) (Piece.y piece + Z.of_nat r) ∧
    cell_at b (Piece.x piece + Z.of_nat c) (Piece.y piece + Z.of_nat r)
      = Some Zero.
Proof.
  intros Hb Hm Hv r c Hocc. unfold Game.valid in Hv. simpl in Hv.
  destruct (valid_scan b piece (Piece.x piece) (Piece.y piece) Hb Hm)
    as (o & Ho & Hcase & Hiff).
  rewrite Ho in Hv. simpl in Hv.
  assert (o ≠ Some false) as Hno by (by intros ->).
  destruct (occupied_lt piece r c Hm Hocc) as [Hr Hc].
  assert (¬ collides b piece (Piece.x piece) (Piece.y piece) r c) as Hfree.
  { intros Hcol. apply Hno, Hiff. exists r.
    split; [apply elem_of_seq; lia|].
    exists c. split; [apply elem_of_seq; lia|done]. }
  destruct (decide (in_bounds (Piece.x piece + Z.of_nat c)
                      (Piece.y piece + Z.of_nat r))) as [Hin|Hout].
  2:{ destruct Hfree. split; [done|by left]. }
  split; [done|].
  destruct (board_ok_lookup b _ _ Hb Hin)
    as (brow & cl & Hbrow & _ & _ & Hcl & _).
  assert (cell_at b (Piece.x piece + Z.of_nat c) (Piece.y piece + Z.of_nat r)
          = Some cl) as Hat.
  { unfold cell_at. destruct Hin as [Hx Hy].
    replace ((Piece.x piece + Z.of_nat c <? 0)
             || (Piece.y piece + Z.of_nat r <? 0)) with false
      by (symmetry; apply orb_false_intro; lia).
    rewrite Hbrow. simpl. done. }
  rewrite Hat. destruct cl as [|s]; [done|].
  destruct Hfree. split; [done|]. right. by exists (Tag s).
Qed.

(** X8: in every reachable game that is not over, the current piece is
    valid where it stands: each of its occupied cells is on the board and
    on an empty cell. *)
Theorem current_piece_free (g : Game.t) :
  reachable g → Game.game_over g = false →
  Game.valid (Game.board g) (Game.current g) None None = Done true ∧
  ∀ r c, Piece.occupied (Game.current g) r c →
    in_bounds (Piece.x (Game.current g) + Z.of_nat c)
      (Piece.y (Game.current g) + Z.of_nat r) ∧
    cell_at (Game.board g) (Piece.x (Game.current g) + Z.of_nat c)
      (Piece.y (Game.current g) + Z.of_nat r) = Some Zero.
Proof.
  intros Hg Hover.
  pose proof (reachable_playable g Hg Hover) as Hv.
  destruct (reachable_ok g Hg) as (Hb & _ & ((Hm & _) & _) & _).
  split; [done|]. by apply valid_true_free.
Qed.

Lemma current_piece_free_witness :
  reachable game0 ∧ Game.game_over game0 = false ∧
  Game.valid (Game.board game0) (Game.current game0) None None = Done true.
Proof.
  split; [exact game0_reachable|]. split; [reflexivity|].
  exact (proj1 (current_piece_free game0 game0_reachable eq_refl)).
Defined.

(** ** Moves and rotations that undo each other *)

(** X9: when the current piece is valid where it stands and valid [dx]
    columns further, [move_current dx] moves it there and
    [move_current (-dx)] then gives back the game exactly as it was. *)
Theorem move_round_trip (dx : Z) (g : Game.t) :
  Game.valid (Game.board g) (Game.current g) None None = Done true →
  Game.valid (Game.board g) (Game.current g)
    (Some (Piece.x (Game.current g) + dx)) None = Done true →
  ∃ g1, Game.move_current dx g = Done g1 ∧
    Piece.x (Game.current g1) = Piece.x (Game.current g) + dx ∧
    Game.move_current (- dx) g1 = Done g.
Proof.
  intros Hhere Hthere. unfold Game.move_current at 1. rewrite Hthere. simpl.
  eexists. split; [done|]. split; [done|].
  unfold Game.move_current. simpl.
  replace (Piece.x (Game.current g) + dx + - dx)
    with (Piece.x (Game.current g)) by lia.
  change (Game.valid (Game.board g)
            (Piece.with_x (Piece.x (Game.current g) + dx) (Game.current g))
            (Some (Piece.x (Game.current g))) None)
    with (Game.valid (Game.board g) (Game.current g) None None).
  rewrite Hhere. simpl. by destruct g as [? ? ? ? ? ? [] ? ? ? ?].
Qed.

Lemma move_round_trip_witness :
  Game.valid (Game.board game0) (Game.current game0) None None = Done true ∧
  Game.valid (Game.board game0) (Game.current game0)
    (Some (Piece.x (Game.current game0) + 2)) None = Done true ∧
  ∃ g1, Game.move_current 2 game0 = Done g1 ∧
        Game.move_current (- 2) g1 = Done game0.
Proof.
  split; [reflexivity|]. split; [reflexivity|].
  destruct (move_round_trip 2 game0 eq_refl eq_refl) as (g1 & H1 & _ & H2).
  by exists g1.
Defined.

Lemma rotate_back (ccw : bool) (p p' : Piece.t) :
  Piece.wf p →
  (if ccw then Piece.rotate_ccw p else Piece.rotate p) = Done p' →
  Piece.wf p' ∧
  (if negb ccw then Piece.rotate_ccw p' else Piece.rotate p') = Done p.
Proof.
  intros Hp Hrot. pose proof Hp as (Hm & Hh & Hw). destruct ccw; simpl.
  - pose proof (rotate_ccw_preserves_wf _ _ Hp Hrot) as Hp'.
    split; [done|]. rewrite rotate_wf by done.
    rewrite rotate_ccw_wf in Hrot by done. injection Hrot as <-. simpl.
    rewrite reverse_involutive.
    rewrite (zip_star_involutive (Piece.h p) (Piece.w p)) by done.
    by destruct p.
  - pose proof (rotate_preserves_wf _ _ Hp Hrot) as Hp'.
    split; [done|]. rewrite rotate_ccw_wf by done.
    rewrite rotate_wf in Hrot by done. injection Hrot as <-. simpl.
    rewrite (zip_star_involutive (Piece.h p) (Piece.w p));
      [|by apply rect_reverse|done..].
    rewrite reverse_involutive. by destruct p.
Qed.

Lemma rotate_keeps_place (ccw : bool) (p p' : Piece.t) :
  (if ccw then Piece.rotate_ccw p else Piece.rotate p) = Done p' →
  Piece.shape p' = Piece.shape p ∧ Piece.x p' = Piece.x p ∧
  Piece.y p' = Piece.y p.
Proof.
  intros Hrot.
  assert (∃ m, Piece.set_matrix m p = Done p') as [m Hm].
  { destruct ccw; eexists; exact Hrot. }
  unfold Piece.set_matrix in Hm. inv_bind Hm. by injection Hm as <-.
Qed.

(** A rotation whose first try, with no kick, is valid. *)
Lemma rotate_current_no_kick (ccw : bool) (g : Game.t) (p' : Piece.t) :
  (if ccw then Piece.rotate_ccw (Game.current g)
   else Piece.rotate (Game.current g)) = Done p' →
  Game.valid (Game.board g) p' None None = Done true →
  Game.rotate_current ccw g = Done (Game.with_current p' g).
Proof.
  intros Hrot Hv. rewrite (rotate_current_unfold ccw g p' Hrot).
  unfold Game.KICKS.
  change (for_return ?body (0 :: ?rest))
    with (o ← body 0; match o with
                      | Some v => Done (Some v)
                      | None => for_return body rest
                      end).
  cbv beta. rewrite Z.add_0_r.
  change (Game.valid (Game.board g) p' (Some (Piece.x p')) None)
    with (Game.valid (Game.board g) p' None None).
  rewrite Hv. simpl. by destruct p'.
Qed.

(** X10: when the current piece is valid where it stands and its rotation
    is valid in the same place, so that no kick is needed,
    [rotate_current] one way followed by [rotate_current] the other way
    gives back the game exactly as it was. *)
Theorem rotate_round_trip (ccw : bool) (g : Game.t) (p' : Piece.t) :
  Piece.wf (Game.current g) →
  Game.valid (Game.board g) (Game.current g) None None = Done true →
  (if ccw then Piece.rotate_ccw (Game.current g)
   else Piece.rotate (Game.current g)) = Done p' →
  Game.valid (Game.board g) p' None None = Done true →
  Game.rotate_current ccw g = Done (Game.with_current p' g) ∧
  Game.rotate_current (negb ccw) (Game.with_current p' g) = Done g.
Proof.
  intros Hp Hhere Hrot Hthere.
  split; [by apply rotate_current_no_kick|].
  destruct (rotate_back ccw _ _ Hp Hrot) as [Hp' Hback].
  rewrite (rotate_current_no_kick (negb ccw) (Game.with_current p' g)
             (Game.current g)); [|done|done].
  by destruct g.
Qed.

Lemma rotate_round_trip_witness :
  Piece.wf (Game.current game0) ∧
  Game.valid (Game.board game0) (Game.current game0) None None = Done true ∧
  ∃ p', Piece.rotate (Game.current game0) = Done p' ∧
    Game.valid (Game.board game0) p' None None = Done true ∧
    Game.rotate_current false game0 = Done (Game.with_current p' game0) ∧
    Game.rotate_current true (Game.with_current p' game0) = Done game0.
Proof.
  split; [exact piece_Z_wf|]. split; [reflexivity|].
  eexists. split; [reflexivity|]. split; [reflexivity|].
  exact (rotate_round_trip false game0 _ piece_Z_wf eq_refl eq_refl eq_refl).
Defined.

(** X11: [move_current] and [rotate_current] change nothing but the
    current piece, and of the current piece neither the shape nor [y];
    [move_current] also keeps its matrix, [h] and [w]. *)
Theorem move_rotate_frame (g g' : Game.t) :
  (∀ dx, Game.move_current dx g = Done g' →
     ∃ nx, g' = Game.with_current (Piece.with_x nx (Game.current g)) g) ∧
  (∀ ccw, Game.rotate_current ccw g = Done g' →
     ∃ p, g' = Game.with_current p g ∧
       Piece.shape p = Piece.shape (Game.current g) ∧
       Piece.y p = Piece.y (Game.current g)).
Proof.
  split.
  - intros dx H. unfold Game.move_current in H. inv_bind H.
    destruct a; injection H as <-; [by eexists|].
    exists (Piece.x (Game.current g)).
    by destruct g as [? ? ? ? ? ? [] ? ? ? ?].
  - intros ccw H. unfold Game.rotate_current in H. inv_bind H.
    destruct (rotate_keeps_place ccw _ _ Ha) as (Hs & Hx & Hy).
    inv_bind H. destruct a0 as [g1|]; injection H as <-.
    + apply for_return_Done in Ha0.
      destruct Ha0 as (pre & dx & post & _ & _ & Hdx). inv_bind Hdx.
      destruct a0; [|done]. injection Hdx as <-.
      eexists. split; [|split]; [reflexivity|done|done].
    + exists (Game.current g). split; [|done]. simpl.
      rewrite (rotate_restore ccw _ _ Ha). by destruct g.
Qed.

Lemma move_rotate_frame_witness :
  Game.move_current 1 game0
    = Done (Game.with_current (Piece.with_x 4 piece_Z) game0) ∧
  ∃ nx, Game.with_current (Piece.with_x 4 piece_Z) game0
        = Game.with_current (Piece.with_x nx (Game.current game0)) game0.
Proof.
  split; [reflexivity|].
  exact (proj1 (move_rotate_frame game0
                  (Game.with_current (Piece.with_x 4 piece_Z) game0))
           1 eq_refl).
Defined.

(** ** The bag over a whole run *)

Lemma draw_app shuffles1 shuffles2 (bag bag1 : list string)
    (ps1 : list Piece.t) :
  draw shuffles1 bag = Done (ps1, bag1) →
  draw (shuffles1 ++ shuffles2) bag =
    '(ps2, bag2) ← draw shuffles2 bag1; Done (ps1 ++ ps2, bag2).
Proof.
  revert bag ps1. induction shuffles1 as [|sh shs IH]; intros bag ps1; simpl.
  - intros [= <- <-]. by destruct (draw shuffles2 bag) as [[]| |].
  - intros H. inv_bind H. destruct a as [p b]. rewrite Ha. simpl.
    inv_bind H. destruct a as [ps b']. injection H as <- <-.
    rewrite (IH _ _ Ha0). by destruct (draw shuffles2 b') as [[]| |].
Qed.

Lemma draw_seven shuffles :
  length shuffles = 7%nat → Forall is_shuffle shuffles →
  ∃ ps, draw shuffles [] = Done (ps, []) ∧
        Piece.shape <$> ps ≡ₚ TETROMINOES_keys.
Proof.
  intros Hlen Hsh. destruct shuffles as [|shuffle shuffles]; [done|].
  apply Forall_cons in Hsh as [Hsh _].
  pose proof (Hsh TETROMINOES_keys) as Hperm.
  destruct (draw_bag (shuffle :: shuffles) (shuffle TETROMINOES_keys))
    as (ps & Hps & Hshapes).
  { by rewrite Hperm. }
  { apply Forall_forall. intros k Hk. by rewrite <- Hperm. }
  exists ps. split.
  - simpl in Hps |- *. by rewrite next_piece_nil.
  - by rewrite Hshapes, reverse_Permutation.
Qed.

(** X12: any run of [7 * k] calls of [next_piece] that starts with the
    bag empty returns; the pieces come in [k] blocks of seven, the shapes
    of each block a permutation of the seven catalog names; and the bag is
    empty again at the end. *)
Theorem bag_fair_over_a_run (k : nat)
    (shuffles : list (list string → list string)) :
  length shuffles = (7 * k)%nat →
  Forall is_shuffle shuffles →
  ∃ blocks : list (list Piece.t),
    draw shuffles [] = Done (concat blocks, []) ∧
    length blocks = k ∧
    Forall (fun block => Piece.shape <$> block ≡ₚ TETROMINOES_keys) blocks.
Proof.
  revert shuffles. induction k as [|k IH]; intros shuffles Hlen Hsh.
  - destruct shuffles; [|done]. by exists [].
  - rewrite <- (take_drop 7 shuffles) in Hsh |- *.
    apply Forall_app in Hsh as [Hsh1 Hsh2].
    destruct (draw_seven (take 7 shuffles)) as (ps & Hps & Hperm);
      [rewrite length_take; lia|done|].
    destruct (IH (drop 7 shuffles)) as (blocks & Hdraw & Hk & Hall);
      [rewrite length_drop; lia|done|].
    exists (ps :: blocks). split_and!.
    + rewrite (draw_app _ _ _ _ _ Hps), Hdraw. done.
    + simpl. by rewrite Hk.
    + by constructor.
Qed.

Lemma bag_fair_over_a_run_witness :
  length (replicate 14 (reverse (A:=string))) = (7 * 2)%nat ∧
  Forall is_shuffle (replicate 14 reverse) ∧
  ∃ blocks, draw (replicate 14 reverse) [] = Done (concat blocks, []) ∧
            length blocks = 2%nat.
Proof.
  assert (Forall is_shuffle (replicate 14 reverse)) as Hsh.
  { apply Forall_replicate. intros l. apply reverse_Permutation. }
  split; [reflexivity|]. split; [exact Hsh|].
  destruct (bag_fair_over_a_run 2 (replicate 14 reverse) eq_refl Hsh)
    as (blocks & Hdraw & Hk & _).
  by exists blocks.
Defined.

(** ** The main loop stays within the reachable games *)

Lemma fmap_Some_Done {A} (m : result A) (a : A) :
  Some <$> m = Done (Some a) → m = Done a.
Proof. destruct m as [a'| |]; simpl; [|done..]. by intros [= ->]. Qed.

Lemma dispatch_reachable (KEY_LEFT KEY_RIGHT KEY_DOWN : Z) (fuel : nat)
    shuffle (ch : Z) (g g1 : Game.t) :
  is_shuffle shuffle → reachable g →
  dispatch KEY_LEFT KEY_RIGHT KEY_DOWN fuel shuffle ch g = Done (Some g1) →
  reachable g1.
Proof.
  intros Hsh Hg. unfold dispatch.
  destruct (key_in ch KEY_LEFT (ord "h")).
  { intros H%fmap_Some_Done.
    by apply (reachable_op fuel shuffle (MoveCurrent (-1)) g g1). }
  destruct (key_in ch KEY_RIGHT (ord "l")).
  { intros H%fmap_Some_Done.
    by apply (reachable_op fuel shuffle (MoveCurrent 1) g g1). }
  destruct (key_in ch KEY_DOWN (ord "j")).
  { intros H%fmap_Some_Done.
    by apply (reachable_op fuel shuffle SoftDrop g g1). }
  destruct (ch =? ord " ").
  { intros H%fmap_Some_Done.
    by apply (reachable_op fuel shuffle HardDrop g g1). }
  destruct (key_in ch (ord "z") (ord "Z")).
  { intros H%fmap_Some_Done.
    by apply (reachable_op fuel shuffle (RotateCurrent true) g g1). }
  destruct (key_in ch (ord "x") (ord "X")).
  { intros H%fmap_Some_Done.
    by apply (reachable_op fuel shuffle (RotateCurrent false) g g1). }
  destruct (key_in ch (ord "p") (ord "P")).
  { intros [= <-].
    by apply (reachable_op fuel shuffle TogglePause g). }
  destruct (key_in ch (ord "q") (ord "Q")); [done|]. by intros [= <-].
Qed.

(** X13: a turn of the main loop on a reachable game, whatever key was
    read, hands back a reachable game (or leaves the loop); so what holds
    of every reachable game holds all along a run of [main]. *)
Theorem main_turn_reachable (KEY_LEFT KEY_RIGHT KEY_DOWN : Z) (fuel : nat)
    (shuffle : list string → list string) (ch : Z) (now : float)
    (g g' : Game.t) :
  is_shuffle shuffle → reachable g →
  main_turn KEY_LEFT KEY_RIGHT KEY_DOWN fuel shuffle ch now g
    = Done (Some g') →
  reachable g'.
Proof.
  intros Hsh Hg. unfold main_turn.
  destruct (Game.game_over g).
  { destruct (key_in ch (ord "q") (ord "Q")); [done|]. by intros [= <-]. }
  intros H. inv_bind H. destruct a as [g1|]; [|done].
  apply fmap_Some_Done in H.
  assert (reachable g1) as Hg1.
  { destruct (negb (ch =? -1)); [|by injection Ha as <-].
    by eapply dispatch_reachable. }
  by apply (reachable_op fuel shuffle (Step now) g1 g').
Qed.

Lemma main_turn_reachable_witness :
  is_shuffle id ∧ reachable game0 ∧
  ∃ g', main_turn 260 261 258 30 id (ord " ") 5%float game0
          = Done (Some g') ∧ reachable g'.
Proof.
  split; [exact is_shuffle_id|]. split; [exact game0_reachable|].
  assert (∃ g', main_turn 260 261 258 30 id (ord " ") 5%float game0
                  = Done (Some g')) as [g' Hg'].
  { eexists. vm_compute. reflexivity. }
  exists g'. split; [exact Hg'|].
  exact (main_turn_reachable 260 261 258 30 id (ord " ") 5%float game0 g'
           is_shuffle_id game0_reachable Hg').
Defined.

(** ** hard_drop and soft_drop *)

Lemma clear_lines_add_score (c : Z) (g : Game.t) :
  Game.clear_lines (add_score c g) = add_score c <$> Game.clear_lines g.
Proof.
  unfold Game.clear_lines. simpl.
  destruct (_ =? 0); [done|]. simpl.
  destruct (Game.delay_of_level _) as [d| |]; simpl; [|done..].
  unfold add_score, Game.with_drop_delay, Game.with_score. simpl.
  do 2 f_equal. lia.
Qed.

Lemma lock_piece_add_score shuffle (c : Z) (g : Game.t) (piece : Piece.t) :
  Game.lock_piece shuffle (add_score c g) piece =
  add_score c <$> Game.lock_piece shuffle g piece.
Proof.
  unfold Game.lock_piece. simpl.
  destruct (Game.lock_write piece (Game.board g)) as [b| |]; simpl; [|done..].
  change (Game.with_board b (add_score c g))
    with (add_score c (Game.with_board b g)).
  rewrite clear_lines_add_score.
  destruct (Game.clear_lines (Game.with_board b g)) as [g1| |]; simpl;
    [|done..].
  destruct (Game.next_piece shuffle (Game.bag g1)) as [[nxt bag']| |]; simpl;
    [|done..].
  destruct (Game.valid (Game.board g1) (Game.next g1) None None) as [v| |];
    simpl; [|done..].
  by destruct v.
Qed.

Lemma slide_0 g : slide 0 0 g = g.
Proof.
  destruct g as [? ? ? ? ? ? [] ? ? ? ?]. unfold slide. simpl.
  unfold Game.with_score, Game.with_current, Piece.with_y. simpl.
  f_equal; [lia|]. f_equal. lia.
Qed.

Lemma slide_step k g :
  slide k k (Game.with_score (Game.score (Game.descend g) + 1) (Game.descend g))
  = slide (1 + k) (1 + k) g.
Proof.
  destruct g as [? ? ? ? ? ? [] ? ? ? ?]. unfold slide. simpl.
  unfold Game.with_score, Game.with_current, Piece.with_y. simpl.
  f_equal; [lia|]. f_equal. lia.
Qed.

Lemma drop_by_slide k g : drop_by k g = add_score k (slide k k g).
Proof.
  destruct g as [? ? ? ? ? ? [] ? ? ? ?]. unfold drop_by, add_score, slide.
  simpl. unfold Game.with_score. simpl. f_equal. lia.
Qed.

Lemma soft_drop_free shuffle (g : Game.t) :
  Game.valid (Game.board g) (Game.current g) None
    (Some (Piece.y (Game.current g) + 1)) = Done true →
  Game.soft_drop shuffle g =
    Done (Game.with_score (Game.score (Game.descend g) + 1) (Game.descend g)).
Proof. intros Hv. unfold Game.soft_drop. by rewrite Hv. Qed.

(** [k] calls of [soft_drop] while the way down is free. *)
Lemma soft_drops shuffle (k : nat) :
  ∀ g, (∀ j, 1 ≤ j ≤ Z.of_nat k →
          Game.valid (Game.board g) (Game.current g) None
            (Some (Piece.y (Game.current g) + j)) = Done true) →
  repeat_call (Game.soft_drop shuffle) k g
    = Done (slide (Z.of_nat k) (Z.of_nat k) g).
Proof.
  induction k as [|k IH]; intros g Hfree.
  - simpl. by rewrite slide_0.
  - change (repeat_call (Game.soft_drop shuffle) (Datatypes.S k) g)
      with (g1 ← Game.soft_drop shuffle g;
            repeat_call (Game.soft_drop shuffle) k g1).
    rewrite (soft_drop_free shuffle g) by (apply (Hfree 1); lia).
    change (Done ?a ≫= ?f) with (f a). cbv beta.
    rewrite IH.
    + rewrite slide_step. do 2 f_equal; lia.
    + intros j Hj. simpl.
      replace (Piece.y (Game.current g) + 1 + j)
        with (Piece.y (Game.current g) + (1 + j)) by lia.
      apply (Hfree (1 + j)). lia.
Qed.

(** The loop of [hard_drop] ends after at most [BOARD_HEIGHT] steps. *)
Lemma hard_drop_loop_ends (fuel : nat) (g : Game.t) :
  board_ok (Game.board g) →
  rect (Piece.h (Game.current g)) (Piece.w (Game.current g))
    (Piece.matrix (Game.current g)) →
  (∃ r c, Piece.occupied (Game.current g) r c) →
  BOARD_HEIGHT < Z.of_nat fuel →
  ∃ k : nat, (k ≤ 20)%nat ∧
    Game.hard_drop_loop fuel g = Done (drop_by (Z.of_nat k) g) ∧
    (∀ j, 1 ≤ j ≤ Z.of_nat k →
       Game.valid (Game.board g) (Game.current g) None
         (Some (Piece.y (Game.current g) + j)) = Done true) ∧
    Game.valid (Game.board g) (Game.current g) None
      (Some (Piece.y (Game.current g) + Z.of_nat k + 1)) = Done false.
Proof.
  intros Hb Hm (r0 & c0 & Hocc) Hfuel. unfold BOARD_HEIGHT in Hfuel.
  destruct (valid_Done (Game.board g) (Game.current g) None
    (Some (Piece.y (Game.current g) + 1)) Hb Hm) as (v & Hv & Hin).
  simpl in Hin. destruct v.
  - destruct (Hin eq_refl r0 c0 Hocc) as [_ Hy].
    unfold BOARD_HEIGHT in Hy.
    apply (hard_drop_loop_bound 20 g fuel r0 c0); try done;
      unfold BOARD_HEIGHT; lia.
  - exists 0%nat. destruct fuel as [|fuel]; [lia|].
    rewrite (hard_drop_loop_S _ _ _ Hv), drop_by_0.
    split; [lia|]. split; [done|]. split; [intros j Hj; lia|].
    by rewrite Z.add_0_r.
Qed.

(** X14: in a game whose board has the game's shape and whose current
    piece has an [h] by [w] matrix with an occupied cell, [hard_drop]
    does what [k + 1] calls of [soft_drop] do, the first [k] lowering the
    piece and the last one locking it, where [k] is the number of rows
    the piece can fall; only the score differs, by the [k] points that
    [hard_drop] adds on top (2 a row instead of 1). *)
Theorem hard_drop_as_soft_drops (fuel : nat)
    (shuffle : list string → list string) (g : Game.t) :
  board_ok (Game.board g) →
  rect (Piece.h (Game.current g)) (Piece.w (Game.current g))
    (Piece.matrix (Game.current g)) →
  (∃ r c, Piece.occupied (Game.current g) r c) →
  BOARD_HEIGHT < Z.of_nat fuel →
  ∃ k : nat, (k ≤ 20)%nat ∧
    repeat_call (Game.soft_drop shuffle) k g
      = Done (slide (Z.of_nat k) (Z.of_nat k) g) ∧
    Game.hard_drop fuel shuffle g =
      add_score (Z.of_nat k)
        <$> repeat_call (Game.soft_drop shuffle) (Datatypes.S k) g.
Proof.
  intros Hb Hm Hocc Hfuel.
  destruct (hard_drop_loop_ends fuel g Hb Hm Hocc Hfuel)
    as (k & Hk & Hloop & Htrue & Hfalse).
  pose proof (soft_drops shuffle k g Htrue) as Hsoft.
  exists k. split; [done|]. split; [done|].
  replace (Datatypes.S k) with (k + 1)%nat by lia.
  rewrite (repeat_call_add _ k 1 g _ Hsoft).
  set (gk := slide (Z.of_nat k) (Z.of_nat k) g).
  assert (Game.soft_drop shuffle gk
          = Game.lock_piece shuffle gk (Game.current gk)) as Hlast.
  { unfold Game.soft_drop.
    change (Game.valid (Game.board gk) (Game.current gk) None
              (Some (Piece.y (Game.current gk) + 1)))
      with (Game.valid (Game.board g) (Game.current g) None
              (Some (Piece.y (Game.current g) + Z.of_nat k + 1))).
    by rewrite Hfalse. }
  unfold Game.hard_drop. rewrite Hloop. simpl.
  rewrite Hlast, drop_by_slide. fold gk.
  change (Game.current (add_score (Z.of_nat k) gk)) with (Game.current gk).
  rewrite lock_piece_add_score.
  change (Piece.with_y (Piece.y (Game.current g) + Z.of_nat k)
            (Game.current g)) with (Game.current gk).
  by destruct (Game.lock_piece shuffle gk (Game.current gk)).
Qed.

Lemma hard_drop_as_soft_drops_witness :
  board_ok (Game.board game0) ∧
  rect (Piece.h (Game.current game0)) (Piece.w (Game.current game0))
    (Piece.matrix (Game.current game0)) ∧
  (∃ r c, Piece.occupied (Game.current game0) r c) ∧
  BOARD_HEIGHT < Z.of_nat 21 ∧
  ∃ k : nat,
    Game.hard_drop 21 id game0 =
      add_score (Z.of_nat k)
        <$> repeat_call (Game.soft_drop id) (Datatypes.S k) game0.
Proof.
  assert (∃ r c, Piece.occupied (Game.current game0) r c) as Hocc.
  { exists 0%nat, 0%nat. by eexists _, _. }
  split; [exact board_ok_empty|]. split; [exact (proj1 piece_Z_wf)|].
  split; [exact Hocc|]. split; [reflexivity|].
  destruct (hard_drop_as_soft_drops 21 id game0 board_ok_empty
              (proj1 piece_Z_wf) Hocc eq_refl) as (k & _ & _ & Hk).
  by exists k.
Defined.

(** ** The bag during a game *)

Lemma keys_NoDup : NoDup TETROMINOES_keys.
Proof.
  unfold TETROMINOES_keys. simpl.
  repeat (apply NoDup_cons_2;
    [intros Hin; repeat (apply elem_of_cons in Hin as [Hin|Hin];
       [discriminate Hin|]); by apply elem_of_nil in Hin|]).
  apply NoDup_nil_2.
Qed.

Lemma next_piece_bag shuffle (bag bag' : list string) (p : Piece.t) :
  is_shuffle shuffle → NoDup bag → (length bag ≤ 6)%nat →
  Game.next_piece shuffle bag = Done (p, bag') →
  NoDup bag' ∧ (length bag' ≤ 6)%nat ∧ Piece.shape p ∉ bag'.
Proof.
  intros Hsh Hnd Hlen Hnp.
  assert (∃ b s, (NoDup (b ++ [s]) ∧ (length (b ++ [s]) ≤ 7)%nat) ∧
            Game.next_piece shuffle (b ++ [s]) = Done (p, bag'))
    as (b & s & [Hnd' Hlen'] & Hnp').
  { destruct bag as [|s0 b0] using rev_ind.
    - rewrite next_piece_nil in Hnp.
      pose proof (Hsh TETROMINOES_keys) as Hperm.
      destruct (shuffle TETROMINOES_keys) as [|s1 b1] eqn:Hl using rev_ind.
      { by apply Permutation_nil_l in Hperm. }
      exists b1, s1. split; [|done]. split.
      + rewrite Hperm. apply keys_NoDup.
      + by rewrite Hperm.
    - exists b0, s0. split; [|done]. split; [done|lia]. }
  apply next_piece_snoc_new in Hnp' as [Hnew ->].
  apply new_Done in Hnew as [-> _].
  apply NoDup_app in Hnd' as (Hb & Hdisj & _).
  rewrite length_app in Hlen'. simpl in Hlen'.
  split; [done|]. split; [lia|].
  intros Hin. apply (Hdisj _ Hin). by left.
Qed.

Lemma lock_piece_bag shuffle (g g' : Game.t) (piece : Piece.t) :
  is_shuffle shuffle → bag_ok g →
  Game.lock_piece shuffle g piece = Done g' → bag_ok g'.
Proof.
  intros Hsh (Hnd & Hlen & _) Hl.
  apply lock_piece_Done in Hl
    as (b1 & g1 & nxt & bag' & v & _ & _ & Hnp & _ & ->).
  unfold bag_ok. simpl. by eapply next_piece_bag.
Qed.

Lemma frame_bag (g g' : Game.t) : frame g g' → bag_ok g → bag_ok g'.
Proof.
  intros (_ & _ & _ & _ & Hbag & Hnext & _). unfold bag_ok.
  by rewrite Hbag, Hnext.
Qed.

(** X15: in every reachable game the bag holds no name twice, holds at
    most six names, and does not hold the name of the next piece. *)
Theorem bag_never_repeats (g : Game.t) :
  reachable g →
  NoDup (Game.bag g) ∧ (length (Game.bag g) ≤ 6)%nat ∧
  Piece.shape (Game.next g) ∉ Game.bag g.
Proof.
  induction 1 as [shuffle now g Hsh Hinit|fuel shuffle o g g' Hsh Hg IH Hrun].
  - unfold Game.init in Hinit. inv_bind Hinit. destruct a as [cur bag1].
    inv_bind Hinit. destruct a as [nxt bag2]. injection Hinit as <-. simpl.
    destruct (next_piece_bag shuffle [] bag1 cur Hsh) as (Hnd1 & Hlen1 & _);
      [apply NoDup_nil_2|simpl; lia|done|].
    by apply (next_piece_bag shuffle bag1 bag2 nxt Hsh).
  - apply run_op_shape in Hrun as (g1 & Hf & _ & [->|(g2 & Hl & Hf2)]).
    + by apply (frame_bag g g1).
    + apply (frame_bag g2 g'); [done|].
      apply (lock_piece_bag shuffle g1 g2 (Game.current g1)); [done| |done].
      by apply (frame_bag g g1).
Qed.

Lemma bag_never_repeats_witness :
  reachable game0 ∧ NoDup (Game.bag game0).
Proof.
  split; [exact game0_reachable|].
  exact (proj1 (bag_never_repeats game0 game0_reachable)).
Defined.

(** ** Locking a valid piece *)

(** X16: when the piece is valid where it stands, [lock_piece]'s writes
    overwrite no locked cell: every on-board cell that was not empty
    holds the same name after the writes, and every cell the piece covers
    was empty before and holds the piece's name after. *)
Theorem lock_overwrites_nothing (b : list (list cell)) (piece : Piece.t) :
  board_ok b →
  rect (Piece.h piece) (Piece.w piece) (Piece.matrix piece) →
  Piece.shape piece ∈ TETROMINOES_keys →
  Game.valid b piece None None = Done true →
  ∃ b1, Game.lock_write piece b = Done b1 ∧
    ∀ bx by_, in_bounds bx by_ →
      (cell_at b bx by_ ≠ Some Zero → cell_at b1 bx by_ = cell_at b bx by_) ∧
      (covers piece bx by_ →
       cell_at b bx by_ = Some Zero ∧
       cell_at b1 bx by_ = Some (Tag (Piece.shape piece))).
Proof.
  intros Hb Hm Hs Hv.
  destruct (lock_write_spec piece b Hb Hm Hs) as (b1 & Hw & _ & Hcells).
  pose proof (valid_true_free b piece Hb Hm Hv) as Hfree.
  exists b1. split; [done|]. intros bx by_ Hin.
  rewrite (Hcells bx by_ Hin).
  pose proof (coversb_spec piece bx by_ Hm) as Hcov.
  destruct (coversb piece bx by_).
  - assert (covers piece bx by_) as (r & c & Hocc & -> & ->)
      by (by apply Hcov).
    destruct (Hfree r c Hocc) as [_ Hzero].
    split; [done|]. intros _. by split.
  - split; [done|]. intros Hyes. apply Hcov in Hyes. done.
Qed.

Lemma lock_overwrites_nothing_witness :
  board_ok board_gap ∧ rect 3 3 (Piece.matrix piece_T) ∧
  (Piece.shape piece_T ∈ TETROMINOES_keys) ∧
  Game.valid board_gap (Piece.with_y 18 piece_T) None None = Done true ∧
  ∃ b1, Game.lock_write (Piece.with_y 18 piece_T) board_gap = Done b1 ∧
    cell_at b1 2 19 = Some (Tag "I") ∧ cell_at b1 3 19 = Some (Tag "T").
Proof.
  assert (Piece.shape piece_T ∈ TETROMINOES_keys) as Hs
    by repeat constructor.
  split; [exact board_ok_gap|]. split; [exact (proj1 piece_T_wf)|].
  split; [exact Hs|]. split; [reflexivity|].
  destruct (lock_overwrites_nothing board_gap (Piece.with_y 18 piece_T)
              board_ok_gap (proj1 piece_T_wf) Hs eq_refl) as (b1 & Hw & _).
  exists b1. split; [exact Hw|]. injection Hw as <-. by split.
Defined.
